(** * The ingester of storage/local/frankenstein.go

    A shallow embedding of the in-memory ingester: the sorted fingerprint
    lists and their sort-merge helpers, the inverted index, the append and
    query paths of a memory series, and the flush path.

    Conventions.
    - A fingerprint ([model.Fingerprint], a [uint64]) is an [N]; only its
      order and equality are used by the code.
    - Go maps are [gmap]s.  A [range] over a map visits its entries in an
      order the language leaves open: each such loop is a fold over a list
      of entries, and the lemmas on the loops of the index are stated for an
      arbitrary list.
    - Locks are dropped: every operation is modelled running alone, from its
      first lock to its last unlock.
    - A run-time panic (slice bounds, index out of range) is a [Panics]
      result; a Go [error] return value is data. *)

From Stdlib Require Import ZArith NArith Lia.
From stdpp Require Import base option list sorting gmap strings pretty.

(** ** Basic types *)

Abbreviation Fingerprint := N.
Abbreviation LabelName := string.
Abbreviation LabelValue := string.
Abbreviation Time := Z.
(** [model.Metric] is [map[LabelName]LabelValue]. *)
Abbreviation Metric := (gmap string string).

(** Run-time panics of the Go runtime that the code can raise. *)
Inductive panic : Type :=
| SliceBoundsOutOfRange (low high : Z)
| IndexOutOfRange (index len : Z)
| NilDereference.

Inductive result (A : Type) : Type :=
| Ok (a : A)
| Panics (p : panic).
Arguments Ok {A} a.
Arguments Panics {A} p.

(** Sequencing: a panic ends the computation. *)
#[global] Instance result_bind : MBind result := λ A B k r,
  match r with
  | Ok a => k a
  | Panics p => Panics p
  end.

(** ** Slices of fingerprints

    [intersect] tells the nil slice from an empty one, so a slice value is
    [None] for nil and [Some l] for a slice with elements [l]. *)

Abbreviation Fingerprints := (option (list N)).

Definition elems (s : Fingerprints) : list Fingerprint := default [] s.

(** The loop of [intersect]: [a] and [b] are the suffixes [a[i:]] and
    [b[j:]] still to be visited. *)
Fixpoint intersect_loop (a : list Fingerprint) : list Fingerprint → list Fingerprint :=
  fix over_b (b : list Fingerprint) : list Fingerprint :=
    match a, b with
    | x :: a', y :: b' =>
        (if (x =? y)%N then [x] else []) ++
        (if (x <? y)%N then intersect_loop a' b else over_b b')
    | _, _ => []
    end.

Definition intersect (a b : Fingerprints) : Fingerprints :=
  match a with
  | None => b
  | Some la => Some (intersect_loop la (elems b))
  end.

(** The three loops of [merge]: the first runs while both suffixes are
    non-empty, the other two copy what is left of [a], then of [b]. *)
Fixpoint merge_loop (a : list Fingerprint) : list Fingerprint → list Fingerprint :=
  fix over_b (b : list Fingerprint) : list Fingerprint :=
    match a, b with
    | x :: a', y :: b' =>
        if (x <? y)%N then x :: merge_loop a' b else y :: over_b b'
    | _, [] => a
    | [], _ => b
    end.

Definition merge (a b : Fingerprints) : Fingerprints :=
  Some (merge_loop (elems a) (elems b)).

(** ** [sort.Search]

    The binary search of Go's standard library: the smallest index [i] in
    [[0, n)] with [f i] true, or [n].  The loop halves [j - i], so [n]
    rounds are enough. *)
Fixpoint search_loop (fuel : nat) (f : nat → bool) (i j : nat) : nat :=
  match fuel with
  | O => i
  | S fuel' =>
      if (i <? j)%nat then
        let h := ((i + j) / 2)%nat in
        if f h then search_loop fuel' f i h
        else search_loop fuel' f (h + 1)%nat j
      else i
  end.

Definition sort_Search (n : nat) (f : nat → bool) : nat :=
  search_loop n f 0%nat n.

(** [fingerprints[i] >= fp], for [i] within the slice. *)
Definition fp_ge_at (fingerprints : list Fingerprint) (fp : Fingerprint) (i : nat) : bool :=
  match fingerprints !! i with
  | Some x => (fp <=? x)%N
  | None => false
  end.

(** ** Slice operations *)

(** [copy(l[off:], src)]: the elements copied overwrite [l] from [off] on;
    returns the updated backing list and the number of elements copied. *)
Definition copy_at {A} (l : list A) (off : nat) (src : list A) : list A * nat :=
  let n := (length l - off) `min` length src in
  (take off l ++ take n src ++ drop (off + n) l, n)%nat.

(** [l[low:]], which panics when [low > len(l)]. *)
Definition slice_from {A} (l : list A) (low : nat) : result (list A) :=
  if (low <=? length l)%nat then Ok (drop low l)
  else Panics (SliceBoundsOutOfRange (Z.of_nat low) (Z.of_nat (length l))).

(** ** The inverted index *)

Abbreviation invertedIndex := (gmap string (gmap string (list N))).

Definition newInvertedIndex : invertedIndex := ∅.

(** The body of the loop of [invertedIndex.add] on the list stored for one
    [(name, value)] pair: grow by one, shift the tail, store [fp] at [j]. *)
Definition add_fingerprint (fingerprints : list Fingerprint) (fp : Fingerprint)
  : list Fingerprint :=
  let j := sort_Search (length fingerprints) (fp_ge_at fingerprints fp) in
  let fingerprints := fingerprints ++ [0%N] in
  let fingerprints := (copy_at fingerprints (j + 1) (drop j fingerprints)).1 in
  <[j := fp]> fingerprints.

Definition add_step (fp : Fingerprint) (idx : invertedIndex)
    (entry : LabelName * LabelValue) : invertedIndex :=
  let '(name, value) := entry in
  let values := default ∅ (idx !! name) in
  let fingerprints := default [] (values !! value) in
  let fingerprints := add_fingerprint fingerprints fp in
  let values := <[value := fingerprints]> values in
  <[name := values]> idx.

(** [invertedIndex.add] over one enumeration of the metric's entries. *)
Definition add_entries (idx : invertedIndex) (entries : list (LabelName * LabelValue))
    (fp : Fingerprint) : invertedIndex :=
  foldl (add_step fp) idx entries.

Definition invertedIndex_add (idx : invertedIndex) (metric : Metric) (fp : Fingerprint)
  : invertedIndex :=
  add_entries idx (map_to_list metric) fp.

(** The slice expression of [invertedIndex.delete],
    [fingerprints[:j+copy(fingerprints[j:], fingerprints[j+1:])]]. *)
Definition delete_fingerprint (fingerprints : list Fingerprint) (fp : Fingerprint)
  : result (list Fingerprint) :=
  let j := sort_Search (length fingerprints) (fp_ge_at fingerprints fp) in
  src ← slice_from fingerprints (j + 1);
  let '(fingerprints, n) := copy_at fingerprints j src in
  Ok (take (j + n) fingerprints).

Definition delete_step (fp : Fingerprint) (idx : invertedIndex)
    (entry : LabelName * LabelValue) : result invertedIndex :=
  let '(name, value) := entry in
  match idx !! name with
  | None => Ok idx
  | Some values =>
      match values !! value with
      | None => Ok idx
      | Some fingerprints =>
          fingerprints ← delete_fingerprint fingerprints fp;
          let values :=
            if (length fingerprints =? 0)%nat then delete value values
            else <[value := fingerprints]> values in
          Ok (if (size values =? 0)%nat then delete name idx
              else <[name := values]> idx)
      end
  end.

Fixpoint delete_entries (idx : invertedIndex) (entries : list (LabelName * LabelValue))
    (fp : Fingerprint) : result invertedIndex :=
  match entries with
  | [] => Ok idx
  | entry :: entries =>
      idx ← delete_step fp idx entry;
      delete_entries idx entries fp
  end.

Definition invertedIndex_delete (idx : invertedIndex) (metric : Metric) (fp : Fingerprint)
  : result invertedIndex :=
  delete_entries idx (map_to_list metric) fp.

(** [metric.LabelMatcher]: a label name and a predicate on its value. *)
Record LabelMatcher : Type := {
  Name : LabelName;
  Match : LabelValue → bool;
}.

(** The inner loop of [lookup], over the values of one name in the order the
    range produced them. *)
Definition union_step (matcher : LabelMatcher) (toIntersect : Fingerprints)
    (entry : LabelValue * list Fingerprint) : Fingerprints :=
  let '(value, fps) := entry in
  if Match matcher value then merge toIntersect (Some fps) else toIntersect.

Definition union_matching (matcher : LabelMatcher)
    (values : list (LabelValue * list Fingerprint)) : Fingerprints :=
  foldl (union_step matcher) None values.

Fixpoint lookup_loop (idx : invertedIndex) (intersection : Fingerprints)
    (matchers : list LabelMatcher) : Fingerprints :=
  match matchers with
  | [] => intersection
  | matcher :: matchers =>
      match idx !! Name matcher with
      | None => None
      | Some values =>
          let toIntersect := union_matching matcher (map_to_list values) in
          let intersection := intersect intersection toIntersect in
          if (length (elems intersection) =? 0)%nat then None
          else lookup_loop idx intersection matchers
      end
  end.

Definition invertedIndex_lookup (idx : invertedIndex) (matchers : list LabelMatcher)
  : Fingerprints :=
  if (length matchers =? 0)%nat then None
  else lookup_loop idx None matchers.

(** ** The ingester *)

(** Go [error] values returned by the ingester.  The sentinel errors are the
    ingester's own; an error produced by a collaborator (the chunk codec,
    the chunk store, the mapper) is carried as its message. *)
Inductive error : Type :=
| ErrNoUserID                      (* fmt.Errorf("no user id") *)
| ErrIngesterStopping              (* fmt.Errorf("ingester stopping") *)
| ErrDuplicateSampleForTimestamp
| ErrOutOfOrderSample
| ErrExternal (msg : string).

(** Modelled from the spec: the reason labels of
    [out_of_order_samples_total] are constants declared outside this file;
    the spec names them [duplicate_sample_for_timestamp] and
    [sample_out_of_order]. *)
Definition duplicateSample : string := "duplicate_sample_for_timestamp".
Definition outOfOrderTimestamp : string := "sample_out_of_order".

(** [model.Earliest], the earliest [model.Time]: the minimum [int64]. *)
Definition Earliest : Time := (-9223372036854775808)%Z.

(** The value types supplied by other packages: sample values
    ([model.SampleValue], a [float64], with its [Equal]), the chunk
    interface of the codec, and the [float64] reported by
    [chunk.utilization]. *)
Class Values : Type := {
  SampleValue : Type;
  SampleValue_Equal : SampleValue → SampleValue → bool;
  SampleValue_zero : SampleValue;
  chunk : Type;
  Utilization : Type;
}.

Section Types.
Context `{Values}.

(** [model.SamplePair] and [model.Sample]. *)
Record SamplePair : Type := {
  pair_Timestamp : Time;
  pair_Value : SampleValue;
}.

Record Sample : Type := {
  sample_Metric : Metric;
  sample_Value : SampleValue;
  sample_Timestamp : Time;
}.

(** Modelled from the spec: the [chunkDesc] struct is declared outside this
    file; the spec gives it a chunk, a first time and a last time. *)
Record chunkDesc : Type := {
  c : chunk;
  chunkFirstTime : Time;
  chunkLastTime : Time;
}.

(** Modelled from the spec: the [memorySeries] struct is declared outside
    this file; these are the fields the spec lists. *)
Record memorySeries : Type := {
  metric : Metric;
  chunkDescs : list chunkDesc;
  lastTime : Time;
  lastSampleValue : SampleValue;
  lastSampleValueSet : bool;
  headChunkClosed : bool;
  headChunkUsedByIterator : bool;
}.

(** [model.SampleStream], an entry of the [model.Matrix] a query returns. *)
Record SampleStream : Type := {
  stream_Metric : Metric;
  stream_Values : list SamplePair;
}.

(** [frank.Chunk], the record handed to the chunk store. *)
Record Chunk : Type := {
  Chunk_ID : string;
  Chunk_From : Time;
  Chunk_Through : Time;
  Chunk_Metric : Metric;
  Chunk_Data : list Byte.byte;
}.

End Types.

(** The operations supplied by the rest of the package and by other
    packages.  [mapFP] reads the series map the mapper was created on, so it
    takes it as an argument; [series_add] is the [add] method of [memorySeries], whose
    errors come from the chunk codec. *)
Class Package `{Values} : Type := {
  FastFingerprint : Metric → Fingerprint;
  fpMapper : Type;
  newFPMapper : string + fpMapper;
  mapFP : fpMapper → gmap N memorySeries → Fingerprint → Metric →
          fpMapper * Fingerprint;
  series_add : memorySeries → SamplePair → memorySeries * option string;
  series_firstTime : memorySeries → Time;
  chunkDesc_firstTime : chunkDesc → Time;
  chunkDesc_lastTime : chunkDesc → string + Time;
  maybePopulateLastTime : chunkDesc → chunkDesc;
  (* rangeValues(cd.c.newIterator(), in) *)
  rangeValues : chunk → Time → Time → string + list SamplePair;
  marshalToBuf : chunk → string + list Byte.byte;
  utilization : chunk → Utilization;
  Store : Type;
  (* the context carries the tenant id *)
  Put : Store → option string → list Chunk → Store * option string;
}.

Section Ingester.
Context `{Package}.

Record IngesterConfig : Type := {
  FlushCheckPeriod : Z;
  MaxChunkAge : Z;
}.

Record userState : Type := {
  userID : string;
  fpToSeries : gmap N memorySeries;
  mapper : fpMapper;
  index : invertedIndex;
}.

(** The ingester.  Counters and gauges hold the sum of what was added to
    them; [discardedSamples] is the counter vector, keyed by reason. *)
Record Ingester : Type := {
  cfg : IngesterConfig;
  chunkStore : option Store;
  stopped : bool;
  userStates : gmap string userState;
  ingestedSamples : Z;
  discardedSamples : gmap string Z;
  chunkUtilization : list Utilization;
  chunkStoreFailures : Z;
  queries : Z;
  queriedSamples : Z;
  memoryChunks : Z;
}.

(** *** Field updates *)

Definition set_chunkDescs (cds : list chunkDesc) (s : memorySeries) : memorySeries :=
  {| metric := metric s; chunkDescs := cds; lastTime := lastTime s;
     lastSampleValue := lastSampleValue s;
     lastSampleValueSet := lastSampleValueSet s;
     headChunkClosed := headChunkClosed s;
     headChunkUsedByIterator := headChunkUsedByIterator s |}.

Definition close_head_flags (s : memorySeries) : memorySeries :=
  {| metric := metric s; chunkDescs := chunkDescs s; lastTime := lastTime s;
     lastSampleValue := lastSampleValue s;
     lastSampleValueSet := lastSampleValueSet s;
     headChunkClosed := true;
     headChunkUsedByIterator := false |}.

Definition set_fpToSeries (m : gmap N memorySeries) (u : userState) : userState :=
  {| userID := userID u; fpToSeries := m; mapper := mapper u; index := index u |}.

Definition set_mapper (mp : fpMapper) (u : userState) : userState :=
  {| userID := userID u; fpToSeries := fpToSeries u; mapper := mp; index := index u |}.

Definition set_index (idx : invertedIndex) (u : userState) : userState :=
  {| userID := userID u; fpToSeries := fpToSeries u; mapper := mapper u; index := idx |}.

Definition set_userStates (m : gmap string userState) (i : Ingester) : Ingester :=
  {| cfg := cfg i; chunkStore := chunkStore i; stopped := stopped i;
     userStates := m;
     ingestedSamples := ingestedSamples i; discardedSamples := discardedSamples i;
     chunkUtilization := chunkUtilization i;
     chunkStoreFailures := chunkStoreFailures i;
     queries := queries i; queriedSamples := queriedSamples i;
     memoryChunks := memoryChunks i |}.

Definition set_stopped (b : bool) (i : Ingester) : Ingester :=
  {| cfg := cfg i; chunkStore := chunkStore i; stopped := b;
     userStates := userStates i;
     ingestedSamples := ingestedSamples i; discardedSamples := discardedSamples i;
     chunkUtilization := chunkUtilization i;
     chunkStoreFailures := chunkStoreFailures i;
     queries := queries i; queriedSamples := queriedSamples i;
     memoryChunks := memoryChunks i |}.

Definition set_chunkStore (st : option Store) (i : Ingester) : Ingester :=
  {| cfg := cfg i; chunkStore := st; stopped := stopped i;
     userStates := userStates i;
     ingestedSamples := ingestedSamples i; discardedSamples := discardedSamples i;
     chunkUtilization := chunkUtilization i;
     chunkStoreFailures := chunkStoreFailures i;
     queries := queries i; queriedSamples := queriedSamples i;
     memoryChunks := memoryChunks i |}.

(** [i.ingestedSamples.Inc()] *)
Definition ingestedSamples_Inc (i : Ingester) : Ingester :=
  {| cfg := cfg i; chunkStore := chunkStore i; stopped := stopped i;
     userStates := userStates i;
     ingestedSamples := ingestedSamples i + 1; discardedSamples := discardedSamples i;
     chunkUtilization := chunkUtilization i;
     chunkStoreFailures := chunkStoreFailures i;
     queries := queries i; queriedSamples := queriedSamples i;
     memoryChunks := memoryChunks i |}.

(** The value of one child of the counter vector. *)
Definition discarded (i : Ingester) (reason : string) : Z :=
  default 0%Z (discardedSamples i !! reason).

(** [i.discardedSamples.WithLabelValues(reason).Inc()] *)
Definition discardedSamples_Inc (reason : string) (i : Ingester) : Ingester :=
  {| cfg := cfg i; chunkStore := chunkStore i; stopped := stopped i;
     userStates := userStates i;
     ingestedSamples := ingestedSamples i;
     discardedSamples := <[reason := (discarded i reason + 1)%Z]> (discardedSamples i);
     chunkUtilization := chunkUtilization i;
     chunkStoreFailures := chunkStoreFailures i;
     queries := queries i; queriedSamples := queriedSamples i;
     memoryChunks := memoryChunks i |}.

(** [i.queries.Inc()] and [i.queriedSamples.Add(n)] *)
Definition queries_Inc (i : Ingester) : Ingester :=
  {| cfg := cfg i; chunkStore := chunkStore i; stopped := stopped i;
     userStates := userStates i;
     ingestedSamples := ingestedSamples i; discardedSamples := discardedSamples i;
     chunkUtilization := chunkUtilization i;
     chunkStoreFailures := chunkStoreFailures i;
     queries := queries i + 1; queriedSamples := queriedSamples i;
     memoryChunks := memoryChunks i |}.

Definition queriedSamples_Add (n : Z) (i : Ingester) : Ingester :=
  {| cfg := cfg i; chunkStore := chunkStore i; stopped := stopped i;
     userStates := userStates i;
     ingestedSamples := ingestedSamples i; discardedSamples := discardedSamples i;
     chunkUtilization := chunkUtilization i;
     chunkStoreFailures := chunkStoreFailures i;
     queries := queries i; queriedSamples := queriedSamples i + n;
     memoryChunks := memoryChunks i |}.

(** [i.chunkUtilization.Observe(x)] *)
Definition chunkUtilization_Observe (x : Utilization) (i : Ingester) : Ingester :=
  {| cfg := cfg i; chunkStore := chunkStore i; stopped := stopped i;
     userStates := userStates i;
     ingestedSamples := ingestedSamples i; discardedSamples := discardedSamples i;
     chunkUtilization := chunkUtilization i ++ [x];
     chunkStoreFailures := chunkStoreFailures i;
     queries := queries i; queriedSamples := queriedSamples i;
     memoryChunks := memoryChunks i |}.

(** [i.chunkStoreFailures.Add(n)] *)
Definition chunkStoreFailures_Add (n : Z) (i : Ingester) : Ingester :=
  {| cfg := cfg i; chunkStore := chunkStore i; stopped := stopped i;
     userStates := userStates i;
     ingestedSamples := ingestedSamples i; discardedSamples := discardedSamples i;
     chunkUtilization := chunkUtilization i;
     chunkStoreFailures := chunkStoreFailures i + n;
     queries := queries i; queriedSamples := queriedSamples i;
     memoryChunks := memoryChunks i |}.

(** [i.memoryChunks.Add(n)]; [Sub(n)] is [Add(-n)]. *)
Definition memoryChunks_Add (n : Z) (i : Ingester) : Ingester :=
  {| cfg := cfg i; chunkStore := chunkStore i; stopped := stopped i;
     userStates := userStates i;
     ingestedSamples := ingestedSamples i; discardedSamples := discardedSamples i;
     chunkUtilization := chunkUtilization i;
     chunkStoreFailures := chunkStoreFailures i;
     queries := queries i; queriedSamples := queriedSamples i;
     memoryChunks := memoryChunks i + n |}.

(** A pointer to a [userState] points into the tenant map, which holds each
    state under its own [userID] ([getStateFor] stores it so): what is
    written through the pointer is seen under that id. *)
Definition store_state (u : userState) (i : Ingester) : Ingester :=
  set_userStates (<[userID u := u]> (userStates i)) i.

(** *** Append *)

Definition getStateFor (i : Ingester) (ctx : option string)
  : Ingester * (error + userState) :=
  match ctx with
  | None => (i, inl ErrNoUserID)
  | Some userID =>
      match userStates i !! userID with
      | Some state => (i, inr state)
      | None =>
          match newFPMapper with
          | inl msg => (i, inl (ErrExternal msg))
          | inr mapper =>
              let state := {| userID := userID; fpToSeries := ∅;
                              mapper := mapper; index := newInvertedIndex |} in
              (store_state state i, inr state)
          end
      end
  end.

(** Modelled from the spec: [newMemorySeries] is defined outside this file.
    Called with nil chunk descriptors it yields a series with no chunks yet,
    whose last time is [model.Earliest] and whose last value is not set. *)
Definition newMemorySeries (m : Metric) : memorySeries :=
  {| metric := m; chunkDescs := []; lastTime := Earliest;
     lastSampleValue := SampleValue_zero; lastSampleValueSet := false;
     headChunkClosed := false; headChunkUsedByIterator := false |}.

Definition getOrCreateSeries (u : userState) (m : Metric)
  : Fingerprint * memorySeries * userState :=
  let rawFP := FastFingerprint m in
  let '(mp, fp) := mapFP (mapper u) (fpToSeries u) rawFP m in
  let u := set_mapper mp u in
  match fpToSeries u !! fp with
  | Some series => (fp, series, u)
  | None =>
      let series := newMemorySeries m in
      let u := set_fpToSeries (<[fp := series]> (fpToSeries u)) u in
      let u := set_index (invertedIndex_add (index u) m fp) u in
      (fp, series, u)
  end.

(** The first loop of [append]: labels with an empty value are deleted. *)
Definition strip_empty (m : Metric) : Metric :=
  filter (λ entry, String.length entry.2 ≠ 0%nat) m.

Definition Ingester_append (i : Ingester) (ctx : option string) (sample : Sample)
  : Ingester * option error :=
  let m := strip_empty (sample_Metric sample) in
  if stopped i then (i, Some ErrIngesterStopping) else
  match getStateFor i ctx with
  | (i, inl err) => (i, Some err)
  | (i, inr state) =>
      let '(fp, series, state) := getOrCreateSeries state m in
      let i := store_state state i in
      if (sample_Timestamp sample =? lastTime series)%Z then
        if (sample_Timestamp sample =? lastTime series)%Z
           && lastSampleValueSet series
           && SampleValue_Equal (sample_Value sample) (lastSampleValue series)
        then (i, None)
        else (discardedSamples_Inc duplicateSample i,
              Some ErrDuplicateSampleForTimestamp)
      else if (sample_Timestamp sample <? lastTime series)%Z then
        (discardedSamples_Inc outOfOrderTimestamp i, Some ErrOutOfOrderSample)
      else
        let prevNumChunks := length (chunkDescs series) in
        let '(series, err) :=
          series_add series {| pair_Value := sample_Value sample;
                               pair_Timestamp := sample_Timestamp sample |} in
        let state := set_fpToSeries (<[fp := series]> (fpToSeries state)) state in
        let i := store_state state i in
        let i := memoryChunks_Add
                   (Z.of_nat (length (chunkDescs series)) - Z.of_nat prevNumChunks) i in
        match err with
        | None => (ingestedSamples_Inc i, None)
        | Some msg => (i, Some (ErrExternal msg))
        end
  end.

Fixpoint Ingester_Append (i : Ingester) (ctx : option string) (samples : list Sample)
  : Ingester * option error :=
  match samples with
  | [] => (i, None)
  | sample :: samples =>
      match Ingester_append i ctx sample with
      | (i, Some err) => (i, Some err)
      | (i, None) => Ingester_Append i ctx samples
      end
  end.

(** *** Range extraction *)

(** [l[i]] for a Go [int] index. *)
Definition index_at {A} (l : list A) (i : Z) : result A :=
  match (if (0 <=? i)%Z then l !! Z.to_nat i else None) with
  | Some x => Ok x
  | None => Panics (IndexOutOfRange i (Z.of_nat (length l)))
  end.

(** [s.chunkDescs[i].firstTime().After(t)], for [i] within the slice. *)
Definition firstTime_After (s : memorySeries) (t : Time) (i : nat) : bool :=
  match chunkDescs s !! i with
  | Some cd => (t <? chunkDesc_firstTime cd)%Z
  | None => false
  end.

(** The final loop of [samplesForRange]: [count] chunks from [idx] on. *)
Fixpoint range_loop (s : memorySeries) (from through : Time)
    (count : nat) (idx : Z) (values : list SamplePair)
  : result (error + list SamplePair) :=
  match count with
  | O => Ok (inr values)
  | S count =>
      cd ← index_at (chunkDescs s) idx;
      match rangeValues (c cd) from through with
      | inl msg => Ok (inl (ErrExternal msg))
      | inr chValues =>
          range_loop s from through count (idx + 1)%Z (values ++ chValues)
      end
  end.

Definition samplesForRange (s : memorySeries) (from through : Time)
  : result (error + list SamplePair) :=
  let len := Z.of_nat (length (chunkDescs s)) in
  let fromIdx :=
    Z.of_nat (sort_Search (length (chunkDescs s)) (firstTime_After s from)) in
  let throughIdx :=
    Z.of_nat (sort_Search (length (chunkDescs s)) (firstTime_After s through)) in
  early ←
    (if (fromIdx =? len)%Z then
       cd ← index_at (chunkDescs s) (len - 1)%Z;
       match chunkDesc_lastTime cd with
       | inl msg => Ok (Some (inl (ErrExternal msg)))
       | inr lt => if (lt <? from)%Z then Ok (Some (inr [])) else Ok None
       end
     else Ok None);
  match early with
  | Some r => Ok r
  | None =>
      let fromIdx := if (0 <? fromIdx)%Z then (fromIdx - 1)%Z else fromIdx in
      let throughIdx :=
        if (throughIdx =? len)%Z then (throughIdx - 1)%Z else throughIdx in
      range_loop s from through (Z.to_nat (throughIdx - fromIdx + 1)) fromIdx []
  end.

(** The loop of [Query] over the fingerprints that [lookup] returned. *)
Fixpoint query_loop (state : userState) (from through : Time)
    (fps : list Fingerprint) (matrix : list SampleStream) (queriedSamples : nat)
  : result (error + list SampleStream * nat) :=
  match fps with
  | [] => Ok (inr (matrix, queriedSamples))
  | fp :: fps =>
      match fpToSeries state !! fp with
      | None => query_loop state from through fps matrix queriedSamples
      | Some series =>
          r ← samplesForRange series from through;
          match r with
          | inl err => Ok (inl err)
          | inr values =>
              query_loop state from through fps
                (matrix ++ [ {| stream_Metric := metric series;
                                stream_Values := values |} ])
                (queriedSamples + length values)
          end
      end
  end.

Definition Ingester_Query (i : Ingester) (ctx : option string) (from through : Time)
    (matchers : list LabelMatcher) : result (Ingester * (error + list SampleStream)) :=
  let i := queries_Inc i in
  match getStateFor i ctx with
  | (i, inl err) => Ok (i, inl err)
  | (i, inr state) =>
      let fps := elems (invertedIndex_lookup (index state) matchers) in
      r ← query_loop state from through fps [] 0;
      match r with
      | inl err => Ok (i, inl err)
      | inr (matrix, queriedSamples) =>
          Ok (queriedSamples_Add (Z.of_nat queriedSamples) i, inr matrix)
      end
  end.

(** *** Flush *)

(** [fmt.Sprintf("%d:%d:%d", fp, chunkFirstTime, chunkLastTime)] *)
Definition chunk_id (fp : Fingerprint) (cd : chunkDesc) : string :=
  pretty fp +:+ ":" +:+ pretty (chunkFirstTime cd) +:+ ":" +:+ pretty (chunkLastTime cd).

(** The loop of [flushChunks]: a chunk that fails to marshal ends it. *)
Fixpoint marshal_chunks (i : Ingester) (fp : Fingerprint) (m : Metric)
    (chunks : list chunkDesc) (wireChunks : list Chunk)
  : Ingester * (error + list Chunk) :=
  match chunks with
  | [] => (i, inr wireChunks)
  | cd :: chunks =>
      match marshalToBuf (c cd) with
      | inl msg => (i, inl (ErrExternal msg))
      | inr buf =>
          let i := chunkUtilization_Observe (utilization (c cd)) i in
          marshal_chunks i fp m chunks
            (wireChunks ++ [ {| Chunk_ID := chunk_id fp cd;
                                Chunk_From := chunkFirstTime cd;
                                Chunk_Through := chunkLastTime cd;
                                Chunk_Metric := m;
                                Chunk_Data := buf |} ])
      end
  end.

Definition flushChunks (i : Ingester) (ctx : option string) (fp : Fingerprint)
    (m : Metric) (chunks : list chunkDesc) : result (Ingester * option error) :=
  match marshal_chunks i fp m chunks [] with
  | (i, inl err) => Ok (i, Some err)
  | (i, inr wireChunks) =>
      match chunkStore i with
      | None => Panics NilDereference
      | Some store =>
          let '(store, err) := Put store ctx wireChunks in
          Ok (set_chunkStore (Some store) i, ErrExternal <$> err)
      end
  end.

(** The first locked region of [flushSeries]: close the head chunk when the
    flush is immediate or the series is old enough, then pick the chunks to
    flush.  [series.head()] is [chunkDescs[len(chunkDescs)-1]]. *)
Definition chunks_to_flush (config : IngesterConfig) (series : memorySeries)
    (immediate : bool) (now : Time) : result (memorySeries * list chunkDesc) :=
  let len := Z.of_nat (length (chunkDescs series)) in
  series ←
    (if immediate || (MaxChunkAge config <? now - series_firstTime series)%Z then
       let series := close_head_flags series in
       head ← index_at (chunkDescs series) (len - 1)%Z;
       Ok (set_chunkDescs
             (<[Z.to_nat (len - 1) := maybePopulateLastTime head]> (chunkDescs series))
             series)
     else Ok series);
  chunks ←
    (if headChunkClosed series then Ok (chunkDescs series)
     else if (0 <=? len - 1)%Z then Ok (take (Z.to_nat (len - 1)) (chunkDescs series))
     else Panics (SliceBoundsOutOfRange 0 (len - 1)));
  Ok (series, chunks).

(** [series] is the object the series map holds under [fp]: what
    [flushSeries] writes to it is written to the map entry. *)
Definition flushSeries (i : Ingester) (ctx : option string) (u : userState)
    (fp : Fingerprint) (series : memorySeries) (immediate : bool) (now : Time)
  : result (Ingester * userState * option error) :=
  '(series, chunks) ← chunks_to_flush (cfg i) series immediate now;
  let u := set_fpToSeries (<[fp := series]> (fpToSeries u)) u in
  if (length chunks =? 0)%nat then Ok (i, u, None) else
  '(i, err) ← flushChunks i ctx fp (metric series) chunks;
  match err with
  | Some err =>
      Ok (chunkStoreFailures_Add (Z.of_nat (length chunks)) i, u, Some err)
  | None =>
      (* now remove the chunks *)
      let series :=
        set_chunkDescs (drop (length chunks - 1) (chunkDescs series)) series in
      let u := set_fpToSeries (<[fp := series]> (fpToSeries u)) u in
      let i := memoryChunks_Add (- Z.of_nat (length chunks)) i in
      if (length (chunkDescs series) =? 0)%nat then
        let u := set_fpToSeries (delete fp (fpToSeries u)) u in
        idx ← invertedIndex_delete (index u) (metric series) fp;
        Ok (i, set_index idx u, None)
      else Ok (i, u, None)
  end.

(** The workers of [flushAllSeries], one after the other, each on the pair
    it was started for; an error is logged and dropped.  The worker of the
    source reads the loop variable [pair] when it runs, not when it is
    started: this is the run in which each worker reads it before the loop
    moves on, and the only one there is when the map holds one series. *)
Fixpoint flush_pairs (i : Ingester) (ctx : option string) (u : userState)
    (pairs : list (Fingerprint * memorySeries)) (immediate : bool) (now : Time)
  : result (Ingester * userState) :=
  match pairs with
  | [] => Ok (i, u)
  | (fp, series) :: pairs =>
      '(i, u, _) ← flushSeries i ctx u fp series immediate now;
      flush_pairs i ctx u pairs immediate now
  end.

Definition flushAllSeries (i : Ingester) (ctx : option string) (u : userState)
    (immediate : bool) (now : Time) : result (Ingester * userState) :=
  flush_pairs i ctx u (map_to_list (fpToSeries u)) immediate now.

Definition flushUser (i : Ingester) (userID : string) (immediate : bool) (now : Time)
  : result Ingester :=
  match userStates i !! userID with
  | None => Ok i
  | Some u =>
      let ctx := Some userID in
      '(i, u) ← flushAllSeries i ctx u immediate now;
      let i := set_userStates (<[userID := u]> (userStates i)) i in
      if (size (fpToSeries u) =? 0)%nat
      then Ok (set_userStates (delete userID (userStates i)) i)
      else Ok i
  end.

(** The workers of [flushAllUsers], one after the other, each on the user id
    it was started for.  As in [flushAllSeries] the worker of the source
    reads the loop variable [userID] when it runs: this is the run in which
    each worker reads it before the loop moves on, and the only one there is
    when the ingester holds one tenant. *)
Fixpoint flush_users (i : Ingester) (userIDs : list string) (immediate : bool)
    (now : Time) : result Ingester :=
  match userIDs with
  | [] => Ok i
  | userID :: userIDs =>
      i ← flushUser i userID immediate now;
      flush_users i userIDs immediate now
  end.

Definition flushAllUsers (i : Ingester) (immediate : bool) (now : Time)
  : result Ingester :=
  match chunkStore i with
  | None => Ok i
  | Some _ => flush_users i (map_to_list (userStates i)).*1 immediate now
  end.

(** [Stop] sets the flag and waits for the loop, which leaves through a
    last [flushAllUsers(true)]. *)
Definition Ingester_Stop (i : Ingester) (now : Time) : result Ingester :=
  flushAllUsers (set_stopped true i) true now.

End Ingester.

(** ** Specification vocabulary *)

Definition sorted (l : list Fingerprint) : Prop := StronglySorted N.le l.
Definition strictly_sorted (l : list Fingerprint) : Prop := StronglySorted N.lt l.

(** Every fingerprint list stored in the index satisfies [P]. *)
Definition index_lists (P : list Fingerprint → Prop) (idx : invertedIndex) : Prop :=
  map_Forall (λ _ values, map_Forall (λ _ l, P l) values) idx.

Definition index_sorted : invertedIndex → Prop := index_lists sorted.
Definition index_strictly_sorted : invertedIndex → Prop := index_lists strictly_sorted.

(** The list the index holds for a label pair; none counts as empty, as
    [values[value]] does in Go. *)
Definition stored (idx : invertedIndex) (name value : string) : list Fingerprint :=
  default [] (default ∅ (idx !! name) !! value).

(** No empty list and no empty value map is kept in the index. *)
Definition index_pruned (idx : invertedIndex) : Prop :=
  map_Forall (λ _ values, values ≠ ∅ ∧ map_Forall (λ _ l, l ≠ []) values) idx.

(** A sequence of calls on one index. *)
Inductive index_call : Type :=
| call_add (m : Metric) (fp : Fingerprint)
| call_delete (m : Metric) (fp : Fingerprint).

Fixpoint run_calls (idx : invertedIndex) (calls : list index_call)
  : result invertedIndex :=
  match calls with
  | [] => Ok idx
  | call_add m fp :: calls => run_calls (invertedIndex_add idx m fp) calls
  | call_delete m fp :: calls =>
      idx ← invertedIndex_delete idx m fp;
      run_calls idx calls
  end.

(** [fp] is in none of the lists that [add(m, fp)] touches. *)
Definition fresh_for (idx : invertedIndex) (m : Metric) (fp : Fingerprint) : Prop :=
  ∀ name value, m !! name = Some value → fp ∉ stored idx name value.

(** Every [add] of the sequence is issued for a fingerprint that is fresh
    at that point. *)
Fixpoint adds_fresh (idx : invertedIndex) (calls : list index_call) : Prop :=
  match calls with
  | [] => True
  | call_add m fp :: calls =>
      fresh_for idx m fp ∧ adds_fresh (invertedIndex_add idx m fp) calls
  | call_delete m fp :: calls =>
      match invertedIndex_delete idx m fp with
      | Ok idx => adds_fresh idx calls
      | Panics _ => True
      end
  end.

(** [fp] is listed under a value of the matcher's name that the matcher
    accepts. *)
Definition matched (idx : invertedIndex) (matcher : LabelMatcher) (fp : Fingerprint)
  : Prop :=
  ∃ values value fps,
    idx !! Name matcher = Some values ∧ values !! value = Some fps ∧
    Match matcher value = true ∧ fp ∈ fps.

(** A label set matches a matcher when it carries the matcher's name with a
    value the matcher accepts. *)
Definition metric_matches (matcher : LabelMatcher) (m : Metric) : Prop :=
  ∃ value, m !! Name matcher = Some value ∧ Match matcher value = true.

(** The index lists exactly the label pairs of the series in [series]. *)
Definition index_represents (idx : invertedIndex) (series : gmap N Metric) : Prop :=
  ∀ name value fp,
    (∃ values fps, idx !! name = Some values ∧ values !! value = Some fps ∧ fp ∈ fps)
    ↔ (∃ m, series !! fp = Some m ∧ m !! name = Some value).

(** The sort invariant and the union property as the specification words
    them, to be compared with what the code does. *)
Definition index_sort_invariant_as_specified : Prop :=
  ∀ calls idx, run_calls newInvertedIndex calls = Ok idx → index_strictly_sorted idx.

Definition merge_union_as_specified : Prop :=
  ∀ a b, strictly_sorted a → strictly_sorted b →
    ∃ l, merge (Some a) (Some b) = Some l ∧ strictly_sorted l ∧
         ∀ x, x ∈ l ↔ x ∈ a ∨ x ∈ b.

(** ** A small instance

    Concrete collaborators on which the definitions can be run: integer
    sample values, chunks that are plain lists of samples and never
    overflow, a mapper that maps every fingerprint to itself, and a chunk
    store that records the batches it is given or refuses them with
    [put_error]. *)

#[local] Instance test_values : Values := {|
  SampleValue := Z;
  SampleValue_Equal := Z.eqb;
  SampleValue_zero := 0%Z;
  chunk := list (Z * Z);
  Utilization := nat;
|}.

Definition test_series_add (s : memorySeries) (p : SamplePair)
  : memorySeries * option string :=
  let entry := (pair_Timestamp p, pair_Value p) in
  let cds :=
    match chunkDescs s, headChunkClosed s with
    | cds, false =>
        match last cds with
        | Some head =>
            <[pred (length cds) := {| c := c head ++ [entry];
                                      chunkFirstTime := chunkFirstTime head;
                                      chunkLastTime := chunkLastTime head |}]> cds
        | None => [ {| c := [entry]; chunkFirstTime := pair_Timestamp p;
                       chunkLastTime := Earliest |} ]
        end
    | cds, true =>
        cds ++ [ {| c := [entry]; chunkFirstTime := pair_Timestamp p;
                    chunkLastTime := Earliest |} ]
    end in
  ({| metric := metric s; chunkDescs := cds; lastTime := pair_Timestamp p;
      lastSampleValue := pair_Value p; lastSampleValueSet := true;
      headChunkClosed := false;
      headChunkUsedByIterator := headChunkUsedByIterator s |}, None).

(** The last time of a chunk whose [chunkLastTime] is not populated yet is
    read from the chunk. *)
Definition test_lastTime (cd : chunkDesc) : Time :=
  if (chunkLastTime cd =? Earliest)%Z
  then default Earliest (fst <$> last (c cd))
  else chunkLastTime cd.

Definition test_maybePopulateLastTime (cd : chunkDesc) : chunkDesc :=
  {| c := c cd; chunkFirstTime := chunkFirstTime cd;
     chunkLastTime := test_lastTime cd |}.

Definition test_package (put_error : option string) : Package := {|
  FastFingerprint m := N.of_nat (size m);
  fpMapper := unit;
  newFPMapper := inr tt;
  mapFP mp _ fp _ := (mp, fp);
  series_add := test_series_add;
  series_firstTime s := default Earliest (chunkFirstTime <$> head (chunkDescs s));
  chunkDesc_firstTime := chunkFirstTime;
  chunkDesc_lastTime cd := inr (test_lastTime cd);
  maybePopulateLastTime := test_maybePopulateLastTime;
  rangeValues ch from through :=
    inr ((λ e, {| pair_Timestamp := e.1; pair_Value := e.2 |}) <$>
         filter (λ e, (from ≤ e.1 ≤ through)%Z) ch);
  marshalToBuf _ := inr [];
  utilization ch := length ch;
  Store := list (list Chunk);
  Put store _ chunks :=
    match put_error with
    | Some msg => (store, Some msg)
    | None => (store ++ [chunks], None)
    end;
|}.

Definition test_metric : Metric := {[ "job" := "x" ]}.

Definition test_sample (ts v : Z) : Sample :=
  {| sample_Metric := test_metric; sample_Value := v; sample_Timestamp := ts |}.

(** A fresh ingester with a chunk store attached. *)
Definition test_ingester (put_error : option string)
  : @Ingester _ (test_package put_error) :=
  {| cfg := {| FlushCheckPeriod := 60000; MaxChunkAge := 600000 |};
     chunkStore := Some (@nil (list Chunk) : @Store _ (test_package put_error));
     stopped := false;
     userStates := ∅;
     ingestedSamples := 0; discardedSamples := ∅; chunkUtilization := [];
     chunkStoreFailures := 0; queries := 0; queriedSamples := 0;
     memoryChunks := 0 |}.

(** The series, the tenant state and the ingester after tenant [A] has
    appended the sample [(100, 1)] of [test_metric]. *)
Definition test_chunkDesc : chunkDesc :=
  {| c := [(100, 1)%Z]; chunkFirstTime := 100; chunkLastTime := Earliest |}.

Definition test_series : memorySeries :=
  {| metric := test_metric; chunkDescs := [test_chunkDesc]; lastTime := 100;
     lastSampleValue := 1%Z; lastSampleValueSet := true;
     headChunkClosed := false; headChunkUsedByIterator := false |}.

Definition test_state (put_error : option string)
  : @userState _ (test_package put_error) :=
  {| userID := "A"; fpToSeries := {[ 1%N := test_series ]};
     mapper := (tt : @fpMapper _ (test_package put_error));
     index := {[ "job" := {[ "x" := [1%N] ]} ]} |}.

Definition test_appended (put_error : option string)
  : @Ingester _ (test_package put_error) :=
  {| cfg := {| FlushCheckPeriod := 60000; MaxChunkAge := 600000 |};
     chunkStore := Some (@nil (list Chunk) : @Store _ (test_package put_error));
     stopped := false;
     userStates := {[ "A" := test_state put_error ]};
     ingestedSamples := 1; discardedSamples := ∅; chunkUtilization := [];
     chunkStoreFailures := 0; queries := 0; queriedSamples := 0;
     memoryChunks := 1 |}.

(** A run of index calls and the index it ends in. *)
Definition test_calls : list index_call :=
  [call_add test_metric 7%N; call_add test_metric 3%N;
   call_delete test_metric 7%N; call_add test_metric 5%N].

Definition test_calls_index : invertedIndex := {[ "job" := {[ "x" := [3; 5]%N ]} ]}.

(** Three series and the index that [add] builds for them. *)
Definition test_s1 : Metric := {[ "job" := "a"; "inst" := "1" ]}.
Definition test_s2 : Metric := {[ "job" := "a"; "inst" := "2" ]}.
Definition test_s3 : Metric := {[ "job" := "b"; "inst" := "1" ]}.

Definition test_series_map : gmap N Metric :=
  <[3%N := test_s3]> (<[2%N := test_s2]> (<[1%N := test_s1]> ∅)).

Definition test_index : invertedIndex :=
  invertedIndex_add
    (invertedIndex_add (invertedIndex_add newInvertedIndex test_s1 1) test_s2 2)
    test_s3 3.

(** The equality matcher [name="value"]. *)
Definition equal_matcher (name value : string) : LabelMatcher :=
  {| Name := name; Match := String.eqb value |}.

Definition test_matchers : list LabelMatcher :=
  [equal_matcher "job" "a"; equal_matcher "inst" "1"].

(** A tenant state with no series yet. *)
Definition test_empty_state : @userState _ (test_package None) :=
  {| userID := "A"; fpToSeries := ∅;
     mapper := (tt : @fpMapper _ (test_package None));
     index := newInvertedIndex |}.

(** The same tenant once [getOrCreateSeries] has registered a series for
    [test_metric], before any sample is added to it. *)
Definition test_created_state : @userState _ (test_package None) :=
  {| userID := "A"; fpToSeries := {[ 1%N := newMemorySeries test_metric ]};
     mapper := (tt : @fpMapper _ (test_package None));
     index := {[ "job" := {[ "x" := [1%N] ]} ]} |}.

(** The ingester [test_appended] after [Stop], as the code leaves it: the
    chunk of the series went to the store, and is still in the series. *)
Definition test_flushed_chunkDesc : chunkDesc :=
  {| c := [(100, 1)%Z]; chunkFirstTime := 100; chunkLastTime := 100 |}.

Definition test_flushed_series : memorySeries :=
  {| metric := test_metric; chunkDescs := [test_flushed_chunkDesc]; lastTime := 100;
     lastSampleValue := 1%Z; lastSampleValueSet := true;
     headChunkClosed := true; headChunkUsedByIterator := false |}.

Definition test_wire_chunk : Chunk :=
  {| Chunk_ID := "1:100:100"; Chunk_From := 100; Chunk_Through := 100;
     Chunk_Metric := test_metric; Chunk_Data := [] |}.

Definition test_stopped : @Ingester _ (test_package None) :=
  {| cfg := {| FlushCheckPeriod := 60000; MaxChunkAge := 600000 |};
     chunkStore := Some ([[test_wire_chunk]] : @Store _ (test_package None));
     stopped := true;
     userStates :=
       {[ "A" := {| userID := "A"; fpToSeries := {[ 1%N := test_flushed_series ]};
                    mapper := (tt : @fpMapper _ (test_package None));
                    index := {[ "job" := {[ "x" := [1%N] ]} ]} |} ]};
     ingestedSamples := 1; discardedSamples := ∅; chunkUtilization := [1%nat];
     chunkStoreFailures := 0; queries := 0; queriedSamples := 0;
     memoryChunks := 0 |}.

(** The ingester [test_appended] with a store that refuses every batch,
    after the chunk of the series has been marshalled for a flush. *)
Definition test_refused : string := "store unavailable".

Definition test_marshalled : @Ingester _ (test_package (Some test_refused)) :=
  {| cfg := {| FlushCheckPeriod := 60000; MaxChunkAge := 600000 |};
     chunkStore := Some (@nil (list Chunk) : @Store _ (test_package (Some test_refused)));
     stopped := false;
     userStates := {[ "A" := test_state (Some test_refused) ]};
     ingestedSamples := 1; discardedSamples := ∅; chunkUtilization := [1%nat];
     chunkStoreFailures := 0; queries := 0; queriedSamples := 0;
     memoryChunks := 1 |}.

(** ** Further operations of the index and of the ingester *)

(** [invertedIndex.lookupLabelValues]: nil for a name the index does not
    have, else the values in the order the range produced them. *)
Definition invertedIndex_lookupLabelValues (idx : invertedIndex) (name : LabelName)
  : option (list LabelValue) :=
  match idx !! name with
  | None => None
  | Some values => Some (map_to_list values).*1
  end.

(** The fingerprints that the inner loop of [lookup] merges, in the order
    of the range. *)
Fixpoint matching_fps (matcher : LabelMatcher)
    (values : list (LabelValue * list Fingerprint)) : list Fingerprint :=
  match values with
  | [] => []
  | (value, fps) :: values =>
      (if Match matcher value then fps else []) ++ matching_fps matcher values
  end.

Section IngesterMore.
Context `{Package}.

(** [LabelValuesForLabelName] *)
Definition Ingester_LabelValuesForLabelName (i : Ingester) (ctx : option string)
    (name : LabelName) : Ingester * (error + option (list LabelValue)) :=
  match getStateFor i ctx with
  | (i, inl err) => (i, inl err)
  | (i, inr state) => (i, inr (invertedIndex_lookupLabelValues (index state) name))
  end.

(** The samples are appended one after the other by [append], each is
    accepted, and the last call leaves the ingester [i']. *)
Fixpoint appends_accepted (ctx : option string) (i : Ingester)
    (samples : list Sample) (i' : Ingester) : Prop :=
  match samples with
  | [] => i' = i
  | sample :: samples =>
      ∃ i1, Ingester_append i ctx sample = (i1, None) ∧
            appends_accepted ctx i1 samples i'
  end.

(** [NeedsThrottling] *)
Definition Ingester_NeedsThrottling (i : Ingester) (ctx : option string) : bool := false.

(** The label sets of the series of a tenant, by fingerprint. *)
Definition series_metrics (u : userState) : gmap N Metric := metric <$> fpToSeries u.

(** The index of a tenant is in step with its series map: it lists exactly
    the label pairs of the registered series, in strictly sorted lists, and
    holds no empty list or map. *)
Definition state_consistent (u : userState) : Prop :=
  index_strictly_sorted (index u) ∧ index_pruned (index u) ∧
  index_represents (index u) (series_metrics u).

(** Every tenant is held under its own id. *)
Definition tenants_keyed (i : Ingester) : Prop :=
  map_Forall (λ id u, userID u = id) (userStates i).

(** Every tenant is held under its own id, with its index in step with its
    series map. *)
Definition ingester_consistent (i : Ingester) : Prop :=
  map_Forall (λ id u, userID u = id ∧ state_consistent u) (userStates i).

(** [series.add] leaves the label set of the series alone. *)
Definition add_keeps_metric : Prop :=
  ∀ s p, metric (series_add s p).1 = metric s.

(** The wire chunk that [flushChunks] builds for a chunk and its marshalled
    bytes. *)
Definition wire_chunk (fp : Fingerprint) (m : Metric) (cd : chunkDesc)
    (buf : list Byte.byte) : Chunk :=
  {| Chunk_ID := chunk_id fp cd;
     Chunk_From := chunkFirstTime cd;
     Chunk_Through := chunkLastTime cd;
     Chunk_Metric := m;
     Chunk_Data := buf |}.

(** The histogram after the utilization of each chunk was observed. *)
Definition observe_chunks (chunks : list chunkDesc) (i : Ingester) : Ingester :=
  foldl (λ i cd, chunkUtilization_Observe (utilization (c cd)) i) i chunks.

(** What a flush leaves alone in the ingester: the configuration, the
    stopped flag and the counters of appends and queries. *)
Definition flush_frame (i i' : Ingester) : Prop :=
  cfg i' = cfg i ∧ stopped i' = stopped i ∧
  ingestedSamples i' = ingestedSamples i ∧ discardedSamples i' = discardedSamples i ∧
  queries i' = queries i ∧ queriedSamples i' = queriedSamples i.

(** The number of samples in a matrix. *)
Definition matrix_samples (matrix : list SampleStream) : nat :=
  sum_list (length ∘ stream_Values <$> matrix).

End IngesterMore.

(** ** Further instances *)

(** The collaborators of [test_package None], with a codec that refuses to
    marshal a chunk without samples. *)
Definition test_package_strict : Package := {|
  FastFingerprint := @FastFingerprint _ (test_package None);
  fpMapper := unit;
  newFPMapper := inr tt;
  mapFP mp _ fp _ := (mp, fp);
  series_add := test_series_add;
  series_firstTime := @series_firstTime _ (test_package None);
  chunkDesc_firstTime := chunkFirstTime;
  chunkDesc_lastTime cd := inr (test_lastTime cd);
  maybePopulateLastTime := test_maybePopulateLastTime;
  rangeValues := @rangeValues _ (test_package None);
  marshalToBuf ch := match ch with [] => inl "empty chunk" | _ => inr [] end;
  utilization ch := length ch;
  Store := list (list Chunk);
  Put store _ chunks := (store ++ [chunks], None);
|}.

Definition test_empty_chunkDesc : chunkDesc :=
  {| c := []; chunkFirstTime := 200; chunkLastTime := 200 |}.

Definition test_strict_ingester : @Ingester _ test_package_strict :=
  {| cfg := {| FlushCheckPeriod := 60000; MaxChunkAge := 600000 |};
     chunkStore := Some (@nil (list Chunk) : @Store _ test_package_strict);
     stopped := false;
     userStates := ∅;
     ingestedSamples := 0; discardedSamples := ∅; chunkUtilization := [];
     chunkStoreFailures := 0; queries := 0; queriedSamples := 0;
     memoryChunks := 0 |}.

(** The ingester after tenant [A] had the first sample of a new series,
    stamped [model.Earliest], rejected. *)
Definition test_rejected_first : @Ingester _ (test_package None) :=
  (Ingester_append (test_ingester None) (Some "A") (test_sample Earliest 1)).1.

(** The sample [(100, 1)] of [test_metric] with a label of empty value
    besides. *)
Definition test_sample_empty_label : Sample :=
  {| sample_Metric := <[ "env" := "" ]> test_metric;
     sample_Value := 1%Z; sample_Timestamp := 100%Z |}.

(** * Properties *)

(** ** Sorted fingerprint lists *)

Lemma strictly_sorted_sorted l : strictly_sorted l → sorted l.
Proof.
  induction 1 as [|x l Hl IH Hx]; constructor; [done|].
  eapply Forall_impl; [exact Hx|]. intros y ?; simpl in *; lia.
Qed.

Lemma strictly_sorted_NoDup l : strictly_sorted l → NoDup l.
Proof.
  induction 1 as [|x l Hl IH Hx]; constructor; [|done].
  intros Hin. rewrite Forall_forall in Hx. specialize (Hx _ Hin). lia.
Qed.

Lemma sorted_lookup_le l i j x y :
  sorted l → (i ≤ j)%nat → l !! i = Some x → l !! j = Some y → (x ≤ y)%N.
Proof.
  intros Hl. revert i j. induction Hl as [|z l Hl IH Hz]; intros i j Hij Hi Hj.
  - by rewrite lookup_nil in Hi.
  - destruct i as [|i], j as [|j]; simpl in *; simplify_eq; try lia.
    + rewrite Forall_forall in Hz. apply Hz. by eapply list_elem_of_lookup_2.
    + eapply (IH i j); [lia|done..].
Qed.

(** ** [merge] and [intersect] *)

Lemma merge_loop_nil_r a : merge_loop a [] = a.
Proof. by destruct a. Qed.

Lemma merge_loop_cons x a y b :
  merge_loop (x :: a) (y :: b) =
  if (x <? y)%N then x :: merge_loop a (y :: b) else y :: merge_loop (x :: a) b.
Proof. reflexivity. Qed.

Lemma intersect_loop_cons x a y b :
  intersect_loop (x :: a) (y :: b) =
  (if (x =? y)%N then [x] else []) ++
  (if (x <? y)%N then intersect_loop a (y :: b) else intersect_loop (x :: a) b).
Proof. reflexivity. Qed.

Lemma merge_loop_perm a b : merge_loop a b ≡ₚ a ++ b.
Proof.
  revert b. induction a as [|x a IHa]; intros b.
  - by destruct b.
  - induction b as [|y b IHb].
    + by rewrite app_nil_r.
    + rewrite merge_loop_cons. destruct (x <? y)%N.
      * by rewrite IHa.
      * rewrite IHb. apply Permutation_middle.
Qed.

Lemma merge_loop_elem_of a b x : x ∈ merge_loop a b ↔ x ∈ a ∨ x ∈ b.
Proof. rewrite merge_loop_perm. apply elem_of_app. Qed.

Lemma merge_loop_sorted a b : sorted a → sorted b → sorted (merge_loop a b).
Proof.
  intros Ha. revert b. induction Ha as [|x a Ha IHa Hx]; intros b Hb.
  - by destruct b.
  - induction Hb as [|y b Hb IHb Hy].
    + by constructor.
    + rewrite merge_loop_cons. destruct (N.ltb_spec x y) as [Hlt|Hle].
      * constructor; [apply IHa; by constructor|].
        rewrite Forall_forall. intros z [Hz|Hz]%merge_loop_elem_of.
        -- rewrite Forall_forall in Hx. by apply Hx.
        -- apply elem_of_cons in Hz as [->|Hz]; [lia|].
           rewrite Forall_forall in Hy. specialize (Hy _ Hz). simpl in Hy. lia.
      * constructor; [exact IHb|].
        rewrite Forall_forall. intros z [Hz|Hz]%merge_loop_elem_of.
        -- apply elem_of_cons in Hz as [->|Hz]; [done|].
           rewrite Forall_forall in Hx. specialize (Hx _ Hz). simpl in Hx. lia.
        -- rewrite Forall_forall in Hy. by apply Hy.
Qed.

Lemma merge_loop_strictly_sorted a b :
  strictly_sorted a → strictly_sorted b → (∀ x, x ∈ a → x ∉ b) →
  strictly_sorted (merge_loop a b).
Proof.
  intros Ha. revert b. induction Ha as [|x a Ha IHa Hx]; intros b Hb Hdisj.
  - by destruct b.
  - induction Hb as [|y b Hb IHb Hy].
    + by constructor.
    + rewrite merge_loop_cons. destruct (N.ltb_spec x y) as [Hlt|Hle].
      * constructor.
        { apply IHa; [by constructor|]. intros z Hz. apply Hdisj. by right. }
        rewrite Forall_forall. intros z [Hz|Hz]%merge_loop_elem_of.
        -- rewrite Forall_forall in Hx. by apply Hx.
        -- apply elem_of_cons in Hz as [->|Hz]; [lia|].
           rewrite Forall_forall in Hy. specialize (Hy _ Hz). simpl in Hy. lia.
      * assert (x ≠ y) as Hne.
        { intros ->. apply (Hdisj y); by left. }
        constructor.
        { apply IHb. intros z Hz Hzb. apply (Hdisj z Hz). by right. }
        rewrite Forall_forall. intros z [Hz|Hz]%merge_loop_elem_of.
        -- apply elem_of_cons in Hz as [->|Hz]; [simpl; lia|].
           rewrite Forall_forall in Hx. specialize (Hx _ Hz). simpl in *. lia.
        -- rewrite Forall_forall in Hy. by apply Hy.
Qed.

(** Every element [intersect] emits is taken from [b], in the order of [b]. *)
Lemma intersect_loop_sublist a b : intersect_loop a b `sublist_of` b.
Proof.
  revert b. induction a as [|x a IHa]; intros b.
  - destruct b; apply sublist_nil_l.
  - induction b as [|y b IHb]; [done|].
    rewrite intersect_loop_cons. destruct (N.eqb_spec x y) as [->|Hne].
    + rewrite N.ltb_irrefl. simpl. by apply sublist_skip.
    + simpl. destruct (x <? y)%N; [apply IHa|by apply sublist_cons].
Qed.

Lemma intersect_loop_sound a b x : x ∈ intersect_loop a b → x ∈ a ∧ x ∈ b.
Proof.
  revert b. induction a as [|x' a IHa]; intros b.
  - destruct b; simpl; by intros ?%elem_of_nil.
  - induction b as [|y b IHb]; [by intros ?%elem_of_nil|].
    rewrite intersect_loop_cons. destruct (N.eqb_spec x' y) as [->|Hne].
    + rewrite N.ltb_irrefl. simpl. intros [->|Hx]%elem_of_cons.
      * split; by left.
      * destruct (IHb Hx). split; [done|by right].
    + simpl. destruct (x' <? y)%N.
      * intros [??]%IHa. split; [by right|done].
      * intros [??]%IHb. split; [done|by right].
Qed.

Lemma intersect_loop_complete a b x :
  sorted a → sorted b → x ∈ a → x ∈ b → x ∈ intersect_loop a b.
Proof.
  intros Ha. revert b. induction Ha as [|x' a Ha IHa Hx']; intros b Hb.
  - by intros ?%elem_of_nil.
  - induction Hb as [|y b Hb IHb Hy]; [by intros _ ?%elem_of_nil|].
    intros Hxa Hxb. rewrite intersect_loop_cons.
    assert (sorted (y :: b)) as Hyb by by constructor.
    rewrite Forall_forall in Hx'. rewrite Forall_forall in Hy.
    destruct (N.eqb_spec x' y) as [->|Hne].
    + rewrite N.ltb_irrefl. simpl.
      destruct (decide (x = y)) as [->|Hxy]; [by left|right].
      apply IHb; [done|].
      apply elem_of_cons in Hxb as [?|?]; done.
    + rewrite app_nil_l. destruct (N.ltb_spec x' y) as [Hlt|Hle].
      * apply IHa; [done| |done].
        apply elem_of_cons in Hxa as [->|?]; [|done].
        apply elem_of_cons in Hxb as [->|Hxb]; [lia|].
        specialize (Hy _ Hxb). simpl in Hy. lia.
      * apply IHb; [done|].
        apply elem_of_cons in Hxb as [->|?]; [|done].
        apply elem_of_cons in Hxa as [->|Hxa]; [lia|].
        specialize (Hx' _ Hxa). simpl in Hx'. lia.
Qed.

Lemma intersect_loop_elem_of a b x :
  sorted a → sorted b → x ∈ intersect_loop a b ↔ x ∈ a ∧ x ∈ b.
Proof.
  intros Ha Hb. split; [apply intersect_loop_sound|].
  intros [??]. by apply intersect_loop_complete.
Qed.

Lemma StronglySorted_sublist {A} (R : relation A) (l k : list A) :
  l `sublist_of` k → StronglySorted R k → StronglySorted R l.
Proof.
  intros Hsub. induction Hsub as [|x l k Hsub IH|x l k Hsub IH];
    rewrite ?StronglySorted_cons; [done| |by intros [_ ?]; apply IH].
  intros [Hx Hk]. split; [|by apply IH].
  rewrite Forall_forall in Hx. apply Forall_forall. intros y Hy.
  apply Hx. by eapply elem_of_sublist.
Qed.

Lemma sorted_sublist l k : l `sublist_of` k → sorted k → sorted l.
Proof. apply StronglySorted_sublist. Qed.

Lemma strictly_sorted_sublist l k :
  l `sublist_of` k → strictly_sorted k → strictly_sorted l.
Proof. apply StronglySorted_sublist. Qed.

(** ** [sort.Search] *)

Lemma midpoint_between i j : (i < j)%nat → (i ≤ (i + j) / 2 < j)%nat.
Proof.
  intros Hij. split.
  - apply Nat.div_le_lower_bound; lia.
  - apply Nat.Div0.div_lt_upper_bound; lia.
Qed.

Lemma search_loop_bounds fuel f i j :
  (i ≤ j)%nat → (i ≤ search_loop fuel f i j ≤ j)%nat.
Proof.
  revert i j. induction fuel as [|fuel IH]; intros i j Hij; cbn [search_loop]; [lia|].
  destruct (Nat.ltb_spec i j) as [Hlt|?]; [|lia].
  pose proof (midpoint_between i j Hlt) as Hh.
  destruct (f _).
  - specialize (IH i ((i + j) / 2)%nat). lia.
  - specialize (IH ((i + j) / 2 + 1)%nat j). lia.
Qed.

Lemma sort_Search_le n f : (sort_Search n f ≤ n)%nat.
Proof. unfold sort_Search. pose proof (search_loop_bounds n f 0 n). lia. Qed.

(** On a predicate that, once true, stays true below [n], the fuel
    suffices and the loop returns the least index with [f] true. *)
Lemma search_loop_least n fuel f i j :
  (∀ k k', (k ≤ k')%nat → (k' < n)%nat → f k = true → f k' = true) →
  (j - i ≤ fuel)%nat → (i ≤ j)%nat → (j ≤ n)%nat →
  let r := search_loop fuel f i j in
  (∀ k, (i ≤ k < r)%nat → f k = false) ∧ ((r < j)%nat → f r = true).
Proof.
  intros Hmono. revert i j.
  induction fuel as [|fuel IH]; intros i j Hfuel Hij Hjn; cbn [search_loop].
  { split; intros; lia. }
  destruct (Nat.ltb_spec i j) as [Hlt|?]; [|split; intros; lia].
  set (h := ((i + j) / 2)%nat).
  pose proof (midpoint_between i j Hlt) as Hh. fold h in Hh.
  destruct (f h) eqn:Hfh.
  - destruct (IH i h) as [Hlow Hhigh]; [lia..|].
    split; [done|]. intros _.
    pose proof (search_loop_bounds fuel f i h).
    destruct (decide (search_loop fuel f i h = h)) as [->|]; [done|].
    apply Hhigh. lia.
  - destruct (IH (h + 1)%nat j) as [Hlow Hhigh]; [lia..|].
    split; [|done]. intros k Hk.
    destruct (decide (k ≤ h)%nat) as [Hkh|]; [|apply Hlow; lia].
    destruct (f k) eqn:Hfk; [|done].
    rewrite (Hmono k h) in Hfh; [done|lia..|done].
Qed.

Lemma fp_ge_at_mono l fp k k' :
  sorted l → (k ≤ k')%nat → (k' < length l)%nat →
  fp_ge_at l fp k = true → fp_ge_at l fp k' = true.
Proof.
  intros Hl Hk Hk'. unfold fp_ge_at.
  destruct (lookup_lt_is_Some_2 l k') as [y Hy]; [done|].
  destruct (lookup_lt_is_Some_2 l k) as [x Hx]; [lia|].
  rewrite Hx, Hy. pose proof (sorted_lookup_le l k k' x y Hl Hk Hx Hy).
  intros ?%N.leb_le. apply N.leb_le. lia.
Qed.

(** On a sorted list the search splits the list around [fp]. *)
Lemma sort_Search_sorted l fp :
  sorted l →
  let j := sort_Search (length l) (fp_ge_at l fp) in
  Forall (λ x, (x < fp)%N) (take j l) ∧ Forall (λ x, (fp ≤ x)%N) (drop j l).
Proof.
  intros Hl j.
  pose proof (sort_Search_le (length l) (fp_ge_at l fp)) as Hle. fold j in Hle.
  destruct (search_loop_least (length l) (length l) (fp_ge_at l fp) 0 (length l))
    as [Hlow Hhigh]; [by intros; eapply fp_ge_at_mono|lia..|].
  fold (sort_Search (length l) (fp_ge_at l fp)) in Hlow, Hhigh. fold j in Hlow, Hhigh.
  split; apply Forall_lookup; intros i x Hi.
  - apply lookup_take_Some in Hi as [Hi Hij].
    specialize (Hlow i ltac:(lia)). unfold fp_ge_at in Hlow. rewrite Hi in Hlow.
    apply N.leb_gt in Hlow. done.
  - rewrite lookup_drop in Hi. pose proof (lookup_lt_Some _ _ _ Hi).
    assert (fp_ge_at l fp (j + i) = true) as Hge.
    { eapply (fp_ge_at_mono l fp j); [done|lia|lia|]. apply Hhigh. lia. }
    unfold fp_ge_at in Hge. rewrite Hi in Hge. by apply N.leb_le.
Qed.

(** ** The list operations of [add] and [delete] *)

(** What the three slice statements of [add] amount to. *)
Lemma add_fingerprint_eq l fp :
  let j := sort_Search (length l) (fp_ge_at l fp) in
  add_fingerprint l fp = take j l ++ fp :: drop j l.
Proof.
  intros j. pose proof (sort_Search_le (length l) (fp_ge_at l fp)) as Hle.
  fold j in Hle. unfold add_fingerprint, copy_at. fold j. clearbody j. simpl.
  rewrite !length_app, length_drop, length_app. simpl.
  replace ((length l + 1 - (j + 1)) `min` (length l + 1 - j))%nat
    with (length l - j)%nat by lia.
  rewrite (drop_ge (l ++ [0%N]) (j + 1 + (length l - j)));
    [|rewrite length_app; simpl; lia].
  rewrite app_nil_r, drop_app_le by lia.
  rewrite (take_app_le (drop j l)), (take_ge (drop j l))
    by (rewrite length_drop; lia).
  assert (∃ x, take (j + 1) (l ++ [0%N]) = take j l ++ [x]) as [x ->].
  { destruct (decide (j = length l)) as [->|Hj].
    - exists 0%N. rewrite take_ge by (rewrite length_app; simpl; lia).
      by rewrite take_ge by lia.
    - exists (l !!! j). rewrite take_app_le, Nat.add_1_r by lia.
      apply take_S_r, list_lookup_lookup_total_lt. lia. }
  rewrite <- app_assoc. simpl.
  replace j with (length (take j l) + 0)%nat at 1 by (rewrite length_take; lia).
  by rewrite insert_app_r.
Qed.

(** What the slice expression of [delete] amounts to: the element at the
    index found is removed, and an index past the end panics. *)
Lemma delete_fingerprint_eq l fp :
  let j := sort_Search (length l) (fp_ge_at l fp) in
  delete_fingerprint l fp =
    if decide (j < length l)%nat then Ok (delete j l)
    else Panics (SliceBoundsOutOfRange (Z.of_nat (j + 1)) (Z.of_nat (length l))).
Proof.
  intros j. unfold delete_fingerprint, slice_from. fold j. clearbody j.
  destruct (Nat.leb_spec (j + 1) (length l)) as [Hlt|Hge]; simpl.
  - rewrite decide_True by lia. f_equal.
    rewrite length_drop.
    replace ((length l - j) `min` (length l - (j + 1)))%nat
      with (length l - (j + 1))%nat by lia.
    rewrite (take_ge (drop (j + 1) l)) by (rewrite length_drop; lia).
    rewrite app_assoc, take_app_length'
      by (rewrite length_app, length_take, length_drop; lia).
    by rewrite delete_take_drop, Nat.add_1_r.
  - by rewrite decide_False by lia.
Qed.

Lemma add_fingerprint_perm l fp : add_fingerprint l fp ≡ₚ fp :: l.
Proof.
  rewrite add_fingerprint_eq. rewrite <- Permutation_middle.
  by rewrite take_drop.
Qed.

Lemma add_fingerprint_elem_of l fp x : x ∈ add_fingerprint l fp ↔ x = fp ∨ x ∈ l.
Proof. rewrite add_fingerprint_perm. apply elem_of_cons. Qed.

Lemma add_fingerprint_length l fp : length (add_fingerprint l fp) = S (length l).
Proof. by rewrite add_fingerprint_perm. Qed.

Lemma add_fingerprint_sorted l fp : sorted l → sorted (add_fingerprint l fp).
Proof.
  intros Hl. rewrite add_fingerprint_eq.
  destruct (sort_Search_sorted l fp Hl) as [Hlow Hhigh].
  set (j := sort_Search _ _) in *. clearbody j.
  rewrite <- (take_drop j l) in Hl. apply StronglySorted_app in Hl as (Hcross & Htake & Hdrop).
  apply StronglySorted_app. split_and!; [|done|by constructor].
  intros x y Hx [->|Hy]%elem_of_cons; [|by apply Hcross].
  rewrite Forall_forall in Hlow. specialize (Hlow _ Hx). simpl in Hlow. lia.
Qed.

Lemma add_fingerprint_strictly_sorted l fp :
  strictly_sorted l → fp ∉ l → strictly_sorted (add_fingerprint l fp).
Proof.
  intros Hl Hfp. rewrite add_fingerprint_eq.
  destruct (sort_Search_sorted l fp (strictly_sorted_sorted _ Hl)) as [Hlow Hhigh].
  set (j := sort_Search _ _) in *. clearbody j.
  rewrite Forall_forall in Hlow. rewrite Forall_forall in Hhigh.
  assert (∀ y, y ∈ drop j l → (fp < y)%N) as Hhigh'.
  { intros y Hy. specialize (Hhigh _ Hy). simpl in Hhigh.
    assert (y ≠ fp); [|lia]. intros ->. apply Hfp.
    eapply elem_of_sublist; [done|apply sublist_drop]. }
  rewrite <- (take_drop j l) in Hl. apply StronglySorted_app in Hl as (Hcross & Htake & Hdrop).
  apply StronglySorted_app. split_and!; [|done|].
  - intros x y Hx [->|Hy]%elem_of_cons; [by apply Hlow|by apply Hcross].
  - constructor; [done|]. by apply Forall_forall.
Qed.

(** [add] does not look for [fp]: adding a fingerprint that is already in
    the list stores it a second time. *)
Lemma add_fingerprint_present l fp : fp ∈ l → ¬ NoDup (add_fingerprint l fp).
Proof.
  intros Hfp Hnd. rewrite add_fingerprint_perm in Hnd.
  by apply NoDup_cons in Hnd as [? _].
Qed.

Lemma delete_fingerprint_Ok l fp l' :
  delete_fingerprint l fp = Ok l' →
  ∃ j, (j < length l)%nat ∧ l' = delete j l.
Proof.
  rewrite delete_fingerprint_eq. case_decide; [|done].
  intros [= <-]. eauto.
Qed.

Lemma delete_fingerprint_sublist l fp l' :
  delete_fingerprint l fp = Ok l' → l' `sublist_of` l.
Proof. intros (j & _ & ->)%delete_fingerprint_Ok. apply sublist_delete. Qed.

(** Whenever [delete] returns, the list is one element shorter: it never
    leaves the list as it was. *)
Lemma delete_fingerprint_length l fp l' :
  delete_fingerprint l fp = Ok l' → length l = S (length l').
Proof.
  intros (j & Hj & ->)%delete_fingerprint_Ok.
  rewrite length_delete; [lia|]. by apply lookup_lt_is_Some_2.
Qed.

(** A fingerprint that is in a sorted list is found and removed once. *)
Lemma delete_fingerprint_present l fp :
  sorted l → fp ∈ l →
  ∃ l', delete_fingerprint l fp = Ok l' ∧ l ≡ₚ fp :: l'.
Proof.
  intros Hl Hfp. rewrite delete_fingerprint_eq.
  destruct (sort_Search_sorted l fp Hl) as [Hlow Hhigh].
  set (j := sort_Search _ _) in *. clearbody j.
  rewrite Forall_forall in Hlow. rewrite Forall_forall in Hhigh.
  rewrite <- (take_drop j l) in Hfp. apply elem_of_app in Hfp as [Hfp|Hfp].
  { specialize (Hlow _ Hfp). simpl in Hlow. lia. }
  destruct (drop j l) as [|y tl] eqn:Hdrop; [by apply elem_of_nil in Hfp|].
  assert (l !! j = Some y) as Hj.
  { rewrite <- (Nat.add_0_r j), <- lookup_drop. by rewrite Hdrop. }
  pose proof (lookup_lt_Some _ _ _ Hj).
  assert (y = fp) as ->.
  { rewrite <- (take_drop j l), Hdrop in Hl.
    apply StronglySorted_app in Hl as (_ & _ & Hl).
    apply StronglySorted_cons in Hl as [Hy _].
    rewrite Forall_forall in Hy.
    pose proof (Hhigh y ltac:(by left)) as Hle. simpl in Hle.
    apply elem_of_cons in Hfp as [->|Hfp]; [done|].
    specialize (Hy _ Hfp). simpl in Hy. lia. }
  rewrite decide_True by done. eexists; split; [done|].
  by apply delete_Permutation.
Qed.

Lemma delete_fingerprint_present_strict l fp l' x :
  strictly_sorted l → fp ∈ l → delete_fingerprint l fp = Ok l' →
  x ∈ l' ↔ x ∈ l ∧ x ≠ fp.
Proof.
  intros Hl Hfp Hdel.
  destruct (delete_fingerprint_present l fp) as (l'' & Hdel' & Hperm);
    [by apply strictly_sorted_sorted|done|].
  rewrite Hdel in Hdel'. simplify_eq.
  apply strictly_sorted_NoDup in Hl. rewrite Hperm in Hl.
  apply NoDup_cons in Hl as [Hnotin _].
  rewrite Hperm, elem_of_cons. split.
  - intros Hx. split; [by right|]. by intros ->.
  - by intros [[->|?] ?].
Qed.

(** A fingerprint that is not in the list is not left alone: the element
    found by the search is removed in its place, or the slice expression
    panics when the search ran off the end. *)
Lemma delete_fingerprint_not_noop l fp : delete_fingerprint l fp ≠ Ok l.
Proof. intros Heq%delete_fingerprint_length. lia. Qed.

(** ** The inverted index *)

Lemma index_lists_lookup P idx name values value l :
  index_lists P idx → idx !! name = Some values → values !! value = Some l → P l.
Proof. intros Hidx Hn Hv. exact (Hidx _ _ Hn _ _ Hv). Qed.

Lemma index_lists_empty P : index_lists P newInvertedIndex.
Proof. apply map_Forall_empty. Qed.

Lemma add_step_lookup fp idx name value name' :
  add_step fp idx (name, value) !! name' =
    if decide (name = name') then
      Some (<[value := add_fingerprint
                         (default [] (default ∅ (idx !! name) !! value)) fp]>
              (default ∅ (idx !! name)))
    else idx !! name'.
Proof. unfold add_step. by rewrite lookup_insert. Qed.

Lemma stored_Some idx name values value l :
  idx !! name = Some values → values !! value = Some l → stored idx name value = l.
Proof. unfold stored. intros Hn Hv. rewrite Hn. simpl. by rewrite Hv. Qed.

Lemma add_step_stored fp idx name value name' value' :
  stored (add_step fp idx (name, value)) name' value' =
    if decide (name = name' ∧ value = value')
    then add_fingerprint (stored idx name value) fp
    else stored idx name' value'.
Proof.
  unfold stored at 1. rewrite add_step_lookup.
  destruct (decide (name = name')) as [->|Hn]; simpl.
  - rewrite lookup_insert. destruct (decide (value = value')) as [->|Hv].
    + by rewrite decide_True.
    + by rewrite decide_False by by intros [_ ?].
  - by rewrite decide_False by by intros [? _].
Qed.

Lemma add_step_lists (P : list Fingerprint → Prop) fp idx name value :
  P (add_fingerprint (stored idx name value) fp) →
  index_lists P idx → index_lists P (add_step fp idx (name, value)).
Proof.
  intros Hnew Hidx name' values'. rewrite add_step_lookup.
  destruct (decide (name = name')) as [<-|Hn]; [|apply Hidx].
  intros [= <-] value' l. rewrite lookup_insert.
  destruct (decide (value = value')) as [<-|Hv]; [by intros [= <-]|].
  destruct (idx !! name) as [values|] eqn:Hvalues; simpl; [|done].
  intros Hl. by eapply index_lists_lookup.
Qed.

Lemma add_step_sorted fp idx entry :
  index_sorted idx → index_sorted (add_step fp idx entry).
Proof.
  destruct entry as [name value]. intros Hidx.
  apply add_step_lists; [|done]. apply add_fingerprint_sorted.
  unfold stored. destruct (idx !! name) as [values|] eqn:Hn; simpl; [|constructor].
  destruct (values !! value) as [l|] eqn:Hv; simpl; [|constructor].
  by eapply index_lists_lookup.
Qed.

Lemma add_entries_sorted idx entries fp :
  index_sorted idx → index_sorted (add_entries idx entries fp).
Proof.
  revert idx. induction entries as [|entry entries IH]; intros idx Hidx; [done|].
  apply IH. by apply add_step_sorted.
Qed.

Lemma invertedIndex_add_sorted idx m fp :
  index_sorted idx → index_sorted (invertedIndex_add idx m fp).
Proof. apply add_entries_sorted. Qed.

(** Entries with distinct names touch distinct parts of the index, so the
    outcome of [add] does not depend on the order of the range. *)
Lemma add_entries_stored idx entries fp name value :
  NoDup entries.*1 →
  stored (add_entries idx entries fp) name value =
    if decide ((name, value) ∈ entries)
    then add_fingerprint (stored idx name value) fp
    else stored idx name value.
Proof.
  revert idx. induction entries as [|[n v] entries IH]; intros idx Hnd.
  { by rewrite decide_False by apply not_elem_of_nil. }
  apply NoDup_cons in Hnd as [Hn Hnd]. simpl in Hn.
  change (add_entries idx ((n, v) :: entries) fp)
    with (add_entries (add_step fp idx (n, v)) entries fp).
  rewrite IH, !add_step_stored by done.
  destruct (decide (n = name ∧ v = value)) as [[-> ->]|Hne].
  - rewrite decide_False.
    + by rewrite decide_True by left.
    + intros Hin. apply Hn. apply list_elem_of_fmap. by exists (name, value).
  - destruct (decide ((name, value) ∈ entries)) as [Hin|Hnin].
    + by rewrite decide_True by by right.
    + rewrite decide_False; [done|].
      intros [Heq|?]%elem_of_cons; [|done].
      injection Heq as -> ->. by apply Hne.
Qed.

Lemma invertedIndex_add_stored idx m fp name value :
  stored (invertedIndex_add idx m fp) name value =
    if decide (m !! name = Some value)
    then add_fingerprint (stored idx name value) fp
    else stored idx name value.
Proof.
  unfold invertedIndex_add.
  rewrite add_entries_stored by apply NoDup_fst_map_to_list.
  destruct (decide (m !! name = Some value)) as [Hm|Hm].
  - by rewrite decide_True by by apply elem_of_map_to_list.
  - by rewrite decide_False by by rewrite elem_of_map_to_list.
Qed.

Lemma stored_lists (P : list Fingerprint → Prop) idx name value :
  P [] → index_lists P idx → P (stored idx name value).
Proof.
  intros Hnil Hidx. unfold stored.
  destruct (idx !! name) as [values|] eqn:Hn; simpl; [|done].
  destruct (values !! value) as [l|] eqn:Hv; simpl; [|done].
  by eapply index_lists_lookup.
Qed.

Lemma add_entries_strictly_sorted idx entries fp :
  NoDup entries.*1 →
  (∀ name value, (name, value) ∈ entries → fp ∉ stored idx name value) →
  index_strictly_sorted idx → index_strictly_sorted (add_entries idx entries fp).
Proof.
  revert idx. induction entries as [|[n v] entries IH]; intros idx Hnd Hfresh Hidx.
  { done. }
  apply NoDup_cons in Hnd as [Hn Hnd]. simpl in Hn.
  change (add_entries idx ((n, v) :: entries) fp)
    with (add_entries (add_step fp idx (n, v)) entries fp).
  apply IH; [done| |].
  - intros name value Hin. rewrite add_step_stored.
    rewrite decide_False; [apply Hfresh; by right|].
    intros [-> ->]. apply Hn. apply list_elem_of_fmap. by exists (name, value).
  - apply add_step_lists; [|done].
    apply add_fingerprint_strictly_sorted; [|apply Hfresh; by left].
    apply (stored_lists strictly_sorted); [constructor|done].
Qed.

Lemma invertedIndex_add_strictly_sorted idx m fp :
  fresh_for idx m fp →
  index_strictly_sorted idx → index_strictly_sorted (invertedIndex_add idx m fp).
Proof.
  intros Hfresh. apply add_entries_strictly_sorted.
  - apply NoDup_fst_map_to_list.
  - intros name value Hin%elem_of_map_to_list. by apply Hfresh.
Qed.

(** [add] does not check for [fp]: a second [add] of the same label set and
    fingerprint leaves [fp] twice in each list it touches. *)
Lemma invertedIndex_add_twice idx m fp name value :
  m !! name = Some value →
  ¬ NoDup (stored (invertedIndex_add (invertedIndex_add idx m fp) m fp) name value).
Proof.
  intros Hm. rewrite !invertedIndex_add_stored, !decide_True by done.
  apply add_fingerprint_present, add_fingerprint_elem_of. by left.
Qed.

Lemma delete_step_lists (P : list Fingerprint → Prop) fp idx entry idx' :
  (∀ l l', l' `sublist_of` l → P l → P l') →
  delete_step fp idx entry = Ok idx' →
  index_lists P idx → index_lists P idx'.
Proof.
  intros Hsub. destruct entry as [name value]. unfold delete_step.
  destruct (idx !! name) as [values|] eqn:Hn; [|by intros [= <-]].
  destruct (values !! value) as [l|] eqn:Hv; [|by intros [= <-]].
  destruct (delete_fingerprint l fp) as [l'|] eqn:Hdel; [|done]. simpl.
  intros [= <-] Hidx.
  assert (P l') as Hl'.
  { eapply Hsub; [by eapply delete_fingerprint_sublist|].
    by eapply index_lists_lookup. }
  assert (map_Forall (λ _ l, P l) values) as Hvalues by exact (Hidx _ _ Hn).
  destruct (size _ =? 0)%nat; [by apply map_Forall_delete|].
  apply map_Forall_insert_2; [|done].
  destruct (length l' =? 0)%nat;
    [by apply map_Forall_delete|by apply map_Forall_insert_2].
Qed.

Lemma delete_entries_lists (P : list Fingerprint → Prop) fp idx entries idx' :
  (∀ l l', l' `sublist_of` l → P l → P l') →
  delete_entries idx entries fp = Ok idx' →
  index_lists P idx → index_lists P idx'.
Proof.
  intros Hsub. revert idx.
  induction entries as [|entry entries IH]; intros idx; simpl.
  { by intros [= <-]. }
  destruct (delete_step fp idx entry) as [idx1|] eqn:Hstep; [|done]. simpl.
  intros Hrest Hidx. eapply IH; [done|]. by eapply delete_step_lists.
Qed.

Lemma invertedIndex_delete_sorted idx m fp idx' :
  invertedIndex_delete idx m fp = Ok idx' → index_sorted idx → index_sorted idx'.
Proof. apply delete_entries_lists. intros l l'. apply sorted_sublist. Qed.

Lemma invertedIndex_delete_strictly_sorted idx m fp idx' :
  invertedIndex_delete idx m fp = Ok idx' →
  index_strictly_sorted idx → index_strictly_sorted idx'.
Proof. apply delete_entries_lists. intros l l'. apply strictly_sorted_sublist. Qed.

Lemma run_calls_sorted idx calls idx' :
  run_calls idx calls = Ok idx' → index_sorted idx → index_sorted idx'.
Proof.
  revert idx. induction calls as [|[m fp|m fp] calls IH]; intros idx; simpl.
  - by intros [= <-].
  - intros Hrun Hidx. eapply IH; [done|]. by apply invertedIndex_add_sorted.
  - destruct (invertedIndex_delete idx m fp) as [idx1|] eqn:Hdel; [|done]. simpl.
    intros Hrun Hidx. eapply IH; [done|]. by eapply invertedIndex_delete_sorted.
Qed.

Lemma run_calls_strictly_sorted idx calls idx' :
  run_calls idx calls = Ok idx' → adds_fresh idx calls →
  index_strictly_sorted idx → index_strictly_sorted idx'.
Proof.
  revert idx. induction calls as [|[m fp|m fp] calls IH]; intros idx; simpl.
  - by intros [= <-].
  - intros Hrun [Hfresh Hrest] Hidx. eapply IH; [done..|].
    by apply invertedIndex_add_strictly_sorted.
  - destruct (invertedIndex_delete idx m fp) as [idx1|] eqn:Hdel; [|done]. simpl.
    intros Hrun Hrest Hidx. eapply IH; [done..|].
    by eapply invertedIndex_delete_strictly_sorted.
Qed.

(** Pruning: [delete] keeps no empty list and no empty value map. *)
Lemma delete_step_pruned fp idx entry idx' :
  delete_step fp idx entry = Ok idx' → index_pruned idx → index_pruned idx'.
Proof.
  destruct entry as [name value]. unfold delete_step.
  destruct (idx !! name) as [values|] eqn:Hn; [|by intros [= <-]].
  destruct (values !! value) as [l|] eqn:Hv; [|by intros [= <-]].
  destruct (delete_fingerprint l fp) as [l'|] eqn:Hdel; [|done]. simpl.
  intros [= <-] Hidx.
  destruct (Hidx _ _ Hn) as [_ Hvalues].
  set (values' := if (length l' =? 0)%nat then delete value values
                  else <[value := l']> values).
  assert (map_Forall (λ _ l, l ≠ []) values') as Hvalues'.
  { unfold values'. destruct (Nat.eqb_spec (length l') 0) as [|Hlen].
    - by apply map_Forall_delete.
    - apply map_Forall_insert_2; [|done]. intros ->. by apply Hlen. }
  destruct (Nat.eqb_spec (size values') 0) as [|Hsize].
  - by apply map_Forall_delete.
  - apply map_Forall_insert_2; [|done]. split; [|done].
    intros Hempty. apply Hsize. rewrite Hempty. apply map_size_empty.
Qed.

Lemma delete_entries_pruned fp idx entries idx' :
  delete_entries idx entries fp = Ok idx' → index_pruned idx → index_pruned idx'.
Proof.
  revert idx. induction entries as [|entry entries IH]; intros idx; simpl.
  { by intros [= <-]. }
  destruct (delete_step fp idx entry) as [idx1|] eqn:Hstep; [|done]. simpl.
  intros Hrest Hidx. eapply IH; [done|]. by eapply delete_step_pruned.
Qed.

Lemma add_step_pruned fp idx entry :
  index_pruned idx → index_pruned (add_step fp idx entry).
Proof.
  destruct entry as [name value]. intros Hidx. unfold add_step.
  apply map_Forall_insert_2; [|done]. split.
  { apply insert_non_empty. }
  apply map_Forall_insert_2.
  { intros Hnil. apply (f_equal length) in Hnil.
    by rewrite add_fingerprint_length in Hnil. }
  destruct (idx !! name) as [values|] eqn:Hn; simpl; [|apply map_Forall_empty].
  by destruct (Hidx _ _ Hn).
Qed.

Lemma invertedIndex_add_pruned idx m fp :
  index_pruned idx → index_pruned (invertedIndex_add idx m fp).
Proof.
  unfold invertedIndex_add, add_entries.
  generalize (map_to_list m). intros entries. revert idx.
  induction entries as [|entry entries IH]; intros idx Hidx; [done|].
  apply IH. by apply add_step_pruned.
Qed.

(** ** [lookup] *)

Lemma union_step_fold matcher kvs acc :
  sorted (elems acc) → Forall (λ kv : string * list N, sorted kv.2) kvs →
  let r := foldl (union_step matcher) acc kvs in
  sorted (elems r) ∧
  ∀ x, x ∈ elems r ↔
       x ∈ elems acc ∨
       ∃ value fps, (value, fps) ∈ kvs ∧ Match matcher value = true ∧ x ∈ fps.
Proof.
  revert acc. induction kvs as [|[value fps] kvs IH]; intros acc Hacc Hkvs; simpl.
  { split; [done|]. intros x. split; [by left|].
    intros [?|(? & ? & ?%elem_of_nil & _)]; done. }
  apply Forall_cons in Hkvs as [Hfps Hkvs]. simpl in Hfps.
  destruct (Match matcher value) eqn:Hmatch.
  - destruct (IH (merge acc (Some fps))) as [Hsorted Helem]; [|done|].
    { by apply merge_loop_sorted. }
    split; [done|]. intros x. rewrite Helem. simpl. rewrite merge_loop_elem_of.
    split.
    + intros [[?|?]|(v & l & ? & ? & ?)]; [by left|right..].
      * exists value, fps. split_and!; [by left|done..].
      * exists v, l. split_and!; [by right|done..].
    + intros [?|(v & l & [[= -> ->]|?]%elem_of_cons & ? & ?)].
      * by left; left.
      * by left; right.
      * right. by exists v, l.
  - destruct (IH acc) as [Hsorted Helem]; [done..|].
    split; [done|]. intros x. rewrite Helem. split.
    + intros [?|(v & l & ? & ? & ?)]; [by left|right].
      exists v, l. split_and!; [by right|done..].
    + intros [?|(v & l & [[= -> ->]|?]%elem_of_cons & ? & ?)]; [by left|congruence|].
      right. by exists v, l.
Qed.

Lemma union_matching_spec idx matcher values :
  index_sorted idx → idx !! Name matcher = Some values →
  let r := union_matching matcher (map_to_list values) in
  sorted (elems r) ∧ ∀ x, x ∈ elems r ↔ matched idx matcher x.
Proof.
  intros Hidx Hvalues r.
  destruct (union_step_fold matcher (map_to_list values) None) as [Hsorted Helem].
  { constructor. }
  { apply Forall_forall. intros [value fps] Hin%elem_of_map_to_list. simpl.
    by eapply index_lists_lookup. }
  split; [done|]. intros x. unfold r, union_matching. rewrite Helem. split.
  - intros [?%elem_of_nil|(value & fps & Hin%elem_of_map_to_list & ? & ?)]; [done|].
    by exists values, value, fps.
  - intros (values' & value & fps & Hn & Hv & ? & ?). right.
    rewrite Hvalues in Hn. injection Hn as <-.
    exists value, fps. by rewrite elem_of_map_to_list.
Qed.

Lemma length_eqb_zero {A} (l : list A) : (length l =? 0)%nat = true ↔ l = [].
Proof. rewrite Nat.eqb_eq. apply length_zero_iff_nil. Qed.

Lemma lookup_loop_Some idx l matchers :
  index_sorted idx → sorted l →
  let r := lookup_loop idx (Some l) matchers in
  sorted (elems r) ∧
  ∀ x, x ∈ elems r ↔ x ∈ l ∧ Forall (λ matcher, matched idx matcher x) matchers.
Proof.
  intros Hidx. revert l.
  induction matchers as [|matcher matchers IH]; intros l Hl; simpl.
  { split; [done|]. intros x. split; [by intros ?|by intros [? _]]. }
  destruct (idx !! Name matcher) as [values|] eqn:Hvalues; simpl.
  2:{ split; [constructor|]. intros x. split; [by intros ?%elem_of_nil|].
      intros [_ Hall]. apply Forall_cons in Hall as [(? & ? & ? & ? & _) _].
      congruence. }
  destruct (union_matching_spec idx matcher values Hidx Hvalues) as [Hsorted Helem].
  set (t := union_matching matcher (map_to_list values)) in *.
  assert (∀ x, x ∈ intersect_loop l (elems t) ↔ x ∈ l ∧ matched idx matcher x)
    as Hinter.
  { intros x. rewrite intersect_loop_elem_of by done. by rewrite Helem. }
  destruct (length (intersect_loop l (elems t)) =? 0)%nat eqn:Hlen.
  - apply length_eqb_zero in Hlen. split; [constructor|]. intros x.
    split; [by intros ?%elem_of_nil|].
    intros [Hx Hall]. apply Forall_cons in Hall as [Hm _].
    change (x ∈ @nil N). rewrite <- Hlen. by apply Hinter.
  - destruct (IH (intersect_loop l (elems t))) as [Hs He].
    { eapply sorted_sublist; [apply intersect_loop_sublist|done]. }
    split; [done|]. intros x. rewrite He, Hinter, Forall_cons. tauto.
Qed.

Lemma lookup_loop_None idx matcher matchers :
  index_sorted idx →
  let r := lookup_loop idx None (matcher :: matchers) in
  sorted (elems r) ∧
  ∀ x, x ∈ elems r ↔ Forall (λ matcher, matched idx matcher x) (matcher :: matchers).
Proof.
  intros Hidx. simpl.
  destruct (idx !! Name matcher) as [values|] eqn:Hvalues; simpl.
  2:{ split; [constructor|]. intros x. split; [by intros ?%elem_of_nil|].
      intros Hall. apply Forall_cons in Hall as [(? & ? & ? & ? & _) _].
      congruence. }
  destruct (union_matching_spec idx matcher values Hidx Hvalues) as [Hsorted Helem].
  set (t := union_matching matcher (map_to_list values)) in *.
  destruct (length (elems t) =? 0)%nat eqn:Hlen.
  - apply length_eqb_zero in Hlen. split; [constructor|]. intros x.
    split; [by intros ?%elem_of_nil|].
    intros Hall. apply Forall_cons in Hall as [Hm _].
    change (x ∈ @nil N). rewrite <- Hlen. by apply Helem.
  - destruct t as [l|]; [|done]. simpl in *.
    destruct (lookup_loop_Some idx l matchers Hidx Hsorted) as [Hs He].
    split; [done|]. intros x. rewrite He, Helem, Forall_cons. tauto.
Qed.

Lemma elem_of_stored idx name value fp :
  fp ∈ stored idx name value ↔
  ∃ values fps, idx !! name = Some values ∧ values !! value = Some fps ∧ fp ∈ fps.
Proof.
  unfold stored. split.
  - destruct (idx !! name) as [values|]; simpl; [|by intros ?%elem_of_nil].
    destruct (values !! value) as [fps|] eqn:Hv; simpl; [|by intros ?%elem_of_nil].
    intros ?. by exists values, fps.
  - intros (values & fps & -> & Hv & ?). simpl. by rewrite Hv.
Qed.

Lemma index_represents_stored idx series :
  index_represents idx series ↔
  ∀ name value fp,
    fp ∈ stored idx name value ↔ ∃ m, series !! fp = Some m ∧ m !! name = Some value.
Proof.
  unfold index_represents.
  split; intros Hrep name value fp; specialize (Hrep name value fp);
    by rewrite elem_of_stored in *.
Qed.

Lemma index_represents_empty : index_represents newInvertedIndex ∅.
Proof.
  apply index_represents_stored. intros name value fp. split.
  - by intros ?%elem_of_nil.
  - by intros (m & ? & _).
Qed.

(** Registering a new series under a fingerprint not yet in use keeps the
    index in step with the series. *)
Lemma index_represents_add idx series m fp :
  index_represents idx series → series !! fp = None →
  index_represents (invertedIndex_add idx m fp) (<[fp := m]> series).
Proof.
  rewrite !index_represents_stored. intros Hrep Hfp name value x.
  rewrite invertedIndex_add_stored.
  assert (x ∈ stored idx name value → x ≠ fp) as Hne.
  { intros (m' & ? & _)%Hrep ->. congruence. }
  destruct (decide (x = fp)) as [->|Hx].
  - rewrite lookup_insert_eq. destruct (decide (m !! name = Some value)).
    + rewrite add_fingerprint_elem_of. split; [intros _; by exists m|by left].
    + split; [by intros ?%Hne|]. by intros (? & [= <-] & ?).
  - rewrite lookup_insert_ne by done. rewrite <- Hrep.
    destruct (decide (m !! name = Some value)); [|done].
    rewrite add_fingerprint_elem_of. split; [by intros [?|?]|]. intros ?. by right.
Qed.

Lemma matched_represents idx series matcher fp :
  index_represents idx series →
  matched idx matcher fp ↔ ∃ m, series !! fp = Some m ∧ metric_matches matcher m.
Proof.
  intros Hrep. unfold matched, metric_matches. split.
  - intros (values & value & fps & Hn & Hv & Hmatch & Hin).
    destruct (Hrep (Name matcher) value fp) as [Hto _].
    destruct Hto as (m & ? & ?); [by exists values, fps|].
    exists m. split; [done|]. by exists value.
  - intros (m & Hm & value & Hv & Hmatch).
    destruct (Hrep (Name matcher) value fp) as [_ Hfrom].
    destruct Hfrom as (values & fps & ? & ? & ?); [by exists m|].
    by exists values, value, fps.
Qed.

(** ** The append path *)

Section AppendProperties.
Context `{Package}.

Lemma getOrCreateSeries_registered u m fp series u' :
  getOrCreateSeries u m = (fp, series, u') →
  userID u' = userID u ∧ fpToSeries u' !! fp = Some series.
Proof.
  unfold getOrCreateSeries.
  destruct (mapFP (mapper u) (fpToSeries u) (FastFingerprint m) m) as [mp fp0].
  simpl. destruct (fpToSeries u !! fp0) as [series0|] eqn:Hfp.
  - by intros [= <- <- <-].
  - intros [= <- <- <-]. simpl. split; [done|]. by rewrite lookup_insert_eq.
Qed.

(** A series that was already registered is returned as it is, and the
    series map and the index are left alone. *)
Lemma getOrCreateSeries_existing u m fp series u' series0 :
  getOrCreateSeries u m = (fp, series, u') →
  fpToSeries u !! fp = Some series0 →
  series = series0 ∧ fpToSeries u' = fpToSeries u ∧ index u' = index u.
Proof.
  unfold getOrCreateSeries.
  destruct (mapFP (mapper u) (fpToSeries u) (FastFingerprint m) m) as [mp fp0].
  simpl. destruct (fpToSeries u !! fp0) as [series1|] eqn:Hfp.
  - intros [= <- <- <-]. simpl. rewrite Hfp. by intros [= <-].
  - intros [= <- <- <-]. by rewrite Hfp.
Qed.

(** A series that was not registered is created without chunks and entered
    in the series map and in the index. *)
Lemma getOrCreateSeries_new u m fp series u' :
  getOrCreateSeries u m = (fp, series, u') →
  fpToSeries u !! fp = None →
  series = newMemorySeries m ∧
  fpToSeries u' = <[fp := series]> (fpToSeries u) ∧
  index u' = invertedIndex_add (index u) m fp.
Proof.
  unfold getOrCreateSeries.
  destruct (mapFP (mapper u) (fpToSeries u) (FastFingerprint m) m) as [mp fp0].
  simpl. destruct (fpToSeries u !! fp0) as [series1|] eqn:Hfp.
  - intros [= <- <- <-]. by rewrite Hfp.
  - by intros [= <- <- <-].
Qed.

Lemma discarded_Inc reason reason' i :
  discarded (discardedSamples_Inc reason i) reason' =
    (discarded i reason' + if decide (reason = reason') then 1 else 0)%Z.
Proof.
  unfold discarded at 1. simpl. rewrite lookup_insert.
  destruct (decide (reason = reason')) as [->|]; simpl; [done|].
  unfold discarded. lia.
Qed.

Lemma getStateFor_counters i ctx i1 r :
  getStateFor i ctx = (i1, r) →
  ingestedSamples i1 = ingestedSamples i ∧
  discardedSamples i1 = discardedSamples i ∧
  memoryChunks i1 = memoryChunks i ∧
  chunkStoreFailures i1 = chunkStoreFailures i ∧
  stopped i1 = stopped i.
Proof.
  unfold getStateFor. destruct ctx as [id|]; [|by intros [= <- <-]].
  destruct (userStates i !! id); [by intros [= <- <-]|].
  destruct newFPMapper; by intros [= <- <-].
Qed.

(** The outcome of [append] once the series is resolved: the three-way
    comparison of the sample's timestamp with the series' last time. *)
Lemma Ingester_append_resolved i ctx sample i1 state fp series state1 :
  stopped i = false →
  getStateFor i ctx = (i1, inr state) →
  getOrCreateSeries state (strip_empty (sample_Metric sample)) = (fp, series, state1) →
  Ingester_append i ctx sample =
    let i := store_state state1 i1 in
    if (sample_Timestamp sample =? lastTime series)%Z then
      if lastSampleValueSet series
         && SampleValue_Equal (sample_Value sample) (lastSampleValue series)
      then (i, None)
      else (discardedSamples_Inc duplicateSample i,
            Some ErrDuplicateSampleForTimestamp)
    else if (sample_Timestamp sample <? lastTime series)%Z then
      (discardedSamples_Inc outOfOrderTimestamp i, Some ErrOutOfOrderSample)
    else
      let '(series', err) :=
        series_add series {| pair_Value := sample_Value sample;
                             pair_Timestamp := sample_Timestamp sample |} in
      let state := set_fpToSeries (<[fp := series']> (fpToSeries state1)) state1 in
      let i := store_state state i in
      let i := memoryChunks_Add
                 (Z.of_nat (length (chunkDescs series'))
                  - Z.of_nat (length (chunkDescs series))) i in
      match err with
      | None => (ingestedSamples_Inc i, None)
      | Some msg => (i, Some (ErrExternal msg))
      end.
Proof.
  intros Hstopped Hstate Hseries. unfold Ingester_append.
  rewrite Hstopped, Hstate, Hseries. simpl.
  destruct (sample_Timestamp sample =? lastTime series)%Z; [done|].
  destruct (sample_Timestamp sample <? lastTime series)%Z; [done|].
  by destruct (series_add _ _) as [series' [msg|]].
Qed.

(** The batch stops at the first sample that fails: the result is the
    state and the error of that call, made on the state the samples before
    it left. *)
Lemma Ingester_Append_stops i ctx before sample after i1 i2 err :
  Ingester_Append i ctx before = (i1, None) →
  Ingester_append i1 ctx sample = (i2, Some err) →
  Ingester_Append i ctx (before ++ sample :: after) = (i2, Some err).
Proof.
  revert i. induction before as [|x before IH]; intros i; simpl.
  - intros [= <-] ->. done.
  - destruct (Ingester_append i ctx x) as [i' [e|]]; [done|]. apply IH.
Qed.

(** A rejected sample is rejected by one of the two timestamp checks: the
    errors of the collaborators are not the ingester's sentinel errors. *)
Lemma Ingester_append_rejected i ctx sample i' err :
  Ingester_append i ctx sample = (i', Some err) →
  err = ErrDuplicateSampleForTimestamp ∨ err = ErrOutOfOrderSample →
  ∃ i1 state fp series state1,
    getStateFor i ctx = (i1, inr state) ∧
    getOrCreateSeries state (strip_empty (sample_Metric sample)) = (fp, series, state1) ∧
    (sample_Timestamp sample ≤ lastTime series)%Z ∧
    i' = discardedSamples_Inc
           (if (sample_Timestamp sample =? lastTime series)%Z
            then duplicateSample else outOfOrderTimestamp)
           (store_state state1 i1) ∧
    err = (if (sample_Timestamp sample =? lastTime series)%Z
           then ErrDuplicateSampleForTimestamp else ErrOutOfOrderSample).
Proof.
  intros Happ Herr. unfold Ingester_append in Happ.
  destruct (stopped i) eqn:Hstopped.
  { injection Happ as <- <-. by destruct Herr. }
  destruct (getStateFor i ctx) as [i1 [e|state]] eqn:Hstate.
  { injection Happ as <- <-. unfold getStateFor in Hstate.
    destruct ctx as [id|]; [|injection Hstate as <- <-; by destruct Herr].
    destruct (userStates i !! id); [done|].
    destruct newFPMapper; [|done].
    injection Hstate as <- <-. by destruct Herr. }
  destruct (getOrCreateSeries state _) as [[fp series] state1] eqn:Hseries.
  exists i1, state, fp, series, state1. split; [done|]. split; [done|].
  destruct (Z.eqb_spec (sample_Timestamp sample) (lastTime series)) as [Heq|Hne].
  { destruct (_ && _); simplify_eq. split_and!; [lia|done..]. }
  destruct (Z.ltb_spec (sample_Timestamp sample) (lastTime series)) as [Hlt|Hge].
  { simplify_eq. split_and!; [lia|done..]. }
  destruct (series_add _ _) as [series' [msg|]]; simplify_eq; by destruct Herr.
Qed.

End AppendProperties.

(** ** Range extraction and the flush path *)

Section FlushProperties.
Context `{Package}.

Lemma index_at_Ok {A} (l : list A) i x :
  index_at l i = Ok x → (0 ≤ i)%Z ∧ l !! Z.to_nat i = Some x.
Proof.
  unfold index_at. destruct (Z.leb_spec 0 i); [|done].
  destruct (l !! Z.to_nat i) eqn:Hl; [|done]. by intros [= ->].
Qed.

Lemma index_at_last {A} (l : list A) x :
  last l = Some x → index_at l (Z.of_nat (length l) - 1) = Ok x.
Proof.
  intros Hlast. unfold index_at.
  assert (length l ≠ 0)%nat by (by destruct l).
  rewrite last_lookup in Hlast.
  replace (Z.to_nat (Z.of_nat (length l) - 1)) with (pred (length l)) by lia.
  destruct (Z.leb_spec 0 (Z.of_nat (length l) - 1)); [|lia]. by rewrite Hlast.
Qed.

Lemma index_at_nil {A} i : index_at (@nil A) i = Panics (IndexOutOfRange i 0).
Proof. unfold index_at. by destruct (0 <=? i)%Z. Qed.

Lemma sort_Search_zero f : sort_Search 0 f = 0%nat.
Proof. reflexivity. Qed.

(** A series without chunks makes [samplesForRange] index [chunkDescs] at
    [len - 1 = -1]. *)
Lemma samplesForRange_no_chunks s from through :
  chunkDescs s = [] →
  samplesForRange s from through = Panics (IndexOutOfRange (-1) 0).
Proof. intros Hnil. unfold samplesForRange. rewrite Hnil. reflexivity. Qed.

Lemma marshal_chunks_frame i fp m chunks wireChunks i' r :
  marshal_chunks i fp m chunks wireChunks = (i', r) →
  cfg i' = cfg i ∧ chunkStore i' = chunkStore i ∧ userStates i' = userStates i ∧
  chunkStoreFailures i' = chunkStoreFailures i ∧ memoryChunks i' = memoryChunks i.
Proof.
  revert i wireChunks. induction chunks as [|cd chunks IH]; intros i wireChunks; simpl.
  { by intros [= <- <-]. }
  destruct (marshalToBuf (c cd)); [by intros [= <- <-]|].
  intros Hrest. by destruct (IH _ _ Hrest) as (-> & -> & -> & -> & ->).
Qed.

Lemma flushChunks_frame i ctx fp m chunks i' err :
  flushChunks i ctx fp m chunks = Ok (i', err) →
  cfg i' = cfg i ∧ userStates i' = userStates i ∧
  chunkStoreFailures i' = chunkStoreFailures i ∧ memoryChunks i' = memoryChunks i.
Proof.
  unfold flushChunks.
  destruct (marshal_chunks i fp m chunks []) as [i1 [e|wireChunks]] eqn:Hm;
    apply marshal_chunks_frame in Hm as (Hcfg & Hstore & Hus & Hf & Hmc).
  { by intros [= <- <-]. }
  destruct (chunkStore i1) as [store|]; [|done].
  destruct (Put store ctx wireChunks) as [store' e]. by intros [= <- <-].
Qed.

(** What the first locked region of [flushSeries] does to the series and
    which chunks it picks. *)
Lemma chunks_to_flush_spec config series immediate now series1 chunks :
  chunks_to_flush config series immediate now = Ok (series1, chunks) →
  metric series1 = metric series ∧
  length (chunkDescs series1) = length (chunkDescs series) ∧
  (∀ k, (S k < length (chunkDescs series))%nat →
        chunkDescs series1 !! k = chunkDescs series !! k) ∧
  (immediate || (MaxChunkAge config <? now - series_firstTime series)%Z = false →
   series1 = series) ∧
  (headChunkClosed series = true → headChunkClosed series1 = true) ∧
  chunks = take (if headChunkClosed series1 then length (chunkDescs series1)
                 else pred (length (chunkDescs series1))) (chunkDescs series1).
Proof.
  unfold chunks_to_flush.
  destruct (immediate || _) eqn:Hclose; simpl.
  - destruct (index_at _ _) as [head|] eqn:Hhead; [|done]. simpl.
    intros [= <- <-]. simpl. rewrite length_insert.
    split_and!; try done.
    + intros k Hk. apply list_lookup_insert_ne. lia.
    + by rewrite firstn_all2 by (rewrite length_insert; lia).
  - destruct (headChunkClosed series) eqn:Hclosed; simpl.
    + intros [= <- <-]. rewrite Hclosed.
      split_and!; try done. by rewrite firstn_all.
    + destruct (Z.leb_spec 0 (Z.of_nat (length (chunkDescs series)) - 1)); [|done].
      simpl. intros [= <- <-]. rewrite Hclosed.
      split_and!; try done. f_equal. lia.
Qed.

(** The flush has something to pick from every series that has a chunk. *)
Lemma chunks_to_flush_total config series immediate now :
  chunkDescs series ≠ [] →
  ∃ series1 chunks, chunks_to_flush config series immediate now = Ok (series1, chunks).
Proof.
  intros Hne. unfold chunks_to_flush.
  destruct (last (chunkDescs series)) as [head|] eqn:Hlast.
  2:{ apply last_None in Hlast. done. }
  assert (length (chunkDescs series) ≠ 0)%nat by (by destruct (chunkDescs series)).
  destruct (immediate || _); simpl.
  - rewrite (index_at_last _ head) by done. simpl. eauto.
  - destruct (headChunkClosed series); simpl; [eauto|].
    destruct (Z.leb_spec 0 (Z.of_nat (length (chunkDescs series)) - 1)); [|lia].
    simpl. eauto.
Qed.

(** A failed flush: the failure counter grows by the size of the batch, the
    error is returned, and the series stays as the first locked region left
    it, in the series map and in the index. *)
Lemma flushSeries_failed i ctx u fp series immediate now series1 chunks i1 err :
  chunks_to_flush (cfg i) series immediate now = Ok (series1, chunks) →
  chunks ≠ [] →
  flushChunks i ctx fp (metric series1) chunks = Ok (i1, Some err) →
  flushSeries i ctx u fp series immediate now =
    Ok (chunkStoreFailures_Add (Z.of_nat (length chunks)) i1,
        set_fpToSeries (<[fp := series1]> (fpToSeries u)) u, Some err).
Proof.
  intros Hpick Hne Hflush. unfold flushSeries. rewrite Hpick. simpl.
  destruct chunks as [|cd chunks]; [done|]. simpl length. cbn [Nat.eqb].
  by rewrite Hflush.
Qed.

(** A successful flush of a non-empty batch: the slice kept is
    [chunkDescs[len(chunks)-1:]], which still holds the last chunk of the
    batch, so the series is never emptied and never removed. *)
Lemma flushSeries_flushed i ctx u fp series immediate now series1 chunks i1 :
  chunks_to_flush (cfg i) series immediate now = Ok (series1, chunks) →
  chunks ≠ [] →
  flushChunks i ctx fp (metric series1) chunks = Ok (i1, None) →
  let kept := drop (length chunks - 1) (chunkDescs series1) in
  flushSeries i ctx u fp series immediate now =
    Ok (memoryChunks_Add (- Z.of_nat (length chunks)) i1,
        set_fpToSeries (<[fp := set_chunkDescs kept series1]> (fpToSeries u)) u,
        None) ∧
  head kept = last chunks ∧
  (length kept = length (chunkDescs series) - length chunks + 1)%nat.
Proof.
  intros Hpick Hne Hflush kept.
  destruct (chunks_to_flush_spec _ _ _ _ _ _ Hpick) as (_ & Hlen & _ & _ & _ & Htake).
  assert (chunks = take (length chunks) (chunkDescs series1)) as Hprefix.
  { set (n := if headChunkClosed series1 then _ else _) in Htake.
    assert (n ≤ length (chunkDescs series1))%nat
      by (unfold n; destruct (headChunkClosed series1); lia).
    replace (length chunks) with n; [done|].
    rewrite Htake, length_take. lia. }
  assert (length chunks ≤ length (chunkDescs series1))%nat as Hle.
  { rewrite Hprefix, length_take. lia. }
  assert (length chunks ≠ 0)%nat as Hpos by (by destruct chunks).
  assert (length kept = length (chunkDescs series) - length chunks + 1)%nat as Hkept.
  { unfold kept. rewrite length_drop. lia. }
  split_and!; [|..|done].
  - unfold flushSeries. rewrite Hpick. simpl.
    destruct (Nat.eqb_spec (length chunks) 0) as [|_]; [done|].
    rewrite Hflush. simpl. fold kept.
    destruct (Nat.eqb_spec (length kept) 0) as [Hz|_]; [lia|].
    by rewrite insert_insert_eq.
  - unfold kept. rewrite head_lookup, lookup_drop, Nat.add_0_r, last_lookup.
    replace (pred (length chunks)) with (length chunks - 1)%nat by lia.
    rewrite Hprefix at 3. by rewrite lookup_take_lt by lia.
Qed.

End FlushProperties.

(** ** The instance runs *)

Example test_appended_is_append :
  Ingester_append (test_ingester None) (Some "A") (test_sample 100 1)
  = (test_appended None, None).
Proof. vm_compute. reflexivity. Qed.

(** The series without chunks is within reach of the exported operations:
    the first sample of a new series, stamped [model.Earliest], is rejected
    as a duplicate after the series was registered, and a query that selects
    the series then panics in [samplesForRange]. *)
Example query_series_without_chunks :
  ∃ i, Ingester_append (test_ingester None) (Some "A") (test_sample Earliest 1)
         = (i, Some ErrDuplicateSampleForTimestamp) ∧
       Ingester_Query i (Some "A") 0 1000 [equal_matcher "job" "x"]
         = Panics (IndexOutOfRange (-1) 0).
Proof. eexists. split; vm_compute; reflexivity. Qed.

(** Scenario 1 of the specification: three samples of one series, and a
    query for the range [[150, 250]]. *)
Example query_single_series :
  ∃ i i',
    Ingester_Append (test_ingester None) (Some "A")
      [test_sample 100 1; test_sample 200 2; test_sample 300 3] = (i, None) ∧
    Ingester_Query i (Some "A") 150 250 [equal_matcher "job" "x"]
      = Ok (i', inr [ {| stream_Metric := test_metric;
                         stream_Values := [ {| pair_Timestamp := 200;
                                               pair_Value := 2%Z |} ] |} ]).
Proof. eexists _, _. split; vm_compute; reflexivity. Qed.

(** * The claims *)

(** ** C9: [merge] and [intersect] *)

(** C9 as the specification words it fails: for sorted duplicate-free lists that share a
    fingerprint, [merge] keeps both copies, so its result is not the
    duplicate-free union. *)
Lemma merge_union_refuted : ¬ merge_union_as_specified.
Proof.
  intros Hclaim.
  destruct (Hclaim [1%N] [1%N]) as (l & Hmerge & Hl & _).
  { repeat constructor. }
  { repeat constructor. }
  injection Hmerge as <-. simpl in Hl.
  apply strictly_sorted_NoDup in Hl. apply NoDup_cons in Hl as [Hin _].
  apply Hin. by left.
Qed.

(** C9, amended: for sorted duplicate-free [a] and [b], [merge] returns the
    sorted list of all elements of both (a permutation of [a ++ b]); when
    [a] and [b] share no fingerprint, as the code's comment assumes, this is
    their sorted duplicate-free union.  [intersect] with a non-nil first
    argument returns the sorted duplicate-free intersection, and
    [intersect(nil, b)] is [b]. *)
Theorem merge_intersect_sorted (a b : list Fingerprint) :
  strictly_sorted a → strictly_sorted b →
  (∃ l, merge (Some a) (Some b) = Some l ∧ sorted l ∧ l ≡ₚ a ++ b ∧
        ((∀ x, x ∈ a → x ∉ b) →
         strictly_sorted l ∧ ∀ x, x ∈ l ↔ x ∈ a ∨ x ∈ b)) ∧
  (∃ l, intersect (Some a) (Some b) = Some l ∧ strictly_sorted l ∧
        ∀ x, x ∈ l ↔ x ∈ a ∧ x ∈ b) ∧
  (∀ s, intersect None s = s).
Proof.
  intros Ha Hb. split_and!; [| |done].
  - exists (merge_loop a b). split_and!; [done| | |].
    + apply merge_loop_sorted; by apply strictly_sorted_sorted.
    + apply merge_loop_perm.
    + intros Hdisj. split; [by apply merge_loop_strictly_sorted|].
      intros x. apply merge_loop_elem_of.
  - exists (intersect_loop a b). split_and!; [done| |].
    + eapply strictly_sorted_sublist; [apply intersect_loop_sublist|done].
    + intros x. apply intersect_loop_elem_of; by apply strictly_sorted_sorted.
Qed.

Lemma merge_intersect_sorted_witness :
  strictly_sorted [1; 4; 6]%N ∧ strictly_sorted [2; 4; 9]%N ∧
  merge (Some [1; 4; 6]%N) (Some [2; 4; 9]%N) = Some [1; 2; 4; 4; 6; 9]%N ∧
  intersect (Some [1; 4; 6]%N) (Some [2; 4; 9]%N) = Some [4%N] ∧
  (∃ l, intersect (Some [1; 4; 6]%N) (Some [2; 4; 9]%N) = Some l ∧
        strictly_sorted l ∧ ∀ x, x ∈ l ↔ x ∈ [1; 4; 6]%N ∧ x ∈ [2; 4; 9]%N).
Proof.
  assert (strictly_sorted [1; 4; 6]%N) as Ha by (repeat constructor; lia).
  assert (strictly_sorted [2; 4; 9]%N) as Hb by (repeat constructor; lia).
  split_and!; [done|done|reflexivity|reflexivity|].
  exact (proj1 (proj2 (merge_intersect_sorted [1; 4; 6]%N [2; 4; 9]%N Ha Hb))).
Defined.

(** ** C4: the sort invariant of the index *)

(** C4 as the specification words it fails: [add] inserts [fp] without looking for it, so
    adding the same label set and fingerprint twice leaves [1; 1] in the
    list, which is not strictly sorted. *)
Lemma index_sort_invariant_refuted : ¬ index_sort_invariant_as_specified.
Proof.
  intros Hclaim.
  assert (run_calls newInvertedIndex
            [call_add test_metric 1%N; call_add test_metric 1%N]
          = Ok {[ "job" := {[ "x" := [1; 1]%N ]} ]}) as Hrun
    by (vm_compute; reflexivity).
  apply Hclaim in Hrun.
  assert (strictly_sorted [1; 1]%N) as Hl.
  { eapply (index_lists_lookup _ _ "job" _ "x" _ Hrun); apply lookup_singleton_eq. }
  apply strictly_sorted_NoDup, NoDup_cons in Hl as [Hin _].
  apply Hin. by left.
Qed.

(** C4, amended: after every sequence of [add] and [delete] calls that runs
    to its end, every per-value list is sorted in non-decreasing order; the
    lists are strictly sorted, hence duplicate-free, when every [add] is
    issued for a fingerprint that is in none of the lists it touches.
    [add] is not idempotent: a second [add] of the same label set and
    fingerprint stores the fingerprint a second time. *)
Theorem index_sort_invariant (calls : list index_call) (idx : invertedIndex) :
  run_calls newInvertedIndex calls = Ok idx →
  index_sorted idx ∧
  (adds_fresh newInvertedIndex calls → index_strictly_sorted idx) ∧
  (∀ m fp name value, m !! name = Some value →
     ¬ NoDup (stored (invertedIndex_add (invertedIndex_add idx m fp) m fp) name value)).
Proof.
  intros Hrun. split_and!.
  - eapply run_calls_sorted; [done|]. apply index_lists_empty.
  - intros Hfresh. eapply run_calls_strictly_sorted; [done..|].
    apply index_lists_empty.
  - intros m fp name value. apply invertedIndex_add_twice.
Qed.

Lemma index_sort_invariant_witness :
  run_calls newInvertedIndex test_calls = Ok test_calls_index ∧
  index_sorted test_calls_index ∧
  (adds_fresh newInvertedIndex test_calls → index_strictly_sorted test_calls_index).
Proof.
  assert (run_calls newInvertedIndex test_calls = Ok test_calls_index) as Hrun
    by (vm_compute; reflexivity).
  split; [exact Hrun|].
  destruct (index_sort_invariant test_calls test_calls_index Hrun)
    as (Hsorted & Hstrict & _).
  split; [exact Hsorted|exact Hstrict].
Defined.

(** ** C2: [delete] of a fingerprint that is not in the list *)

(** C2: deleting a fingerprint that is not in the list is specified as a
    no-op, and in the code it is not.  With [5] and [9] listed under
    [job=x], deleting the missing fingerprint [7] removes [9], the element
    the search stopped at, and deleting the missing fingerprint [10], where
    the search runs off the end, panics in [fingerprints[j+1:]].  A missing
    label name or value, by contrast, is skipped. *)
Theorem delete_missing_fingerprint :
  let idx : invertedIndex := {[ "job" := {[ "x" := [5; 9]%N ]} ]} in
  invertedIndex_delete idx test_metric 7%N = Ok {[ "job" := {[ "x" := [5%N] ]} ]} ∧
  invertedIndex_delete idx test_metric 10%N = Panics (SliceBoundsOutOfRange 3 2) ∧
  invertedIndex_delete idx {[ "job" := "y" ]} 7%N = Ok idx ∧
  invertedIndex_delete idx {[ "instance" := "x" ]} 7%N = Ok idx.
Proof. intros idx. split_and!; vm_compute; reflexivity. Qed.

(** ** C1: what a successful flush drops *)

(** C1: a successful flush is specified to drop every shipped chunk, so that
    [Stop] leaves every series map empty, and in the code it does not.
    Tenant [A] holds one series with one chunk; [Stop] flushes it
    immediately and the store accepts the batch.  The slice kept is
    [chunkDescs[len(chunks)-1:]], so the chunk that was shipped is still in
    the series, the series is still in the series map and in the index, and
    the tenant is still in the tenant map, while [memory_chunks] has gone
    down to zero. *)
Theorem stop_keeps_flushed_chunk :
  Ingester_Stop (test_appended None) 0 = Ok test_stopped.
Proof. vm_compute. reflexivity. Qed.

(** ** C5: [lookup] *)

(** C5: on an index whose lists are sorted and which lists exactly the
    label pairs of the series in [series], [lookup] returns a sorted list
    holding exactly the fingerprints of the series whose label set matches
    every matcher; it returns nil for no matchers and nothing when a matcher
    names a label the index does not have. *)
Theorem lookup_correct (idx : invertedIndex) (series : gmap N Metric)
    (matchers : list LabelMatcher) :
  index_sorted idx → index_represents idx series →
  sorted (elems (invertedIndex_lookup idx matchers)) ∧
  (matchers = [] → invertedIndex_lookup idx matchers = None) ∧
  ((∃ matcher, matcher ∈ matchers ∧ idx !! Name matcher = None) →
   elems (invertedIndex_lookup idx matchers) = []) ∧
  (matchers ≠ [] →
   ∀ fp, fp ∈ elems (invertedIndex_lookup idx matchers) ↔
         ∃ m, series !! fp = Some m ∧
              Forall (λ matcher, metric_matches matcher m) matchers).
Proof.
  intros Hidx Hrep. destruct matchers as [|matcher matchers].
  { split_and!; [constructor|done| |done].
    by intros (? & ?%elem_of_nil & _). }
  change (invertedIndex_lookup idx (matcher :: matchers))
    with (lookup_loop idx None (matcher :: matchers)).
  destruct (lookup_loop_None idx matcher matchers Hidx) as [Hsorted Helem].
  split_and!; [done|done| |].
  - intros (absent & Hin & Habsent).
    destruct (elems _) as [|x l] eqn:Hres; [done|].
    assert (Forall (λ matcher, matched idx matcher x) (matcher :: matchers)) as Hall.
    { apply Helem. by left. }
    rewrite Forall_forall in Hall.
    destruct (Hall _ Hin) as (? & ? & ? & ? & _). congruence.
  - intros _ fp. rewrite Helem. split.
    + intros Hall. pose proof Hall as Hall'.
      apply Forall_cons in Hall' as [Hm _].
      apply (matched_represents _ series) in Hm as (m & Hfp & _); [|done].
      exists m. split; [done|].
      eapply Forall_impl; [exact Hall|]. intros matcher' Hm'. simpl in Hm'.
      apply (matched_represents _ series) in Hm' as (m' & Hfp' & ?); [|done].
      congruence.
    + intros (m & Hfp & Hall). eapply Forall_impl; [exact Hall|].
      intros matcher' Hm'. simpl in Hm'. apply (matched_represents _ series); [done|].
      by exists m.
Qed.

Lemma lookup_correct_witness :
  index_sorted test_index ∧ index_represents test_index test_series_map ∧
  invertedIndex_lookup test_index test_matchers = Some [1%N] ∧
  (∀ fp, fp ∈ elems (invertedIndex_lookup test_index test_matchers) ↔
         ∃ m, test_series_map !! fp = Some m ∧
              Forall (λ matcher, metric_matches matcher m) test_matchers).
Proof.
  assert (index_sorted test_index) as Hsorted.
  { repeat apply invertedIndex_add_sorted. apply index_lists_empty. }
  assert (index_represents test_index test_series_map) as Hrep.
  { repeat apply index_represents_add;
      [apply index_represents_empty|reflexivity..]. }
  split_and!; [done|done|vm_compute; reflexivity|].
  apply (lookup_correct test_index test_series_map test_matchers Hsorted Hrep).
  discriminate.
Defined.

(** ** C3: range extraction on a series without chunks *)

(** C3: a series that [getOrCreateSeries] has just created is in the series
    map with no chunk, and [samplesForRange] on a series with no chunk
    indexes [chunkDescs] at [-1], for every range. *)
Theorem samplesForRange_empty_series `{Package} (u : userState) (m : Metric)
    (fp : Fingerprint) (series : memorySeries) (u' : userState)
    (from through : Time) :
  getOrCreateSeries u m = (fp, series, u') →
  fpToSeries u !! fp = None →
  fpToSeries u' !! fp = Some series ∧
  chunkDescs series = [] ∧
  samplesForRange series from through = Panics (IndexOutOfRange (-1) 0) ∧
  (∀ s, chunkDescs s = [] →
        samplesForRange s from through = Panics (IndexOutOfRange (-1) 0)).
Proof.
  intros Hget Hnew.
  destruct (getOrCreateSeries_registered _ _ _ _ _ Hget) as [_ Hreg].
  destruct (getOrCreateSeries_new _ _ _ _ _ Hget Hnew) as (-> & _ & _).
  split_and!; [done|done|by apply samplesForRange_no_chunks|].
  intros s. apply samplesForRange_no_chunks.
Qed.

Lemma samplesForRange_empty_series_witness :
  getOrCreateSeries test_empty_state test_metric
    = (1%N, newMemorySeries test_metric, test_created_state) ∧
  fpToSeries test_empty_state !! 1%N = None ∧
  fpToSeries test_created_state !! 1%N = Some (newMemorySeries test_metric) ∧
  @samplesForRange _ (test_package None) (newMemorySeries test_metric) 0 1000
    = Panics (IndexOutOfRange (-1) 0).
Proof.
  assert (getOrCreateSeries test_empty_state test_metric
          = (1%N, newMemorySeries test_metric, test_created_state)) as Hget
    by (vm_compute; reflexivity).
  assert (fpToSeries test_empty_state !! 1%N = None) as Hnew by reflexivity.
  split; [exact Hget|]. split; [exact Hnew|].
  destruct (samplesForRange_empty_series test_empty_state test_metric 1%N
              (newMemorySeries test_metric) test_created_state 0 1000 Hget Hnew)
    as (Hreg & _ & Hpanic & _).
  split; [exact Hreg|exact Hpanic].
Defined.

(** ** C6, C7, C10: samples that are not newer than the series *)

Section AppendClaims.
Context `{Package}.

(** C6: when the sample's timestamp equals the series' last time, [append]
    succeeds without counting the sample if the last value is set and equal
    to the sample's value; otherwise it returns
    [ErrDuplicateSampleForTimestamp] and increments the discard counter of
    reason [duplicateSample]. *)
Theorem append_same_timestamp (i : Ingester) (ctx : option string) (sample : Sample)
    (i1 : Ingester) (state : userState) (fp : Fingerprint) (series : memorySeries)
    (state1 : userState) :
  stopped i = false →
  getStateFor i ctx = (i1, inr state) →
  getOrCreateSeries state (strip_empty (sample_Metric sample)) = (fp, series, state1) →
  sample_Timestamp sample = lastTime series →
  if lastSampleValueSet series
     && SampleValue_Equal (sample_Value sample) (lastSampleValue series)
  then (Ingester_append i ctx sample).2 = None ∧
       ingestedSamples (Ingester_append i ctx sample).1 = ingestedSamples i ∧
       discardedSamples (Ingester_append i ctx sample).1 = discardedSamples i
  else (Ingester_append i ctx sample).2 = Some ErrDuplicateSampleForTimestamp ∧
       discarded (Ingester_append i ctx sample).1 duplicateSample
         = (discarded i duplicateSample + 1)%Z ∧
       discarded (Ingester_append i ctx sample).1 outOfOrderTimestamp
         = discarded i outOfOrderTimestamp ∧
       ingestedSamples (Ingester_append i ctx sample).1 = ingestedSamples i.
Proof.
  intros Hstopped Hstate Hseries Hts.
  rewrite (Ingester_append_resolved _ _ _ _ _ _ _ _ Hstopped Hstate Hseries).
  destruct (getStateFor_counters _ _ _ _ Hstate) as (Hing & Hdis & _).
  assert (∀ reason, discarded (store_state state1 i1) reason = discarded i reason)
    as Hdiscarded by (intros reason; unfold discarded; simpl; by rewrite Hdis).
  cbv zeta. rewrite Hts, Z.eqb_refl.
  destruct (_ && _); cbn [fst snd].
  - simpl. by rewrite Hing, Hdis.
  - rewrite !discarded_Inc, !Hdiscarded.
    rewrite decide_True, decide_False by done.
    split_and!; [done|done|lia|]. simpl. by rewrite Hing.
Qed.

Lemma Ingester_Append_accepted (ctx : option string) (i : Ingester)
    (samples : list Sample) (i' : Ingester) :
  appends_accepted ctx i samples i' → Ingester_Append i ctx samples = (i', None).
Proof.
  revert i. induction samples as [|sample samples IH]; intros i; simpl.
  - by intros ->.
  - intros (i1 & -> & Hrest). by apply IH.
Qed.

(** C7: a sample older than the series' last time makes [append] return
    [ErrOutOfOrderSample] and increment the discard counter of reason
    [outOfOrderTimestamp]; and [Append] on a batch runs [append] on the
    samples in order and stops at the first one that fails: after samples
    that [append] accepts one after the other, a failing sample ends the
    batch with its error and the state that call left, which is built on
    what the accepted samples did, whatever follows it in the batch; a batch
    of accepted samples returns nil and the state the last call left. *)
Theorem append_out_of_order (j : Ingester) (ctx : option string)
    (before : list Sample) (i : Ingester) (sample : Sample) (after : list Sample)
    (i1 : Ingester) (state : userState) (fp : Fingerprint) (series : memorySeries)
    (state1 : userState) :
  appends_accepted ctx j before i →
  stopped i = false →
  getStateFor i ctx = (i1, inr state) →
  getOrCreateSeries state (strip_empty (sample_Metric sample)) = (fp, series, state1) →
  (sample_Timestamp sample < lastTime series)%Z →
  (Ingester_append i ctx sample).2 = Some ErrOutOfOrderSample ∧
  discarded (Ingester_append i ctx sample).1 outOfOrderTimestamp
    = (discarded i outOfOrderTimestamp + 1)%Z ∧
  Ingester_Append j ctx (before ++ sample :: after)
    = ((Ingester_append i ctx sample).1, Some ErrOutOfOrderSample) ∧
  (∀ k accepted failing rest k1 k2 err,
     appends_accepted ctx k accepted k1 →
     Ingester_append k1 ctx failing = (k2, Some err) →
     Ingester_Append k ctx (accepted ++ failing :: rest) = (k2, Some err)) ∧
  (∀ k accepted k1,
     appends_accepted ctx k accepted k1 →
     Ingester_Append k ctx accepted = (k1, None)).
Proof.
  intros Hbefore Hstopped Hstate Hseries Hts.
  assert ((Ingester_append i ctx sample).2 = Some ErrOutOfOrderSample ∧
          discarded (Ingester_append i ctx sample).1 outOfOrderTimestamp
            = (discarded i outOfOrderTimestamp + 1)%Z) as [Herr Hcount].
  { rewrite (Ingester_append_resolved _ _ _ _ _ _ _ _ Hstopped Hstate Hseries).
    destruct (getStateFor_counters _ _ _ _ Hstate) as (_ & Hdis & _).
    cbv zeta.
    destruct (Z.eqb_spec (sample_Timestamp sample) (lastTime series)); [lia|].
    destruct (Z.ltb_spec (sample_Timestamp sample) (lastTime series)); [|lia].
    cbn [fst snd]. split; [done|].
    rewrite discarded_Inc, decide_True by done. unfold discarded. simpl.
    by rewrite Hdis. }
  split_and!; [done|done| | |].
  - apply (Ingester_Append_stops _ _ _ _ _ i); [by apply Ingester_Append_accepted|].
    destruct (Ingester_append i ctx sample) as [i' e]. simpl in Herr. by subst.
  - intros k accepted failing rest k1 k2 err Hacc Hfail.
    apply (Ingester_Append_stops _ _ _ _ _ k1); [by apply Ingester_Append_accepted|done].
  - intros k accepted k1. apply Ingester_Append_accepted.
Qed.

(** C10: when [append] returns [ErrDuplicateSampleForTimestamp] or
    [ErrOutOfOrderSample], nothing was written to the series: the series
    map still holds under [fp] the series that was examined, which for a
    series that existed before the call is the series as it was, with the
    tenant's series map and index as they were; [ingested_samples_total],
    [memory_chunks] and the other discard counter are unchanged, and the
    discard counter of the matching reason is incremented by one. *)
Theorem append_rejected_frame (i : Ingester) (ctx : option string) (sample : Sample)
    (i' : Ingester) (err : error) :
  Ingester_append i ctx sample = (i', Some err) →
  err = ErrDuplicateSampleForTimestamp ∨ err = ErrOutOfOrderSample →
  ∃ i1 state fp series state1,
    getStateFor i ctx = (i1, inr state) ∧
    getOrCreateSeries state (strip_empty (sample_Metric sample)) = (fp, series, state1) ∧
    userStates i' !! userID state = Some state1 ∧
    fpToSeries state1 !! fp = Some series ∧
    (∀ series0, fpToSeries state !! fp = Some series0 →
       series = series0 ∧ fpToSeries state1 = fpToSeries state ∧
       index state1 = index state) ∧
    ingestedSamples i' = ingestedSamples i ∧
    memoryChunks i' = memoryChunks i ∧
    chunkStoreFailures i' = chunkStoreFailures i ∧
    (∀ reason,
       discarded i' reason =
         (discarded i reason +
          if decide (reason = match err with
                              | ErrOutOfOrderSample => outOfOrderTimestamp
                              | _ => duplicateSample
                              end)
          then 1 else 0)%Z).
Proof.
  intros Happ Herr.
  destruct (Ingester_append_rejected _ _ _ _ _ Happ Herr)
    as (i1 & state & fp & series & state1 & Hstate & Hseries & Hle & -> & ->).
  exists i1, state, fp, series, state1.
  destruct (getStateFor_counters _ _ _ _ Hstate) as (Hing & Hdis & Hmc & Hcsf & _).
  destruct (getOrCreateSeries_registered _ _ _ _ _ Hseries) as [Hid Hreg].
  split_and!; try done.
  - simpl. rewrite <- Hid. apply lookup_insert_eq.
  - intros series0. apply (getOrCreateSeries_existing _ _ _ _ _ _ Hseries).
  - intros reason. rewrite discarded_Inc. unfold discarded at 1. simpl.
    rewrite Hdis. fold (discarded i reason).
    destruct (sample_Timestamp sample =? lastTime series)%Z;
      repeat case_decide; congruence.
Qed.

End AppendClaims.

Lemma append_same_timestamp_witness :
  stopped (test_appended None) = false ∧
  getStateFor (test_appended None) (Some "A")
    = (test_appended None, inr (test_state None)) ∧
  getOrCreateSeries (test_state None) (strip_empty (sample_Metric (test_sample 100 1)))
    = (1%N, test_series, test_state None) ∧
  sample_Timestamp (test_sample 100 1) = lastTime test_series ∧
  (Ingester_append (test_appended None) (Some "A") (test_sample 100 1)).2 = None ∧
  ingestedSamples
    (Ingester_append (test_appended None) (Some "A") (test_sample 100 1)).1 = 1%Z ∧
  (Ingester_append (test_appended None) (Some "A") (test_sample 100 2)).2
    = Some ErrDuplicateSampleForTimestamp ∧
  discarded (Ingester_append (test_appended None) (Some "A") (test_sample 100 2)).1
    duplicateSample = 1%Z.
Proof.
  assert (stopped (test_appended None) = false) as H1 by reflexivity.
  assert (getStateFor (test_appended None) (Some "A")
          = (test_appended None, inr (test_state None))) as H2 by reflexivity.
  assert (∀ v, getOrCreateSeries (test_state None)
                 (strip_empty (sample_Metric (test_sample 100 v)))
               = (1%N, test_series, test_state None)) as H3
    by (intros v; vm_compute; reflexivity).
  assert (∀ v, sample_Timestamp (test_sample 100 v) = lastTime test_series) as H4
    by reflexivity.
  pose proof (append_same_timestamp (test_appended None) (Some "A") (test_sample 100 1)
                _ _ _ _ _ H1 H2 (H3 1%Z) (H4 1%Z)) as (Ha & Hb & _).
  pose proof (append_same_timestamp (test_appended None) (Some "A") (test_sample 100 2)
                _ _ _ _ _ H1 H2 (H3 2%Z) (H4 2%Z)) as (Hc & Hd & _).
  split_and!; [exact H1|exact H2|exact (H3 1%Z)|exact (H4 1%Z)|
               exact Ha|exact Hb|exact Hc|exact Hd].
Defined.

Lemma append_out_of_order_witness :
  appends_accepted (Some "A") (test_ingester None) [test_sample 100 1]
    (test_appended None) ∧
  stopped (test_appended None) = false ∧
  getStateFor (test_appended None) (Some "A")
    = (test_appended None, inr (test_state None)) ∧
  getOrCreateSeries (test_state None) (strip_empty (sample_Metric (test_sample 50 2)))
    = (1%N, test_series, test_state None) ∧
  (sample_Timestamp (test_sample 50 2) < lastTime test_series)%Z ∧
  (Ingester_append (test_appended None) (Some "A") (test_sample 50 2)).2
    = Some ErrOutOfOrderSample ∧
  discarded (Ingester_append (test_appended None) (Some "A") (test_sample 50 2)).1
    outOfOrderTimestamp = 1%Z ∧
  Ingester_Append (test_ingester None) (Some "A")
    ([test_sample 100 1] ++ test_sample 50 2 :: [test_sample 200 3])
  = ((Ingester_append (test_appended None) (Some "A") (test_sample 50 2)).1,
     Some ErrOutOfOrderSample) ∧
  ingestedSamples
    (Ingester_Append (test_ingester None) (Some "A")
       ([test_sample 100 1] ++ test_sample 50 2 :: [test_sample 200 3])).1 = 1%Z.
Proof.
  assert (appends_accepted (Some "A") (test_ingester None) [test_sample 100 1]
            (test_appended None)) as H0.
  { exists (test_appended None). split; [vm_compute; reflexivity|reflexivity]. }
  assert (stopped (test_appended None) = false) as H1 by reflexivity.
  assert (getStateFor (test_appended None) (Some "A")
          = (test_appended None, inr (test_state None))) as H2 by reflexivity.
  assert (getOrCreateSeries (test_state None)
            (strip_empty (sample_Metric (test_sample 50 2)))
          = (1%N, test_series, test_state None)) as H3 by (vm_compute; reflexivity).
  assert (sample_Timestamp (test_sample 50 2) < lastTime test_series)%Z as H4
    by (simpl; lia).
  pose proof (append_out_of_order (test_ingester None) (Some "A") [test_sample 100 1]
                (test_appended None) (test_sample 50 2) [test_sample 200 3]
                _ _ _ _ _ H0 H1 H2 H3 H4) as (Ha & Hb & Hc & _).
  split_and!; [exact H0|exact H1|exact H2|exact H3|exact H4|exact Ha|exact Hb|exact Hc|].
  rewrite Hc. vm_compute. reflexivity.
Defined.

Lemma append_rejected_frame_witness :
  Ingester_append (test_appended None) (Some "A") (test_sample 50 2)
    = ((Ingester_append (test_appended None) (Some "A") (test_sample 50 2)).1,
       Some ErrOutOfOrderSample) ∧
  (ErrOutOfOrderSample = ErrDuplicateSampleForTimestamp
   ∨ ErrOutOfOrderSample = ErrOutOfOrderSample) ∧
  ∃ state1,
    userStates (Ingester_append (test_appended None) (Some "A") (test_sample 50 2)).1
      !! "A" = Some state1 ∧
    fpToSeries state1 !! 1%N = Some test_series ∧
    memoryChunks (Ingester_append (test_appended None) (Some "A") (test_sample 50 2)).1
      = 1%Z.
Proof.
  assert (Ingester_append (test_appended None) (Some "A") (test_sample 50 2)
          = ((Ingester_append (test_appended None) (Some "A") (test_sample 50 2)).1,
             Some ErrOutOfOrderSample)) as H1 by (vm_compute; reflexivity).
  assert (ErrOutOfOrderSample = ErrDuplicateSampleForTimestamp
          ∨ ErrOutOfOrderSample = ErrOutOfOrderSample) as H2 by (right; reflexivity).
  split; [exact H1|]. split; [exact H2|].
  destruct (append_rejected_frame _ _ _ _ _ H1 H2)
    as (i1 & state & fp & series & state1 & Hstate & Hseries & Hus & Hreg & _ & _ & Hmc & _).
  assert (getStateFor (test_appended None) (Some "A")
          = (test_appended None, inr (test_state None))) as Hstate' by reflexivity.
  rewrite Hstate' in Hstate. injection Hstate as <- <-.
  assert (getOrCreateSeries (test_state None)
            (strip_empty (sample_Metric (test_sample 50 2)))
          = (1%N, test_series, test_state None)) as Hseries'
    by (vm_compute; reflexivity).
  rewrite Hseries' in Hseries. injection Hseries as <- <- <-.
  exists (test_state None). split; [exact Hus|]. split; [exact Hreg|exact Hmc].
Defined.

(** ** C8: a flush that fails *)

(** C8: when the batch picked for a series is not empty and marshalling or
    the store's [Put] fails, [flushSeries] returns that error and adds the
    size of the batch to [chunk_store_failures_total]; the series stays in
    the series map as the first locked region left it, with as many chunks
    as before and every chunk but the head untouched (all of them when the
    head was not closed by this call), the index and the other series are
    left alone, and [memory_chunks] is unchanged; the next flush of the
    series picks a batch that is at least as long. *)
Theorem flushSeries_failure `{Package} (i : Ingester) (ctx : option string)
    (u : userState) (fp : Fingerprint) (series : memorySeries) (immediate : bool)
    (now : Time) (series1 : memorySeries) (chunks : list chunkDesc)
    (i1 : Ingester) (err : error) :
  chunks_to_flush (cfg i) series immediate now = Ok (series1, chunks) →
  chunks ≠ [] →
  flushChunks i ctx fp (metric series1) chunks = Ok (i1, Some err) →
  ∃ i' u',
    flushSeries i ctx u fp series immediate now = Ok (i', u', Some err) ∧
    chunkStoreFailures i' = (chunkStoreFailures i + Z.of_nat (length chunks))%Z ∧
    memoryChunks i' = memoryChunks i ∧
    fpToSeries u' !! fp = Some series1 ∧
    (∀ fp', fp' ≠ fp → fpToSeries u' !! fp' = fpToSeries u !! fp') ∧
    index u' = index u ∧
    length (chunkDescs series1) = length (chunkDescs series) ∧
    (∀ k, (S k < length (chunkDescs series))%nat →
          chunkDescs series1 !! k = chunkDescs series !! k) ∧
    (immediate || (MaxChunkAge (cfg i) <? now - series_firstTime series)%Z = false →
     series1 = series) ∧
    (∀ immediate' now', ∃ series2 chunks',
        chunks_to_flush (cfg i') series1 immediate' now' = Ok (series2, chunks') ∧
        (length chunks ≤ length chunks')%nat).
Proof.
  intros Hpick Hne Hflush.
  pose proof (flushSeries_failed i ctx u fp _ _ _ _ _ _ _ Hpick Hne Hflush) as Hrun.
  destruct (flushChunks_frame _ _ _ _ _ _ _ Hflush) as (Hcfg & _ & Hcsf & Hmc).
  destruct (chunks_to_flush_spec _ _ _ _ _ _ Hpick)
    as (_ & Hlen & Hrest & Hsame & _ & Htake).
  eexists _, _. split; [exact Hrun|]. simpl.
  split_and!; try done.
  - by rewrite Hcsf.
  - apply lookup_insert_eq.
  - intros fp' Hfp'. by apply lookup_insert_ne.
  - intros immediate' now'.
    assert (chunkDescs series1 ≠ []) as Hcds.
    { intros Hnil. rewrite Hnil, take_nil in Htake. done. }
    destruct (chunks_to_flush_total (cfg i1) series1 immediate' now' Hcds)
      as (series2 & chunks' & Hpick').
    exists series2, chunks'. split; [done|].
    destruct (chunks_to_flush_spec _ _ _ _ _ _ Hpick')
      as (_ & Hlen' & _ & _ & Hclosed & Htake').
    rewrite Htake, Htake', !length_take, Hlen'.
    destruct (headChunkClosed series1); [rewrite Hclosed by done; lia|].
    destruct (headChunkClosed series2); lia.
Qed.

Lemma flushSeries_failure_witness :
  @chunks_to_flush _ (test_package (Some test_refused))
    (cfg (test_appended (Some test_refused))) test_series true 0
    = Ok (test_flushed_series, [test_flushed_chunkDesc]) ∧
  [test_flushed_chunkDesc] ≠ [] ∧
  flushChunks (test_appended (Some test_refused)) (Some "A") 1%N
    (metric test_flushed_series) [test_flushed_chunkDesc]
    = Ok (test_marshalled, Some (ErrExternal test_refused)) ∧
  ∃ i' u',
    flushSeries (test_appended (Some test_refused)) (Some "A")
      (test_state (Some test_refused)) 1%N test_series true 0
      = Ok (i', u', Some (ErrExternal test_refused)) ∧
    chunkStoreFailures i' = 1%Z ∧
    fpToSeries u' !! 1%N = Some test_flushed_series.
Proof.
  assert (@chunks_to_flush _ (test_package (Some test_refused))
            (cfg (test_appended (Some test_refused))) test_series true 0
          = Ok (test_flushed_series, [test_flushed_chunkDesc])) as H1
    by (vm_compute; reflexivity).
  assert ([test_flushed_chunkDesc] ≠ []) as H2 by discriminate.
  assert (flushChunks (test_appended (Some test_refused)) (Some "A") 1%N
            (metric test_flushed_series) [test_flushed_chunkDesc]
          = Ok (test_marshalled, Some (ErrExternal test_refused))) as H3
    by (vm_compute; reflexivity).
  split; [exact H1|]. split; [exact H2|]. split; [exact H3|].
  destruct (flushSeries_failure (test_appended (Some test_refused)) (Some "A")
              (test_state (Some test_refused)) 1%N test_series true 0
              _ _ _ _ H1 H2 H3)
    as (i' & u' & Hrun & Hcsf & _ & Hreg & _).
  exists i', u'. split; [exact Hrun|]. split; [exact Hcsf|exact Hreg].
Defined.

(** * Further properties of the code *)

(** ** The index: round trip, pruning, label values, order of the range *)

Lemma add_delete_fingerprint l fp :
  sorted l → delete_fingerprint (add_fingerprint l fp) fp = Ok l.
Proof.
  intros Hl.
  destruct (delete_fingerprint_present (add_fingerprint l fp) fp)
    as (l' & Hdel & Hperm).
  { by apply add_fingerprint_sorted. }
  { apply add_fingerprint_elem_of. by left. }
  rewrite Hdel. f_equal.
  rewrite add_fingerprint_perm in Hperm. apply Permutation_cons_inv in Hperm.
  apply (StronglySorted_unique N.le); [|done|done].
  eapply sorted_sublist; [by eapply delete_fingerprint_sublist|].
  by apply add_fingerprint_sorted.
Qed.

Lemma add_step_insert fp idx name value :
  add_step fp idx (name, value) =
    <[name := <[value := add_fingerprint (stored idx name value) fp]>
                (default ∅ (idx !! name))]> idx.
Proof. reflexivity. Qed.

Lemma add_step_commute fp idx n v n' v' :
  n ≠ n' →
  add_step fp (add_step fp idx (n, v)) (n', v') =
  add_step fp (add_step fp idx (n', v')) (n, v).
Proof.
  intros Hne. rewrite !add_step_insert. unfold stored.
  rewrite !lookup_insert_ne by done. by apply insert_insert_ne.
Qed.

Lemma add_entries_commute_step fp idx n v entries :
  n ∉ entries.*1 →
  add_entries (add_step fp idx (n, v)) entries fp =
  add_step fp (add_entries idx entries fp) (n, v).
Proof.
  revert idx. induction entries as [|[n' v'] entries IH]; intros idx Hn; [done|].
  apply not_elem_of_cons in Hn as [Hne Hn]. simpl in Hne.
  change (add_entries ?i ((n', v') :: entries) fp)
    with (add_entries (add_step fp i (n', v')) entries fp).
  rewrite add_step_commute by done. by apply IH.
Qed.

Lemma add_entries_pruned idx entries fp :
  index_pruned idx → index_pruned (add_entries idx entries fp).
Proof.
  revert idx. induction entries as [|entry entries IH]; intros idx Hidx; [done|].
  apply IH. by apply add_step_pruned.
Qed.

Lemma add_delete_step fp idx name value :
  index_sorted idx → index_pruned idx →
  delete_step fp (add_step fp idx (name, value)) (name, value) = Ok idx.
Proof.
  intros Hsorted Hpruned. rewrite add_step_insert. unfold delete_step.
  rewrite !lookup_insert_eq.
  rewrite add_delete_fingerprint by (apply (stored_lists sorted); [constructor|done]).
  simpl. f_equal. unfold stored.
  destruct (idx !! name) as [values|] eqn:Hn; simpl.
  - destruct (Hpruned _ _ Hn) as [Hne Hvalues].
    assert ((if (length (default [] (values !! value)) =? 0)%nat
             then delete value (<[value := add_fingerprint (default [] (values !! value)) fp]> values)
             else <[value := default [] (values !! value)]>
                    (<[value := add_fingerprint (default [] (values !! value)) fp]> values))
            = values) as ->.
    { destruct (values !! value) as [l|] eqn:Hv; simpl.
      - destruct l as [|x l]; [by destruct (Hvalues _ _ Hv)|]. simpl.
        rewrite insert_insert_eq. by apply insert_id.
      - rewrite delete_insert_eq. by apply delete_id. }
    destruct (Nat.eqb_spec (size values) 0) as [Hsize|_].
    + by apply map_size_empty_iff in Hsize.
    + rewrite insert_insert_eq. by apply insert_id.
  - rewrite lookup_empty. simpl. rewrite delete_insert_eq, delete_empty.
    rewrite map_size_empty. simpl. rewrite delete_insert_eq. by apply delete_id.
Qed.

Lemma add_delete_entries fp idx entries :
  NoDup entries.*1 → index_sorted idx → index_pruned idx →
  delete_entries (add_entries idx entries fp) entries fp = Ok idx.
Proof.
  revert idx. induction entries as [|[n v] entries IH]; intros idx Hnd Hs Hp; [done|].
  apply NoDup_cons in Hnd as [Hn Hnd]. simpl in Hn.
  change (add_entries idx ((n, v) :: entries) fp)
    with (add_entries (add_step fp idx (n, v)) entries fp).
  rewrite add_entries_commute_step by done. cbn [delete_entries].
  rewrite add_delete_step by (by apply add_entries_sorted || by apply add_entries_pruned).
  simpl. by apply IH.
Qed.

Lemma index_pruned_empty : index_pruned newInvertedIndex.
Proof. apply map_Forall_empty. Qed.

Lemma run_calls_pruned idx calls idx' :
  run_calls idx calls = Ok idx' → index_pruned idx → index_pruned idx'.
Proof.
  revert idx. induction calls as [|[m fp|m fp] calls IH]; intros idx; simpl.
  - by intros [= <-].
  - intros Hrun Hidx. eapply IH; [done|]. by apply invertedIndex_add_pruned.
  - destruct (invertedIndex_delete idx m fp) as [idx1|] eqn:Hdel; [|done]. simpl.
    intros Hrun Hidx. eapply IH; [done|]. by eapply delete_entries_pruned.
Qed.

(** X1.  On an index whose lists are sorted and that holds no empty list
    or map, [delete] undoes [add]: adding a label set under a fingerprint
    and deleting the same label set and fingerprint gives the index back. *)
Theorem add_delete_roundtrip (idx : invertedIndex) (m : Metric) (fp : Fingerprint) :
  index_sorted idx → index_pruned idx →
  invertedIndex_delete (invertedIndex_add idx m fp) m fp = Ok idx.
Proof. intros. apply add_delete_entries; [apply NoDup_fst_map_to_list|done..]. Qed.

Lemma add_delete_roundtrip_witness :
  index_sorted test_calls_index ∧ index_pruned test_calls_index ∧
  invertedIndex_delete (invertedIndex_add test_calls_index test_s1 4) test_s1 4
    = Ok test_calls_index.
Proof.
  assert (index_sorted test_calls_index) as Hs.
  { apply (run_calls_sorted newInvertedIndex test_calls);
      [vm_compute; reflexivity|apply index_lists_empty]. }
  assert (index_pruned test_calls_index) as Hp.
  { apply (run_calls_pruned newInvertedIndex test_calls);
      [vm_compute; reflexivity|apply index_pruned_empty]. }
  split; [exact Hs|]. split; [exact Hp|].
  exact (add_delete_roundtrip test_calls_index test_s1 4 Hs Hp).
Defined.

(** X2.  Whatever sequence of [add] and [delete] calls has run on a new
    index, no name is left with an empty value map and no value with an
    empty fingerprint list. *)
Theorem index_pruned_invariant (calls : list index_call) (idx : invertedIndex) :
  run_calls newInvertedIndex calls = Ok idx →
  ∀ name values, idx !! name = Some values →
    values ≠ ∅ ∧ ∀ value l, values !! value = Some l → l ≠ [].
Proof.
  intros Hrun name values Hn.
  destruct (run_calls_pruned _ _ _ Hrun index_pruned_empty _ _ Hn) as [Hne Hall].
  split; [done|]. intros value l Hv. exact (Hall _ _ Hv).
Qed.

Lemma index_pruned_invariant_witness :
  run_calls newInvertedIndex test_calls = Ok test_calls_index ∧
  ∀ name values, test_calls_index !! name = Some values →
    values ≠ ∅ ∧ ∀ value l, values !! value = Some l → l ≠ [].
Proof.
  assert (run_calls newInvertedIndex test_calls = Ok test_calls_index) as Hrun
    by (vm_compute; reflexivity).
  split; [exact Hrun|].
  exact (index_pruned_invariant test_calls test_calls_index Hrun).
Defined.

Lemma lookupLabelValues_spec (idx : invertedIndex) (series : gmap N Metric)
    (name : LabelName) :
  index_pruned idx → index_represents idx series →
  match invertedIndex_lookupLabelValues idx name with
  | None => ∀ fp m, series !! fp = Some m → m !! name = None
  | Some values =>
      values ≠ [] ∧ NoDup values ∧
      ∀ value, value ∈ values ↔ ∃ fp m, series !! fp = Some m ∧ m !! name = Some value
  end.
Proof.
  intros Hpruned Hrep. unfold invertedIndex_lookupLabelValues.
  destruct (idx !! name) as [values|] eqn:Hn.
  - split_and!; [|apply NoDup_fst_map_to_list|].
    { destruct (Hpruned _ _ Hn) as [Hne _]. intros Hnil.
      apply fmap_nil_inv, map_to_list_empty_iff in Hnil. by apply Hne. }
    intros value. rewrite list_elem_of_fmap. split.
    + intros ([v l] & -> & Hin%elem_of_map_to_list). simpl.
      destruct (Hpruned _ _ Hn) as [_ Hall].
      destruct l as [|fp l]; [by destruct (Hall _ _ Hin)|].
      destruct (Hrep name v fp) as [Hto _].
      destruct Hto as (m & ? & ?); [|by exists fp, m].
      exists values, (fp :: l). split_and!; [done..|by left].
    + intros (fp & m & Hfp & Hm).
      destruct (Hrep name value fp) as [_ Hfrom].
      destruct Hfrom as (values' & fps & Hn' & Hv & _); [by exists m|].
      rewrite Hn in Hn'. injection Hn' as <-.
      exists (value, fps). split; [done|]. by apply elem_of_map_to_list.
  - intros fp m Hfp. destruct (m !! name) as [value|] eqn:Hm; [|done].
    destruct (Hrep name value fp) as [_ Hfrom].
    destruct Hfrom as (values & ? & Hn' & _); [by exists m|]. congruence.
Qed.

(** X3.  On an index that is in step with the series and holds no empty
    list, [lookupLabelValues] returns nil exactly when no series carries the
    label name: a nil result means that no series carries it, and any other
    result is a non-empty list, of the values that some series carries under
    that name, each once, so that some series does carry the name. *)
Theorem lookupLabelValues_correct (idx : invertedIndex) (series : gmap N Metric)
    (name : LabelName) :
  index_pruned idx → index_represents idx series →
  match invertedIndex_lookupLabelValues idx name with
  | None => ∀ fp m, series !! fp = Some m → m !! name = None
  | Some values =>
      values ≠ [] ∧ NoDup values ∧
      ∀ value, value ∈ values ↔ ∃ fp m, series !! fp = Some m ∧ m !! name = Some value
  end.
Proof. apply lookupLabelValues_spec. Qed.

Lemma index_pruned_test_index : index_pruned test_index.
Proof. repeat apply invertedIndex_add_pruned. apply index_pruned_empty. Qed.

Lemma index_represents_test_index : index_represents test_index test_series_map.
Proof.
  repeat apply index_represents_add; [apply index_represents_empty|reflexivity..].
Qed.

Lemma lookupLabelValues_correct_witness :
  index_pruned test_index ∧ index_represents test_index test_series_map ∧
  ∃ values, invertedIndex_lookupLabelValues test_index "job" = Some values ∧
    values ≠ [] ∧ NoDup values ∧
    ∀ value, value ∈ values ↔
      ∃ fp m, test_series_map !! fp = Some m ∧ m !! "job" = Some value.
Proof.
  split; [exact index_pruned_test_index|].
  split; [exact index_represents_test_index|].
  pose proof (lookupLabelValues_correct test_index test_series_map "job"
                index_pruned_test_index index_represents_test_index) as Hvalues.
  destruct (invertedIndex_lookupLabelValues test_index "job") as [values|] eqn:Hl.
  - exists values. split; [reflexivity|exact Hvalues].
  - exfalso. vm_compute in Hl. discriminate Hl.
Defined.

(** *** The order of the range *)

Lemma matching_fps_perm matcher kvs kvs' :
  kvs ≡ₚ kvs' → matching_fps matcher kvs ≡ₚ matching_fps matcher kvs'.
Proof.
  induction 1 as [|[v l] kvs kvs' _ IH|[v l] [v' l'] kvs|kvs1 kvs2 kvs3 _ IH1 _ IH2].
  - done.
  - simpl. by rewrite IH.
  - simpl. rewrite !app_assoc. f_equiv. apply Permutation_app_comm.
  - by rewrite IH1.
Qed.

Lemma union_fold_perm matcher kvs acc :
  elems (foldl (union_step matcher) acc kvs) ≡ₚ elems acc ++ matching_fps matcher kvs.
Proof.
  revert acc. induction kvs as [|[v l] kvs IH]; intros acc; simpl.
  { by rewrite app_nil_r. }
  rewrite IH. destruct (Match matcher v); simpl; [|done].
  by rewrite merge_loop_perm, app_assoc.
Qed.

Lemma union_fold_None matcher kvs acc :
  foldl (union_step matcher) acc kvs = None ↔
  acc = None ∧ Forall (λ kv, Match matcher kv.1 = false) kvs.
Proof.
  revert acc. induction kvs as [|[v l] kvs IH]; intros acc; simpl.
  { split; [by intros ->|by intros [-> _]]. }
  rewrite IH, Forall_cons. simpl. destruct (Match matcher v); [|tauto].
  unfold merge. split; [by intros [? _]|by intros [_ [? _]]].
Qed.

(** X4.  The union that [lookup] builds for a matcher does not depend on
    the order in which the range visits the values of the name: two
    enumerations of the same entries, with sorted lists, give the same
    slice. *)
Theorem union_matching_order (matcher : LabelMatcher)
    (kvs kvs' : list (LabelValue * list Fingerprint)) :
  kvs ≡ₚ kvs' → Forall (λ kv, sorted kv.2) kvs →
  union_matching matcher kvs = union_matching matcher kvs'.
Proof.
  intros Hperm Hsorted. unfold union_matching.
  assert (Forall (λ kv : string * list N, sorted kv.2) kvs') as Hsorted'
    by by rewrite <- Hperm.
  destruct (union_step_fold matcher kvs None) as [Hs _]; [constructor|done|].
  destruct (union_step_fold matcher kvs' None) as [Hs' _]; [constructor|done|].
  pose proof (union_fold_perm matcher kvs None) as Hp.
  pose proof (union_fold_perm matcher kvs' None) as Hp'.
  pose proof (union_fold_None matcher kvs None) as Hn.
  pose proof (union_fold_None matcher kvs' None) as Hn'.
  destruct (foldl _ None kvs) as [l|], (foldl _ None kvs') as [l'|]; simpl in *.
  - f_equal. apply (StronglySorted_unique N.le); [done..|].
    by rewrite Hp, Hp', (matching_fps_perm _ _ _ Hperm).
  - destruct Hn' as [[_ Hall] _]; [done|]. rewrite <- Hperm in Hall.
    destruct Hn as [_ Hn]. by rewrite Hn.
  - destruct Hn as [[_ Hall] _]; [done|]. rewrite Hperm in Hall.
    destruct Hn' as [_ Hn']. by rewrite Hn'.
  - done.
Qed.

Lemma union_matching_order_witness :
  [("a", [1; 2]%N); ("b", [3%N])] ≡ₚ [("b", [3%N]); ("a", [1; 2]%N)] ∧
  Forall (λ kv : string * list N, sorted kv.2) [("a", [1; 2]%N); ("b", [3%N])] ∧
  union_matching (equal_matcher "job" "a") [("a", [1; 2]%N); ("b", [3%N])]
  = union_matching (equal_matcher "job" "a") [("b", [3%N]); ("a", [1; 2]%N)].
Proof.
  assert ([("a", [1; 2]%N); ("b", [3%N])] ≡ₚ [("b", [3%N]); ("a", [1; 2]%N)]) as Hp
    by apply Permutation_swap.
  assert (Forall (λ kv : string * list N, sorted kv.2)
            [("a", [1; 2]%N); ("b", [3%N])]) as Hs.
  { repeat constructor; simpl; lia. }
  split; [exact Hp|]. split; [exact Hs|].
  exact (union_matching_order (equal_matcher "job" "a") _ _ Hp Hs).
Defined.

Lemma add_entries_perm idx entries entries' fp :
  entries ≡ₚ entries' → NoDup entries.*1 →
  add_entries idx entries fp = add_entries idx entries' fp.
Proof.
  intros Hperm. revert idx.
  induction Hperm as [|[n v] es es' Hp IH|[n v] [n' v'] es|es1 es2 es3 Hp1 IH1 Hp2 IH2];
    intros idx Hnd.
  - done.
  - apply NoDup_cons in Hnd as [_ Hnd]. by apply IH.
  - apply NoDup_cons in Hnd as [Hne _]. simpl in Hne.
    apply not_elem_of_cons in Hne as [Hne _].
    unfold add_entries. cbn [foldl]. by rewrite add_step_commute.
  - rewrite IH1 by done. apply IH2. by rewrite <- Hp1.
Qed.

(** X5.  [add] does not depend on the order in which the range visits the
    labels of the metric: every enumeration of the label set gives the same
    index. *)
Theorem invertedIndex_add_order (idx : invertedIndex) (m : Metric)
    (entries : list (LabelName * LabelValue)) (fp : Fingerprint) :
  entries ≡ₚ map_to_list m →
  add_entries idx entries fp = invertedIndex_add idx m fp.
Proof.
  intros Hperm. apply add_entries_perm; [done|].
  rewrite Hperm. apply NoDup_fst_map_to_list.
Qed.

Lemma invertedIndex_add_order_witness :
  [("job", "a"); ("inst", "1")] ≡ₚ map_to_list test_s1 ∧
  add_entries newInvertedIndex [("job", "a"); ("inst", "1")] 1
  = invertedIndex_add newInvertedIndex test_s1 1.
Proof.
  assert ([("job", "a"); ("inst", "1")] ≡ₚ map_to_list test_s1) as Hp.
  { first
      [ replace (map_to_list test_s1) with [("job", "a"); ("inst", "1")]
          by (vm_compute; reflexivity); reflexivity
      | replace (map_to_list test_s1) with [("inst", "1"); ("job", "a")]
          by (vm_compute; reflexivity); apply Permutation_swap ]. }
  split; [exact Hp|].
  exact (invertedIndex_add_order newInvertedIndex test_s1 _ 1 Hp).
Defined.

(** ** Tenants and series *)

Section TenantProperties.
Context `{Package}.

Lemma getStateFor_spec (i : Ingester) (ctx : option string) (i1 : Ingester)
    (r : error + userState) :
  getStateFor i ctx = (i1, r) →
  match r with
  | inl _ => i1 = i
  | inr state =>
      getStateFor i1 ctx = (i1, inr state) ∧
      ∃ id, ctx = Some id ∧ userStates i1 !! id = Some state ∧
            ∀ id', id' ≠ id → userStates i1 !! id' = userStates i !! id'
  end.
Proof.
  unfold getStateFor. destruct ctx as [id|]; [|by intros [= <- <-]].
  destruct (userStates i !! id) as [state|] eqn:Hid.
  - intros [= <- <-]. rewrite Hid. split; [done|]. by exists id.
  - destruct newFPMapper as [msg|mp]; intros [= <- <-]; [done|].
    simpl. rewrite lookup_insert_eq. split; [done|]. exists id.
    split_and!; [done|apply lookup_insert_eq|].
    intros id' Hne. by apply lookup_insert_ne.
Qed.

(** X6.  [getStateFor] changes the ingester only by registering a tenant
    that was not there.  When it fails (no user id, no mapper) the ingester
    is unchanged.  When the tenant is held already its state is returned and
    the ingester is unchanged.  Otherwise the state returned is a new one,
    with the tenant's id, no series, an empty index and the mapper
    [newFPMapper] gave, and the ingester afterwards is the one before with
    that state stored under the id: every other tenant, the configuration,
    the store, the stopped flag and every counter and gauge are as before.
    Asking a second time returns the same state and changes nothing. *)
Theorem getStateFor_stable (i : Ingester) (ctx : option string) (i1 : Ingester)
    (r : error + userState) :
  getStateFor i ctx = (i1, r) →
  match r with
  | inl _ => i1 = i
  | inr state =>
      getStateFor i1 ctx = (i1, inr state) ∧
      ∃ id, ctx = Some id ∧ userStates i1 !! id = Some state ∧
            (∀ id', id' ≠ id → userStates i1 !! id' = userStates i !! id') ∧
            ((userStates i !! id = Some state ∧ i1 = i) ∨
             (userStates i !! id = None ∧
              newFPMapper = inr (mapper state) ∧
              state = {| userID := id; fpToSeries := ∅; mapper := mapper state;
                         index := newInvertedIndex |} ∧
              i1 = {| cfg := cfg i; chunkStore := chunkStore i;
                      stopped := stopped i;
                      userStates := <[id := state]> (userStates i);
                      ingestedSamples := ingestedSamples i;
                      discardedSamples := discardedSamples i;
                      chunkUtilization := chunkUtilization i;
                      chunkStoreFailures := chunkStoreFailures i;
                      queries := queries i; queriedSamples := queriedSamples i;
                      memoryChunks := memoryChunks i |}))
  end.
Proof.
  unfold getStateFor. destruct ctx as [id|]; [|by intros [= <- <-]].
  destruct (userStates i !! id) as [state|] eqn:Hid.
  - intros [= <- <-]. rewrite Hid. split; [done|]. exists id.
    split_and!; [done..|]. by left.
  - destruct newFPMapper as [msg|mp] eqn:Hmp; intros [= <- <-]; [done|].
    simpl. rewrite lookup_insert_eq. split; [done|]. exists id.
    split_and!; [done|apply lookup_insert_eq| |].
    + intros id' Hne. by apply lookup_insert_ne.
    + right. by rewrite Hid.
Qed.

Lemma state_consistent_empty id mp :
  state_consistent {| userID := id; fpToSeries := ∅; mapper := mp;
                      index := newInvertedIndex |}.
Proof.
  split_and!; [apply index_lists_empty|apply index_pruned_empty|].
  unfold series_metrics. simpl. rewrite fmap_empty. apply index_represents_empty.
Qed.

Lemma getStateFor_consistent i ctx i1 r :
  getStateFor i ctx = (i1, r) → ingester_consistent i → ingester_consistent i1.
Proof.
  unfold getStateFor. destruct ctx as [id|]; [|by intros [= <- <-]].
  destruct (userStates i !! id) as [state|] eqn:Hid; [by intros [= <- <-]|].
  destruct newFPMapper as [msg|mp]; intros [= <- <-]; [done|].
  intros Hi. apply map_Forall_insert_2; [|done].
  split; [done|]. apply state_consistent_empty.
Qed.

(** The fingerprints the index lists are those of the series map. *)
Lemma state_consistent_fresh u m fp :
  state_consistent u → fpToSeries u !! fp = None → fresh_for (index u) m fp.
Proof.
  intros (_ & _ & Hrep) Hfp name value _ Hin.
  apply elem_of_stored in Hin as (values & fps & ? & ? & ?).
  destruct (Hrep name value fp) as [Hto _].
  destruct Hto as (m' & Hm' & _); [by exists values, fps|].
  unfold series_metrics in Hm'. by rewrite lookup_fmap, Hfp in Hm'.
Qed.

Lemma getOrCreateSeries_keeps_consistent (u : userState) (m : Metric)
    (fp : Fingerprint) (series : memorySeries) (u' : userState) :
  state_consistent u →
  getOrCreateSeries u m = (fp, series, u') →
  state_consistent u' ∧ userID u' = userID u ∧ fpToSeries u' !! fp = Some series.
Proof.
  intros Hu Hget.
  destruct (getOrCreateSeries_registered _ _ _ _ _ Hget) as [Hid Hreg].
  split; [|done].
  destruct (fpToSeries u !! fp) as [series0|] eqn:Hfp.
  - destruct (getOrCreateSeries_existing _ _ _ _ _ _ Hget Hfp) as (_ & Hmap & Hidx).
    unfold state_consistent, series_metrics. by rewrite Hmap, Hidx.
  - destruct (getOrCreateSeries_new _ _ _ _ _ Hget Hfp) as (-> & Hmap & Hidx).
    pose proof (state_consistent_fresh u m fp Hu Hfp) as Hfresh.
    destruct Hu as (Hs & Hp & Hrep).
    unfold state_consistent, series_metrics. rewrite Hmap, Hidx. split_and!.
    + by apply invertedIndex_add_strictly_sorted.
    + by apply invertedIndex_add_pruned.
    + rewrite fmap_insert. apply index_represents_add; [done|].
      unfold series_metrics. by rewrite lookup_fmap, Hfp.
Qed.

(** X7.  [getOrCreateSeries] keeps the index of the tenant in step with
    its series map: afterwards the index still lists exactly the label
    pairs of the registered series, in strictly sorted lists, with no empty
    list or map, whatever fingerprint the mapper chose. *)
Theorem getOrCreateSeries_consistent (u : userState) (m : Metric)
    (fp : Fingerprint) (series : memorySeries) (u' : userState) :
  state_consistent u →
  getOrCreateSeries u m = (fp, series, u') →
  state_consistent u' ∧ userID u' = userID u ∧ fpToSeries u' !! fp = Some series.
Proof. apply getOrCreateSeries_keeps_consistent. Qed.

End TenantProperties.

Lemma getStateFor_stable_witness :
  getStateFor (test_ingester None) (Some "A")
    = ((getStateFor (test_ingester None) (Some "A")).1, inr test_empty_state) ∧
  getStateFor (getStateFor (test_ingester None) (Some "A")).1 (Some "A")
    = ((getStateFor (test_ingester None) (Some "A")).1, inr test_empty_state) ∧
  (getStateFor (test_ingester None) (Some "A")).1
    = {| cfg := {| FlushCheckPeriod := 60000; MaxChunkAge := 600000 |};
         chunkStore := Some (@nil (list Chunk) : @Store _ (test_package None));
         stopped := false;
         userStates := {[ "A" := test_empty_state ]};
         ingestedSamples := 0; discardedSamples := ∅; chunkUtilization := [];
         chunkStoreFailures := 0; queries := 0; queriedSamples := 0;
         memoryChunks := 0 |}.
Proof.
  assert (getStateFor (test_ingester None) (Some "A")
          = ((getStateFor (test_ingester None) (Some "A")).1, inr test_empty_state))
    as H1 by reflexivity.
  split; [exact H1|].
  destruct (getStateFor_stable _ _ _ _ H1)
    as (Hagain & id & Hctx & _ & _ & [[Hheld _]|(_ & _ & _ & Hi1)]).
  - exfalso. injection Hctx as <-. discriminate Hheld.
  - split; [exact Hagain|]. injection Hctx as <-. rewrite Hi1. reflexivity.
Defined.

Lemma getOrCreateSeries_consistent_witness :
  @state_consistent _ (test_package None) test_empty_state ∧
  getOrCreateSeries test_empty_state test_metric
    = (1%N, newMemorySeries test_metric, test_created_state) ∧
  @state_consistent _ (test_package None) test_created_state.
Proof.
  assert (@state_consistent _ (test_package None) test_empty_state) as H1
    by apply state_consistent_empty.
  assert (getOrCreateSeries test_empty_state test_metric
          = (1%N, newMemorySeries test_metric, test_created_state)) as H2
    by (vm_compute; reflexivity).
  split; [exact H1|]. split; [exact H2|].
  exact (proj1 (getOrCreateSeries_consistent _ _ _ _ _ H1 H2)).
Defined.

(** ** Append *)

Section AppendMore.
Context `{Package}.

Lemma store_state_consistent u i :
  state_consistent u → ingester_consistent i → ingester_consistent (store_state u i).
Proof. intros Hu Hi. by apply map_Forall_insert_2. Qed.

Lemma Ingester_append_consistent i ctx sample :
  add_keeps_metric → ingester_consistent i →
  ingester_consistent (Ingester_append i ctx sample).1.
Proof.
  intros Hadd Hi. unfold Ingester_append.
  destruct (stopped i); [done|].
  destruct (getStateFor i ctx) as [i1 [err|state]] eqn:Hstate.
  { simpl. by eapply getStateFor_consistent. }
  pose proof (getStateFor_consistent _ _ _ _ Hstate Hi) as Hi1.
  destruct (getStateFor_spec _ _ _ _ Hstate) as (_ & id & _ & Hid & _).
  destruct (Hi1 _ _ Hid) as [Hkey Hstate_ok].
  destruct (getOrCreateSeries state _) as [[fp series] state1] eqn:Hseries.
  destruct (getOrCreateSeries_keeps_consistent _ _ _ _ _ Hstate_ok Hseries)
    as (Hstate1 & Hid1 & Hreg).
  assert (ingester_consistent (store_state state1 i1)) as Hstored
    by by apply store_state_consistent.
  destruct (_ =? _)%Z.
  { by destruct (_ && _). }
  destruct (_ <? _)%Z; [done|].
  destruct (series_add series _) as [series' err] eqn:Hsadd.
  assert (metric series' = metric series) as Hmetric.
  { specialize (Hadd series {| pair_Timestamp := sample_Timestamp sample;
                               pair_Value := sample_Value sample |}).
    by rewrite Hsadd in Hadd. }
  assert (ingester_consistent
            (store_state (set_fpToSeries (<[fp := series']> (fpToSeries state1)) state1)
               (store_state state1 i1))) as Hfinal.
  { apply store_state_consistent; [|done].
    destruct Hstate1 as (Hs & Hp & Hrep). split_and!; [done..|].
    unfold series_metrics in *. simpl. rewrite fmap_insert, Hmetric.
    rewrite insert_id; [done|]. by rewrite lookup_fmap, Hreg. }
  by destruct err.
Qed.

(** X8.  With a [series.add] that leaves the label set of a series alone,
    [Append] keeps every tenant under its own id with its index in step
    with its series map, whether the batch is accepted or stops at a
    rejected sample. *)
Theorem Ingester_Append_consistent (i : Ingester) (ctx : option string)
    (samples : list Sample) :
  add_keeps_metric → ingester_consistent i →
  ingester_consistent (Ingester_Append i ctx samples).1.
Proof.
  intros Hadd. revert i. induction samples as [|sample samples IH]; intros i Hi.
  { done. }
  simpl. pose proof (Ingester_append_consistent i ctx sample Hadd Hi) as Hi1.
  destruct (Ingester_append i ctx sample) as [i1 [err|]]; [done|]. by apply IH.
Qed.

(** X9.  [Append] on a batch is [Append] on its parts, one after the other:
    when the first part is accepted, the batch continues from the state it
    left. *)
Theorem Ingester_Append_app (i : Ingester) (ctx : option string)
    (before after : list Sample) (i1 : Ingester) :
  Ingester_Append i ctx before = (i1, None) →
  Ingester_Append i ctx (before ++ after) = Ingester_Append i1 ctx after.
Proof.
  revert i. induction before as [|x before IH]; intros i; simpl.
  - by intros [= <-].
  - destruct (Ingester_append i ctx x) as [i' [e|]]; [done|]. apply IH.
Qed.

Lemma strip_empty_agree (m m' : Metric) :
  (∀ name value, value ≠ "" → m !! name = Some value ↔ m' !! name = Some value) →
  strip_empty m = strip_empty m'.
Proof.
  intros Hagree. apply map_eq. intros name. apply option_eq. intros value.
  unfold strip_empty. rewrite !map_lookup_filter_Some. simpl.
  assert (String.length value ≠ 0%nat → value ≠ "") as Hne
    by (intros Hlen ->; by apply Hlen).
  split; intros [Hl Hlen]; (split; [|done]); by apply (Hagree _ _ (Hne Hlen)).
Qed.

(** X10.  [append] ignores labels whose value is empty: two samples with the
    same value and timestamp whose metrics carry the same labels with a
    non-empty value, whatever labels with an empty value either carries
    besides, are appended with the same outcome: the same error or nil and
    the same ingester afterwards, down to the fingerprint and the metric of
    the series and the entries of the index. *)
Theorem Ingester_append_strips (i : Ingester) (ctx : option string)
    (sample sample' : Sample) :
  sample_Value sample' = sample_Value sample →
  sample_Timestamp sample' = sample_Timestamp sample →
  (∀ name value, value ≠ "" →
     sample_Metric sample !! name = Some value ↔
     sample_Metric sample' !! name = Some value) →
  Ingester_append i ctx sample = Ingester_append i ctx sample'.
Proof.
  intros Hvalue Hts Hagree. unfold Ingester_append.
  by rewrite (strip_empty_agree _ _ Hagree), Hvalue, Hts.
Qed.

(** X11.  A sample newer than the series' last time is handed to
    [series.add]: the series map holds the series as [add] left it, the
    gauge of chunks moves by the number of chunks the series gained, the
    sample is counted when [add] succeeded and only then, and no discard
    counter moves. *)
Theorem append_newer_sample (i : Ingester) (ctx : option string) (sample : Sample)
    (i1 : Ingester) (state : userState) (fp : Fingerprint) (series : memorySeries)
    (state1 : userState) :
  stopped i = false →
  getStateFor i ctx = (i1, inr state) →
  getOrCreateSeries state (strip_empty (sample_Metric sample)) = (fp, series, state1) →
  (lastTime series < sample_Timestamp sample)%Z →
  let added := series_add series {| pair_Value := sample_Value sample;
                                    pair_Timestamp := sample_Timestamp sample |} in
  let r := Ingester_append i ctx sample in
  r.2 = ErrExternal <$> added.2 ∧
  (∃ u, userStates r.1 !! userID state1 = Some u ∧
        fpToSeries u = <[fp := added.1]> (fpToSeries state1) ∧
        index u = index state1) ∧
  memoryChunks r.1 = (memoryChunks i + Z.of_nat (length (chunkDescs added.1))
                      - Z.of_nat (length (chunkDescs series)))%Z ∧
  ingestedSamples r.1
    = (ingestedSamples i + match added.2 with Some _ => 0 | None => 1 end)%Z ∧
  discardedSamples r.1 = discardedSamples i.
Proof.
  intros Hstopped Hstate Hseries Hts added r. unfold r.
  rewrite (Ingester_append_resolved _ _ _ _ _ _ _ _ Hstopped Hstate Hseries).
  destruct (getStateFor_counters _ _ _ _ Hstate) as (Hing & Hdis & Hmc & _).
  cbv zeta.
  destruct (Z.eqb_spec (sample_Timestamp sample) (lastTime series)); [lia|].
  destruct (Z.ltb_spec (sample_Timestamp sample) (lastTime series)); [lia|].
  unfold added. destruct (series_add series _) as [series' [msg|]]; simpl.
  - split_and!; [done| |lia|lia|done].
    eexists. split; [apply lookup_insert_eq|done].
  - split_and!; [done| |lia|lia|done].
    eexists. split; [apply lookup_insert_eq|done].
Qed.

End AppendMore.

Lemma Ingester_append_strips_witness :
  sample_Value (test_sample 100 1) = sample_Value test_sample_empty_label ∧
  sample_Timestamp (test_sample 100 1) = sample_Timestamp test_sample_empty_label ∧
  (∀ name value, value ≠ "" →
     sample_Metric test_sample_empty_label !! name = Some value ↔
     sample_Metric (test_sample 100 1) !! name = Some value) ∧
  sample_Metric test_sample_empty_label !! "env" = Some "" ∧
  Ingester_append (test_ingester None) (Some "A") test_sample_empty_label
  = (test_appended None, None).
Proof.
  assert (sample_Value (test_sample 100 1) = sample_Value test_sample_empty_label)
    as H1 by reflexivity.
  assert (sample_Timestamp (test_sample 100 1)
          = sample_Timestamp test_sample_empty_label) as H2 by reflexivity.
  assert (∀ name value, value ≠ "" →
            sample_Metric test_sample_empty_label !! name = Some value ↔
            sample_Metric (test_sample 100 1) !! name = Some value) as H3.
  { intros name value Hne. simpl. rewrite lookup_insert_Some. split.
    - intros [[_ Hempty]|[_ Hl]]; [|exact Hl]. exfalso. apply Hne. by symmetry.
    - intros Hl. right. split; [|exact Hl].
      intros <-. discriminate Hl. }
  split; [exact H1|]. split; [exact H2|]. split; [exact H3|].
  split; [reflexivity|].
  rewrite (Ingester_append_strips (test_ingester None) (Some "A")
             test_sample_empty_label (test_sample 100 1) H1 H2 H3).
  vm_compute. reflexivity.
Defined.

Lemma test_add_keeps_metric : @add_keeps_metric _ (test_package None).
Proof. intros s p. reflexivity. Qed.

Lemma Ingester_Append_consistent_witness :
  @add_keeps_metric _ (test_package None) ∧
  ingester_consistent (test_ingester None) ∧
  ingester_consistent
    (Ingester_Append (test_ingester None) (Some "A")
       [test_sample 100 1; test_sample 50 2]).1.
Proof.
  assert (ingester_consistent (test_ingester None)) as Hi by apply map_Forall_empty.
  split; [exact test_add_keeps_metric|]. split; [exact Hi|].
  exact (Ingester_Append_consistent (test_ingester None) (Some "A")
           [test_sample 100 1; test_sample 50 2] test_add_keeps_metric Hi).
Defined.

Lemma Ingester_Append_app_witness :
  Ingester_Append (test_ingester None) (Some "A") [test_sample 100 1]
    = (test_appended None, None) ∧
  Ingester_Append (test_ingester None) (Some "A")
    ([test_sample 100 1] ++ [test_sample 200 2])
  = Ingester_Append (test_appended None) (Some "A") [test_sample 200 2].
Proof.
  assert (Ingester_Append (test_ingester None) (Some "A") [test_sample 100 1]
          = (test_appended None, None)) as H1 by (vm_compute; reflexivity).
  split; [exact H1|].
  exact (Ingester_Append_app _ _ _ [test_sample 200 2] _ H1).
Defined.

Lemma append_newer_sample_witness :
  stopped (test_appended None) = false ∧
  getStateFor (test_appended None) (Some "A")
    = (test_appended None, inr (test_state None)) ∧
  getOrCreateSeries (test_state None) (strip_empty (sample_Metric (test_sample 200 2)))
    = (1%N, test_series, test_state None) ∧
  (lastTime test_series < sample_Timestamp (test_sample 200 2))%Z ∧
  (Ingester_append (test_appended None) (Some "A") (test_sample 200 2)).2 = None ∧
  memoryChunks (Ingester_append (test_appended None) (Some "A") (test_sample 200 2)).1
    = 1%Z ∧
  ingestedSamples (Ingester_append (test_appended None) (Some "A") (test_sample 200 2)).1
    = 2%Z.
Proof.
  assert (stopped (test_appended None) = false) as H1 by reflexivity.
  assert (getStateFor (test_appended None) (Some "A")
          = (test_appended None, inr (test_state None))) as H2 by reflexivity.
  assert (getOrCreateSeries (test_state None)
            (strip_empty (sample_Metric (test_sample 200 2)))
          = (1%N, test_series, test_state None)) as H3 by (vm_compute; reflexivity).
  assert (lastTime test_series < sample_Timestamp (test_sample 200 2))%Z as H4
    by (simpl; lia).
  destruct (append_newer_sample (test_appended None) (Some "A") (test_sample 200 2)
              _ _ _ _ _ H1 H2 H3 H4) as (Ha & _ & Hb & Hc & _).
  split_and!; [exact H1|exact H2|exact H3|exact H4|exact Ha|exact Hb|exact Hc].
Defined.

(** ** Range extraction and queries *)

Section QueryProperties.
Context `{Package}.

Lemma filter_all {A} (P : A → Prop) `{∀ x, Decision (P x)} (l : list A) :
  Forall P l → filter P l = l.
Proof.
  induction 1 as [|x l Hx _ IH]; [done|]. by rewrite filter_cons_True, IH.
Qed.

Lemma index_at_in_range {A} (l : list A) i :
  (0 ≤ i < Z.of_nat (length l))%Z → ∃ x, index_at l i = Ok x.
Proof.
  intros Hi. unfold index_at.
  destruct (Z.leb_spec 0 i); [|lia].
  destruct (lookup_lt_is_Some_2 l (Z.to_nat i)) as [x Hx]; [lia|].
  rewrite Hx. eauto.
Qed.

Lemma range_loop_total s from through count idx values :
  (0 ≤ idx)%Z → (idx + Z.of_nat count ≤ Z.of_nat (length (chunkDescs s)))%Z →
  ∃ r, range_loop s from through count idx values = Ok r.
Proof.
  revert idx values. induction count as [|count IH]; intros idx values Hlo Hhi; simpl.
  { eauto. }
  destruct (index_at_in_range (chunkDescs s) idx) as [cd ->]; [lia|]. simpl.
  destruct (rangeValues (c cd) from through); [eauto|].
  apply IH; lia.
Qed.

(** X12.  [samplesForRange] returns, with values or with the error of the
    chunk, for every series that has a chunk and every range: its reads of
    [chunkDescs] are all within bounds.  The series without chunks is the
    only one it panics on. *)
Theorem samplesForRange_total (s : memorySeries) (from through : Time) :
  chunkDescs s ≠ [] → ∃ r, samplesForRange s from through = Ok r.
Proof.
  intros Hne. unfold samplesForRange.
  assert (0 < length (chunkDescs s))%nat as Hlen
    by (destruct (chunkDescs s); [done|simpl; lia]).
  pose proof (sort_Search_le (length (chunkDescs s)) (firstTime_After s from)) as Hf.
  pose proof (sort_Search_le (length (chunkDescs s)) (firstTime_After s through)) as Ht.
  set (fromIdx := Z.of_nat (sort_Search _ (firstTime_After s from))) in *.
  set (throughIdx := Z.of_nat (sort_Search _ (firstTime_After s through))) in *.
  assert (0 ≤ fromIdx ≤ Z.of_nat (length (chunkDescs s)))%Z as Hfrom by (unfold fromIdx; lia).
  assert (0 ≤ throughIdx ≤ Z.of_nat (length (chunkDescs s)))%Z as Hthrough
    by (unfold throughIdx; lia).
  clearbody fromIdx throughIdx.
  assert (∃ early,
            (if (fromIdx =? Z.of_nat (length (chunkDescs s)))%Z
             then cd ← index_at (chunkDescs s) (Z.of_nat (length (chunkDescs s)) - 1);
                  match chunkDesc_lastTime cd with
                  | inl msg => Ok (Some (inl (ErrExternal msg)))
                  | inr lt => if (lt <? from)%Z then Ok (Some (inr [])) else Ok None
                  end
             else Ok None) = Ok early) as [early ->].
  { destruct (_ =? _)%Z; [|eauto].
    destruct (index_at_in_range (chunkDescs s)
                (Z.of_nat (length (chunkDescs s)) - 1)) as [cd ->]; [lia|].
    simpl. destruct (chunkDesc_lastTime cd) as [msg|lt]; [eauto|].
    destruct (lt <? from)%Z; eauto. }
  simpl. destruct early as [r|]; [eauto|].
  apply range_loop_total.
  - destruct (0 <? fromIdx)%Z eqn:Hpos; [apply Z.ltb_lt in Hpos|]; lia.
  - destruct (Z.ltb_spec 0 fromIdx), (Z.eqb_spec throughIdx (Z.of_nat (length (chunkDescs s))));
      lia.
Qed.

(** The streams that the loop of [Query] adds: one for each fingerprint
    that is in the series map, in order. *)
Lemma query_loop_streams state from through fps matrix q matrix' q' :
  query_loop state from through fps matrix q = Ok (inr (matrix', q')) →
  ∃ added,
    matrix' = matrix ++ added ∧ q' = (q + matrix_samples added)%nat ∧
    Forall2 (λ fp stream, ∃ series,
               fpToSeries state !! fp = Some series ∧
               stream_Metric stream = metric series ∧
               samplesForRange series from through = Ok (inr (stream_Values stream)))
      (filter (λ fp, is_Some (fpToSeries state !! fp)) fps) added.
Proof.
  revert matrix q. induction fps as [|fp fps IH]; intros matrix q; simpl.
  { intros [= <- <-]. exists []. rewrite app_nil_r.
    split_and!; [done|unfold matrix_samples; simpl; lia|]. constructor. }
  destruct (fpToSeries state !! fp) as [series|] eqn:Hfp.
  - destruct (samplesForRange series from through) as [[err|values]|] eqn:Hrange;
      simpl; [done| |done].
    intros (added & -> & -> & Hall)%IH.
    exists ({| stream_Metric := metric series; stream_Values := values |} :: added).
    rewrite filter_cons_True by (by rewrite Hfp).
    split_and!.
    + by rewrite <- app_assoc.
    + unfold matrix_samples. simpl. by rewrite <- Nat.add_assoc.
    + constructor; [|done]. by exists series.
  - intros (added & -> & -> & Hall)%IH. exists added.
    rewrite filter_cons_False by (rewrite Hfp; by intros [? ?]). done.
Qed.

(** X13.  On a tenant whose index is in step with its series map, a query
    that succeeds returns one stream for each fingerprint that [lookup]
    selected, in that (ascending) order, carrying the label set of the
    series and what [samplesForRange] extracted from it; it counts one
    query and as many samples as it returns, and leaves the tenants as
    [getStateFor] left them. *)
Theorem Ingester_Query_matrix (i : Ingester) (ctx : option string)
    (from through : Time) (matchers : list LabelMatcher)
    (i1 : Ingester) (state : userState) (i' : Ingester) (matrix : list SampleStream) :
  getStateFor (queries_Inc i) ctx = (i1, inr state) →
  state_consistent state →
  Ingester_Query i ctx from through matchers = Ok (i', inr matrix) →
  Forall2 (λ fp stream, ∃ series,
             fpToSeries state !! fp = Some series ∧
             stream_Metric stream = metric series ∧
             samplesForRange series from through = Ok (inr (stream_Values stream)))
    (elems (invertedIndex_lookup (index state) matchers)) matrix ∧
  queries i' = (queries i + 1)%Z ∧
  queriedSamples i' = (queriedSamples i + Z.of_nat (matrix_samples matrix))%Z ∧
  userStates i' = userStates i1.
Proof.
  intros Hstate Hok. unfold Ingester_Query. rewrite Hstate.
  destruct (query_loop _ _ _ _ _ _) as [[err|[matrix' q']]|] eqn:Hloop; simpl; [done| |done].
  intros [= <- <-].
  apply query_loop_streams in Hloop as (added & -> & -> & Hall).
  simpl in *.
  assert (queries i1 = (queries i + 1)%Z ∧ queriedSamples i1 = queriedSamples i)
    as [Hq Hqs].
  { unfold getStateFor in Hstate. destruct ctx as [id|]; [|done].
    simpl in Hstate. destruct (userStates i !! id); [by injection Hstate as <- _|].
    destruct newFPMapper; [done|]. by injection Hstate as <- _. }
  split_and!; [|done|lia|done].
  rewrite filter_all in Hall; [done|].
  apply Forall_forall. intros fp Hfp.
  destruct Hok as (Hsorted & _ & Hrep).
  (* a fingerprint that lookup returns is listed by the index *)
  destruct matchers as [|matcher matchers]; [by apply elem_of_nil in Hfp|].
  change (invertedIndex_lookup (index state) (matcher :: matchers))
    with (lookup_loop (index state) None (matcher :: matchers)) in Hfp.
  assert (index_sorted (index state)) as Hs.
  { intros name values Hn value l Hv. apply strictly_sorted_sorted.
    exact (Hsorted _ _ Hn _ _ Hv). }
  destruct (lookup_loop_None (index state) matcher matchers Hs) as [_ Helem].
  apply Helem in Hfp. apply Forall_cons in Hfp as [Hm _].
  apply (matched_represents _ (series_metrics state)) in Hm as (m & Hm & _); [|done].
  unfold series_metrics in Hm. rewrite lookup_fmap in Hm.
  by destruct (fpToSeries state !! fp).
Qed.

End QueryProperties.

Lemma samplesForRange_total_witness :
  chunkDescs test_series ≠ [] ∧
  ∃ r, @samplesForRange _ (test_package None) test_series 0 1000 = Ok r.
Proof.
  assert (chunkDescs test_series ≠ []) as Hne by discriminate.
  split; [exact Hne|].
  exact (@samplesForRange_total _ (test_package None) test_series 0 1000 Hne).
Defined.

Lemma test_state_consistent put_error : state_consistent (test_state put_error).
Proof.
  unfold state_consistent.
  replace (index (test_state put_error))
    with (invertedIndex_add newInvertedIndex test_metric 1)
    by (vm_compute; reflexivity).
  replace (series_metrics (test_state put_error))
    with (<[1%N := test_metric]> (∅ : gmap N Metric))
    by (vm_compute; reflexivity).
  split_and!.
  - apply invertedIndex_add_strictly_sorted; [|apply index_lists_empty].
    intros name value _ Hin. by apply elem_of_nil in Hin.
  - apply invertedIndex_add_pruned, index_pruned_empty.
  - apply index_represents_add; [apply index_represents_empty|reflexivity].
Qed.

Lemma Ingester_Query_matrix_witness :
  getStateFor (queries_Inc (test_appended None)) (Some "A")
    = (queries_Inc (test_appended None), inr (test_state None)) ∧
  state_consistent (test_state None) ∧
  (∃ i' matrix,
     Ingester_Query (test_appended None) (Some "A") 0 1000 [equal_matcher "job" "x"]
       = Ok (i', inr matrix) ∧
     queries i' = 1%Z ∧ queriedSamples i' = Z.of_nat (matrix_samples matrix) ∧
     length matrix = 1%nat).
Proof.
  assert (getStateFor (queries_Inc (test_appended None)) (Some "A")
          = (queries_Inc (test_appended None), inr (test_state None))) as H1
    by reflexivity.
  pose proof (test_state_consistent None) as H2.
  split; [exact H1|]. split; [exact H2|].
  destruct (Ingester_Query (test_appended None) (Some "A") 0 1000
              [equal_matcher "job" "x"]) as [[i' [err|matrix]]|p] eqn:Hq;
    [exfalso; vm_compute in Hq; discriminate Hq| |exfalso; vm_compute in Hq; discriminate Hq].
  exists i', matrix.
  destruct (Ingester_Query_matrix _ _ _ _ _ _ _ _ _ H1 H2 Hq) as (Hall & Hqs & Hsamples & _).
  split; [reflexivity|]. split; [exact Hqs|]. split; [exact Hsamples|].
  apply Forall2_length in Hall. rewrite <- Hall. vm_compute. reflexivity.
Defined.

(** ** [lookup] returns no fingerprint twice *)

Lemma matching_fps_elem_of matcher kvs fp :
  fp ∈ matching_fps matcher kvs →
  ∃ value fps, (value, fps) ∈ kvs ∧ Match matcher value = true ∧ fp ∈ fps.
Proof.
  induction kvs as [|[v l] kvs IH]; simpl; [by intros ?%elem_of_nil|].
  intros [Hin|Hin]%elem_of_app.
  - destruct (Match matcher v) eqn:Hm; [|by apply elem_of_nil in Hin].
    exists v, l. split_and!; [by left|done..].
  - destruct (IH Hin) as (v' & l' & ? & ? & ?). exists v', l'.
    split_and!; [by right|done..].
Qed.

Lemma matching_fps_NoDup matcher kvs :
  NoDup kvs.*1 →
  Forall (λ kv : string * list N, NoDup kv.2) kvs →
  (∀ v l v' l' fp, (v, l) ∈ kvs → (v', l') ∈ kvs → fp ∈ l → fp ∈ l' → v = v') →
  NoDup (matching_fps matcher kvs).
Proof.
  induction kvs as [|[v l] kvs IH]; intros Hkeys Hlists Hdisj; simpl; [constructor|].
  apply NoDup_cons in Hkeys as [Hv Hkeys]. apply Forall_cons in Hlists as [Hl Hlists].
  apply NoDup_app. split_and!.
  - destruct (Match matcher v); [done|constructor].
  - intros fp Hin Hin'. destruct (Match matcher v); [|by apply elem_of_nil in Hin].
    apply matching_fps_elem_of in Hin' as (v' & l' & Hkv & _ & Hfp).
    assert (v = v') as <-.
    { apply (Hdisj v l v' l' fp); [by left|by right|done..]. }
    apply Hv. apply list_elem_of_fmap. by exists (v, l').
  - apply IH; [done..|]. intros v1 l1 v2 l2 fp ? ?. apply Hdisj; by right.
Qed.

Lemma union_matching_NoDup idx series matcher values :
  index_strictly_sorted idx → index_represents idx series →
  idx !! Name matcher = Some values →
  NoDup (elems (union_matching matcher (map_to_list values))).
Proof.
  intros Hsorted Hrep Hvalues. unfold union_matching.
  rewrite union_fold_perm. simpl. apply matching_fps_NoDup.
  - apply NoDup_fst_map_to_list.
  - apply Forall_forall. intros [v l] Hin%elem_of_map_to_list. simpl.
    apply strictly_sorted_NoDup. exact (Hsorted _ _ Hvalues _ _ Hin).
  - intros v l v' l' fp Hin%elem_of_map_to_list Hin'%elem_of_map_to_list Hfp Hfp'.
    destruct (Hrep (Name matcher) v fp) as [Hto _].
    destruct Hto as (m & Hm & Hv); [by exists values, l|].
    destruct (Hrep (Name matcher) v' fp) as [Hto' _].
    destruct Hto' as (m' & Hm' & Hv'); [by exists values, l'|].
    congruence.
Qed.

Lemma lookup_loop_NoDup idx series intersection matchers :
  index_strictly_sorted idx → index_represents idx series →
  NoDup (elems intersection) →
  NoDup (elems (lookup_loop idx intersection matchers)).
Proof.
  intros Hsorted Hrep. revert intersection.
  induction matchers as [|matcher matchers IH]; intros intersection Hnd; simpl; [done|].
  destruct (idx !! Name matcher) as [values|] eqn:Hvalues; [|constructor].
  pose proof (union_matching_NoDup idx series matcher values Hsorted Hrep Hvalues) as Hu.
  destruct (length _ =? 0)%nat; [constructor|]. apply IH.
  destruct intersection as [l|]; simpl; [|done].
  exact (sublist_NoDup _ _ Hu (intersect_loop_sublist _ _)).
Qed.

(** X14.  On an index with strictly sorted lists that is in step with the
    series, [lookup] returns no fingerprint twice, so a query visits each
    selected series once. *)
Theorem lookup_NoDup (idx : invertedIndex) (series : gmap N Metric)
    (matchers : list LabelMatcher) :
  index_strictly_sorted idx → index_represents idx series →
  NoDup (elems (invertedIndex_lookup idx matchers)).
Proof.
  intros Hsorted Hrep. unfold invertedIndex_lookup.
  destruct (length matchers =? 0)%nat; [constructor|].
  eapply lookup_loop_NoDup; [done..|constructor].
Qed.

Lemma index_represents_fresh idx series m fp :
  index_represents idx series → series !! fp = None → fresh_for idx m fp.
Proof.
  intros Hrep Hfp name value _ Hin.
  apply elem_of_stored in Hin as (values & fps & ? & ? & ?).
  destruct (Hrep name value fp) as [Hto _].
  destruct Hto as (m' & Hm' & _); [by exists values, fps|]. congruence.
Qed.

Lemma invertedIndex_add_registers idx series m fp :
  index_strictly_sorted idx ∧ index_represents idx series →
  series !! fp = None →
  index_strictly_sorted (invertedIndex_add idx m fp) ∧
  index_represents (invertedIndex_add idx m fp) (<[fp := m]> series).
Proof.
  intros [Hs Hrep] Hfp. split.
  - apply invertedIndex_add_strictly_sorted; [|done].
    by eapply index_represents_fresh.
  - by apply index_represents_add.
Qed.

Lemma lookup_NoDup_witness :
  index_strictly_sorted test_index ∧ index_represents test_index test_series_map ∧
  NoDup (elems (invertedIndex_lookup test_index test_matchers)).
Proof.
  assert (index_strictly_sorted test_index ∧
          index_represents test_index test_series_map) as [Hs Hrep].
  { repeat apply invertedIndex_add_registers; [|reflexivity..].
    split; [apply index_lists_empty|apply index_represents_empty]. }
  split; [exact Hs|]. split; [exact Hrep|].
  exact (lookup_NoDup test_index test_series_map test_matchers Hs Hrep).
Defined.

(** ** The flush path *)

Section FlushMore.
Context `{Package}.

Lemma observe_chunks_snoc chunks cd i :
  observe_chunks (chunks ++ [cd]) i =
  chunkUtilization_Observe (utilization (c cd)) (observe_chunks chunks i).
Proof. unfold observe_chunks. by rewrite foldl_app. Qed.

Lemma marshal_chunks_ok i fp m chunks bufs wireChunks :
  Forall2 (λ cd buf, marshalToBuf (c cd) = inr buf) chunks bufs →
  marshal_chunks i fp m chunks wireChunks =
    (observe_chunks chunks i,
     inr (wireChunks ++ zip_with (wire_chunk fp m) chunks bufs)).
Proof.
  intros Hall. revert i wireChunks.
  induction Hall as [|cd buf chunks bufs Hbuf _ IH]; intros i wireChunks; simpl.
  { by rewrite app_nil_r. }
  rewrite Hbuf, IH, <- app_assoc. done.
Qed.

Lemma marshal_chunks_failed i fp m before bad after bufs msg wireChunks :
  Forall2 (λ cd buf, marshalToBuf (c cd) = inr buf) before bufs →
  marshalToBuf (c bad) = inl msg →
  marshal_chunks i fp m (before ++ bad :: after) wireChunks =
    (observe_chunks before i, inl (ErrExternal msg)).
Proof.
  intros Hall Hbad. revert i wireChunks.
  induction Hall as [|cd buf chunks bufs Hbuf _ IH]; intros i wireChunks; simpl.
  { by rewrite Hbad. }
  by rewrite Hbuf, IH.
Qed.

Lemma observe_chunks_chunkStore chunks i :
  chunkStore (observe_chunks chunks i) = chunkStore i.
Proof.
  revert i. induction chunks as [|cd chunks IH]; intros i; [done|].
  change (observe_chunks (cd :: chunks) i)
    with (observe_chunks chunks (chunkUtilization_Observe (utilization (c cd)) i)).
  by rewrite IH.
Qed.

(** X15.  When every chunk of the batch marshals, [flushChunks] calls [Put]
    once, with one wire chunk per chunk in the order of the batch, each
    carrying the id [fp:firstTime:lastTime], the two times, the label set
    and the marshalled bytes, after observing the utilization of every
    chunk; it returns the error of [Put]. *)
Theorem flushChunks_puts (i : Ingester) (ctx : option string) (fp : Fingerprint)
    (m : Metric) (chunks : list chunkDesc) (bufs : list (list Byte.byte))
    (store : Store) :
  Forall2 (λ cd buf, marshalToBuf (c cd) = inr buf) chunks bufs →
  chunkStore i = Some store →
  let put := Put store ctx (zip_with (wire_chunk fp m) chunks bufs) in
  flushChunks i ctx fp m chunks =
    Ok (set_chunkStore (Some put.1) (observe_chunks chunks i), ErrExternal <$> put.2).
Proof.
  intros Hall Hstore put. unfold flushChunks.
  rewrite (marshal_chunks_ok _ _ _ _ _ _ Hall), observe_chunks_chunkStore, Hstore.
  simpl. fold put. by destruct put.
Qed.

(** X16.  When a chunk of the batch fails to marshal, [flushChunks] returns
    that error without calling [Put]: the store is as it was (a nil store is
    not even looked at), and the utilization was observed for the chunks
    before the failing one only. *)
Theorem flushChunks_marshal_error (i : Ingester) (ctx : option string)
    (fp : Fingerprint) (m : Metric) (before : list chunkDesc) (bad : chunkDesc)
    (after : list chunkDesc) (bufs : list (list Byte.byte)) (msg : string) :
  Forall2 (λ cd buf, marshalToBuf (c cd) = inr buf) before bufs →
  marshalToBuf (c bad) = inl msg →
  flushChunks i ctx fp m (before ++ bad :: after) =
    Ok (observe_chunks before i, Some (ErrExternal msg)) ∧
  chunkStore (observe_chunks before i) = chunkStore i.
Proof.
  intros Hall Hbad. unfold flushChunks.
  rewrite (marshal_chunks_failed _ _ _ _ _ _ _ _ _ Hall Hbad).
  split; [done|apply observe_chunks_chunkStore].
Qed.

(** X17.  A series that holds only its open head chunk, flushed neither
    immediately nor for its age, ships nothing: [flushSeries] returns nil
    and leaves the ingester and the series as they were. *)
Theorem flushSeries_nothing_to_ship (i : Ingester) (ctx : option string)
    (u : userState) (fp : Fingerprint) (series : memorySeries) (now : Time) :
  length (chunkDescs series) = 1%nat →
  headChunkClosed series = false →
  (now - series_firstTime series ≤ MaxChunkAge (cfg i))%Z →
  flushSeries i ctx u fp series false now =
    Ok (i, set_fpToSeries (<[fp := series]> (fpToSeries u)) u, None).
Proof.
  intros Hlen Hopen Hyoung. unfold flushSeries, chunks_to_flush.
  destruct (Z.ltb_spec (MaxChunkAge (cfg i)) (now - series_firstTime series)); [lia|].
  simpl. rewrite Hopen, Hlen. simpl.
  destruct (chunkDescs series) as [|cd [|??]]; done.
Qed.

Lemma flushSeries_no_chunks i ctx u fp series immediate now :
  chunkDescs series = [] → headChunkClosed series = false →
  ∃ p, flushSeries i ctx u fp series immediate now = Panics p.
Proof.
  intros Hnil Hopen. unfold flushSeries, chunks_to_flush. rewrite Hnil.
  destruct (immediate || _); simpl; [eauto|].
  rewrite Hopen. simpl. eauto.
Qed.

Lemma flushSeries_userStates i ctx u fp series immediate now i' u' err :
  flushSeries i ctx u fp series immediate now = Ok (i', u', err) →
  userStates i' = userStates i ∧ flush_frame i i'.
Proof.
  unfold flushSeries.
  destruct (chunks_to_flush _ _ _ _) as [[series1 chunks]|]; [|done]. simpl.
  destruct (length chunks =? 0)%nat.
  { intros [= <- <- <-]. by repeat split. }
  destruct (flushChunks i ctx fp (metric series1) chunks) as [[i1 e]|] eqn:Hflush;
    [|done].
  assert (userStates i1 = userStates i ∧ flush_frame i i1) as [Hus Hframe].
  { unfold flushChunks in Hflush.
    destruct (marshal_chunks i fp (metric series1) chunks []) as [i2 r] eqn:Hm.
    assert (userStates i2 = userStates i ∧ flush_frame i i2) as [Hus2 Hframe2].
    { clear Hflush. revert i Hm. generalize (@nil Chunk).
      induction chunks as [|cd chunks IH]; intros wire i; simpl.
      - intros [= <- <-]. by repeat split.
      - destruct (marshalToBuf (c cd)); [intros [= <- <-]; by repeat split|].
        intros Hrest. apply IH in Hrest as [Hus Hfr]. simpl in *. done. }
    destruct r as [e'|wire]; [by injection Hflush as <- <-|].
    destruct (chunkStore i2); [|done].
    destruct (Put _ _ _). injection Hflush as <- <-. simpl. done. }
  simpl. destruct e as [e|].
  { intros [= <- <- <-]. simpl. done. }
  destruct (length _ =? 0)%nat.
  - destruct (invertedIndex_delete _ _ _); [|done]. simpl.
    intros [= <- <- <-]. simpl. done.
  - intros [= <- <- <-]. simpl. done.
Qed.

Lemma flush_pairs_userStates i ctx u pairs immediate now i' u' :
  flush_pairs i ctx u pairs immediate now = Ok (i', u') →
  userStates i' = userStates i ∧ flush_frame i i'.
Proof.
  revert i u. induction pairs as [|[fp series] pairs IH]; intros i u; simpl.
  { intros [= <- <-]. by repeat split. }
  destruct (flushSeries i ctx u fp series immediate now) as [[[i1 u1] err]|] eqn:Hs;
    [|done].
  simpl. intros Hrest. apply IH in Hrest as [Hus (? & ? & ? & ? & ? & ?)].
  apply flushSeries_userStates in Hs as [Hus1 (? & ? & ? & ? & ? & ?)].
  split; [congruence|]. repeat split; congruence.
Qed.

Lemma flushUser_frame i id immediate now i' :
  flushUser i id immediate now = Ok i' →
  flush_frame i i' ∧ ∀ id', id' ≠ id → userStates i' !! id' = userStates i !! id'.
Proof.
  unfold flushUser. destruct (userStates i !! id) as [u|]; [|intros [= <-]; by repeat split].
  unfold flushAllSeries.
  destruct (flush_pairs _ _ _ _ _ _) as [[i1 u1]|] eqn:Hpairs; [|done]. simpl.
  apply flush_pairs_userStates in Hpairs as [Hus Hframe].
  destruct (size _ =? 0)%nat; intros [= <-]; simpl; (split; [done|]);
    intros id' Hne; rewrite ?lookup_delete_ne, lookup_insert_ne by done; by rewrite Hus.
Qed.

Lemma flush_users_frame i ids immediate now i' :
  flush_users i ids immediate now = Ok i' → flush_frame i i'.
Proof.
  revert i. induction ids as [|id ids IH]; intros i; simpl.
  { intros [= <-]. by repeat split. }
  destruct (flushUser i id immediate now) as [i1|] eqn:Hu; [|done]. simpl.
  intros Hrest. apply IH in Hrest as (? & ? & ? & ? & ? & ?).
  apply flushUser_frame in Hu as [(? & ? & ? & ? & ? & ?) _].
  repeat split; congruence.
Qed.

(** X18.  A series without chunks whose head is not marked closed, the
    state in which a rejected first sample leaves a new series, makes
    [flushSeries] panic, whether the flush is immediate or not; and with it
    the flush of all tenants, when the ingester holds one tenant and the
    tenant that one series: each loop then starts a single worker, and the
    loop variable that the worker reads holds the only entry there is. *)
Theorem flushAllUsers_no_chunks (i : Ingester) (id : string) (u : userState)
    (fp : Fingerprint) (series : memorySeries) (immediate : bool) (now : Time) :
  is_Some (chunkStore i) →
  userStates i = {[ id := u ]} →
  fpToSeries u = {[ fp := series ]} →
  chunkDescs series = [] → headChunkClosed series = false →
  (∃ p, flushSeries i (Some id) u fp series immediate now = Panics p) ∧
  (∃ p, flushAllUsers i immediate now = Panics p).
Proof.
  intros [store Hstore] Hid Hfp Hnil Hopen.
  destruct (flushSeries_no_chunks i (Some id) u fp series immediate now Hnil Hopen)
    as [p Hp].
  split; [by exists p|]. exists p.
  unfold flushAllUsers. rewrite Hstore, Hid, map_to_list_singleton. simpl.
  unfold flushUser. rewrite Hid, lookup_singleton_eq.
  unfold flushAllSeries. rewrite Hfp, map_to_list_singleton. simpl.
  by rewrite Hp.
Qed.

(** X19.  When [Stop] returns, the ingester is stopped for good: every
    [append] is refused with the stopping error and changes nothing, and the
    final flush has left the counters of appended and discarded samples as
    they were. *)
Theorem Ingester_Stop_stops (i : Ingester) (now : Time) (i' : Ingester) :
  Ingester_Stop i now = Ok i' →
  (∀ ctx sample, Ingester_append i' ctx sample = (i', Some ErrIngesterStopping)) ∧
  ingestedSamples i' = ingestedSamples i ∧ discardedSamples i' = discardedSamples i.
Proof.
  unfold Ingester_Stop, flushAllUsers. simpl.
  destruct (chunkStore i) as [store|].
  - intros (_ & Hstopped & Hing & Hdis & _)%flush_users_frame. simpl in *.
    split_and!; [|done..].
    intros ctx sample. unfold Ingester_append. by rewrite Hstopped.
  - intros [= <-]. split_and!; [|done..].
    intros ctx sample. by unfold Ingester_append.
Qed.

(** X20.  A query for a tenant the ingester does not hold returns an empty
    matrix and registers the tenant with an empty series map; the next flush
    of that tenant removes it again, so the tenant map is back to what it
    was. *)
Theorem query_then_flush_unknown_tenant (i : Ingester) (id : string)
    (mp : fpMapper) (from through : Time) (matchers : list LabelMatcher)
    (immediate : bool) (now : Time) :
  userStates i !! id = None →
  newFPMapper = inr mp →
  ∃ i1 i2,
    Ingester_Query i (Some id) from through matchers = Ok (i1, inr []) ∧
    userStates i1 = <[id := {| userID := id; fpToSeries := ∅; mapper := mp;
                               index := newInvertedIndex |}]> (userStates i) ∧
    flushUser i1 id immediate now = Ok i2 ∧
    userStates i2 = userStates i.
Proof.
  intros Hid Hmp. unfold Ingester_Query, getStateFor. simpl. rewrite Hid, Hmp. simpl.
  assert (elems (invertedIndex_lookup newInvertedIndex matchers) = []) as ->.
  { destruct matchers as [|matcher matchers]; [done|].
    unfold invertedIndex_lookup, newInvertedIndex. simpl. by rewrite lookup_empty. }
  simpl. eexists _, _. split; [done|]. simpl. split; [done|].
  unfold flushUser. simpl. rewrite lookup_insert_eq.
  unfold flushAllSeries. simpl. rewrite map_to_list_empty. simpl.
  rewrite map_size_empty. simpl. split; [done|]. simpl.
  rewrite delete_insert_eq, delete_insert_eq. by apply delete_id.
Qed.

End FlushMore.

Lemma flushChunks_puts_witness :
  Forall2 (λ cd buf, @marshalToBuf _ (test_package None) (c cd) = inr buf)
    [test_flushed_chunkDesc] [[]] ∧
  chunkStore (test_appended None)
    = Some (@nil (list Chunk) : @Store _ (test_package None)) ∧
  flushChunks (test_appended None) (Some "A") 1%N test_metric [test_flushed_chunkDesc]
  = Ok (set_chunkStore (Some ([[test_wire_chunk]] : @Store _ (test_package None)))
          (observe_chunks [test_flushed_chunkDesc] (test_appended None)), None).
Proof.
  assert (Forall2 (λ cd buf, @marshalToBuf _ (test_package None) (c cd) = inr buf)
            [test_flushed_chunkDesc] [[]]) as H1 by (repeat constructor).
  assert (chunkStore (test_appended None)
          = Some (@nil (list Chunk) : @Store _ (test_package None))) as H2
    by reflexivity.
  split; [exact H1|]. split; [exact H2|].
  exact (flushChunks_puts (test_appended None) (Some "A") 1%N test_metric
           [test_flushed_chunkDesc] [[]] _ H1 H2).
Defined.

Lemma flushChunks_marshal_error_witness :
  Forall2 (λ cd buf, @marshalToBuf _ test_package_strict (c cd) = inr buf)
    [test_flushed_chunkDesc] [[]] ∧
  @marshalToBuf _ test_package_strict (c test_empty_chunkDesc) = inl "empty chunk" ∧
  flushChunks test_strict_ingester (Some "A") 1%N test_metric
    ([test_flushed_chunkDesc] ++ test_empty_chunkDesc :: [test_flushed_chunkDesc])
  = Ok (observe_chunks [test_flushed_chunkDesc] test_strict_ingester,
        Some (ErrExternal "empty chunk")) ∧
  chunkStore (observe_chunks [test_flushed_chunkDesc] test_strict_ingester)
  = chunkStore test_strict_ingester.
Proof.
  assert (Forall2 (λ cd buf, @marshalToBuf _ test_package_strict (c cd) = inr buf)
            [test_flushed_chunkDesc] [[]]) as H1 by (repeat constructor).
  assert (@marshalToBuf _ test_package_strict (c test_empty_chunkDesc)
          = inl "empty chunk") as H2 by reflexivity.
  split; [exact H1|]. split; [exact H2|].
  exact (flushChunks_marshal_error test_strict_ingester (Some "A") 1%N test_metric
           [test_flushed_chunkDesc] test_empty_chunkDesc [test_flushed_chunkDesc]
           [[]] "empty chunk" H1 H2).
Defined.

Lemma flushSeries_nothing_to_ship_witness :
  length (chunkDescs test_series) = 1%nat ∧
  headChunkClosed test_series = false ∧
  (100 - @series_firstTime _ (test_package None) test_series
   ≤ MaxChunkAge (cfg (test_appended None)))%Z ∧
  flushSeries (test_appended None) (Some "A") (test_state None) 1%N test_series false 100
  = Ok (test_appended None,
        set_fpToSeries (<[1%N := test_series]> (fpToSeries (test_state None)))
          (test_state None), None).
Proof.
  assert (length (chunkDescs test_series) = 1%nat) as H1 by reflexivity.
  assert (headChunkClosed test_series = false) as H2 by reflexivity.
  assert (100 - @series_firstTime _ (test_package None) test_series
          ≤ MaxChunkAge (cfg (test_appended None)))%Z as H3 by (vm_compute; discriminate).
  split; [exact H1|]. split; [exact H2|]. split; [exact H3|].
  exact (flushSeries_nothing_to_ship (test_appended None) (Some "A") (test_state None)
           1%N test_series 100 H1 H2 H3).
Defined.

Lemma flushAllUsers_no_chunks_witness :
  is_Some (chunkStore test_rejected_first) ∧
  userStates test_rejected_first = {[ "A" := test_created_state ]} ∧
  fpToSeries test_created_state = {[ 1%N := newMemorySeries test_metric ]} ∧
  chunkDescs (newMemorySeries test_metric) = [] ∧
  headChunkClosed (newMemorySeries test_metric) = false ∧
  (∃ p, flushSeries test_rejected_first (Some "A") test_created_state 1%N
          (newMemorySeries test_metric) false 0 = Panics p) ∧
  (∃ p, flushAllUsers test_rejected_first true 0 = Panics p) ∧
  (∃ p, flushAllUsers test_rejected_first false 0 = Panics p).
Proof.
  assert (is_Some (chunkStore test_rejected_first)) as H1 by (eexists; reflexivity).
  assert (userStates test_rejected_first = {[ "A" := test_created_state ]}) as H2
    by (vm_compute; reflexivity).
  assert (fpToSeries test_created_state = {[ 1%N := newMemorySeries test_metric ]})
    as H3 by reflexivity.
  assert (chunkDescs (newMemorySeries test_metric) = []) as H4 by reflexivity.
  assert (headChunkClosed (newMemorySeries test_metric) = false) as H5 by reflexivity.
  split_and!; [exact H1|exact H2|exact H3|exact H4|exact H5|..].
  - exact (proj1 (flushAllUsers_no_chunks test_rejected_first "A" test_created_state
                    1%N _ false 0 H1 H2 H3 H4 H5)).
  - exact (proj2 (flushAllUsers_no_chunks test_rejected_first "A" test_created_state
                    1%N _ true 0 H1 H2 H3 H4 H5)).
  - exact (proj2 (flushAllUsers_no_chunks test_rejected_first "A" test_created_state
                    1%N _ false 0 H1 H2 H3 H4 H5)).
Defined.

Lemma Ingester_Stop_stops_witness :
  Ingester_Stop (test_appended None) 0 = Ok test_stopped ∧
  Ingester_append test_stopped (Some "A") (test_sample 200 2)
  = (test_stopped, Some ErrIngesterStopping).
Proof.
  assert (Ingester_Stop (test_appended None) 0 = Ok test_stopped) as H1
    by (vm_compute; reflexivity).
  split; [exact H1|].
  exact (proj1 (Ingester_Stop_stops (test_appended None) 0 test_stopped H1)
           (Some "A") (test_sample 200 2)).
Defined.

Lemma query_then_flush_unknown_tenant_witness :
  userStates (test_ingester None) !! "A" = None ∧
  @newFPMapper _ (test_package None) = inr tt ∧
  ∃ i1 i2,
    Ingester_Query (test_ingester None) (Some "A") 0 1000 [equal_matcher "job" "x"]
      = Ok (i1, inr []) ∧
    flushUser i1 "A" false 0 = Ok i2 ∧
    userStates i2 = userStates (test_ingester None).
Proof.
  assert (userStates (test_ingester None) !! "A" = None) as H1 by reflexivity.
  assert (@newFPMapper _ (test_package None) = inr tt) as H2 by reflexivity.
  split; [exact H1|]. split; [exact H2|].
  destruct (query_then_flush_unknown_tenant (test_ingester None) "A" tt 0 1000
              [equal_matcher "job" "x"] false 0 H1 H2)
    as (i1 & i2 & Hq & _ & Hf & Hus).
  exists i1, i2. split; [exact Hq|]. split; [exact Hf|exact Hus].
Defined.

(** ** Tenants are kept apart *)

Section Isolation.
Context `{Package}.

Lemma Ingester_append_isolated i ctx sample :
  tenants_keyed i →
  tenants_keyed (Ingester_append i ctx sample).1 ∧
  ∀ id, ctx ≠ Some id →
    userStates (Ingester_append i ctx sample).1 !! id = userStates i !! id.
Proof.
  intros Hi. unfold Ingester_append.
  destruct (stopped i); [done|].
  destruct (getStateFor i ctx) as [i1 [err|state]] eqn:Hstate.
  { pose proof (getStateFor_spec _ _ _ _ Hstate) as Heq. simpl in *. by subst. }
  destruct (getStateFor_spec _ _ _ _ Hstate) as (_ & id & -> & Hid & Hother).
  assert (tenants_keyed i1 ∧ userID state = id) as [Hi1 Hkey].
  { unfold getStateFor in Hstate. destruct (userStates i !! id) as [u|] eqn:Hu.
    - injection Hstate as <- <-. split; [done|]. exact (Hi _ _ Hu).
    - destruct newFPMapper; [done|]. injection Hstate as <- <-.
      split; [|done]. by apply map_Forall_insert_2. }
  destruct (getOrCreateSeries state _) as [[fp series] state1] eqn:Hseries.
  destruct (getOrCreateSeries_registered _ _ _ _ _ Hseries) as [Hid1 _].
  assert (tenants_keyed (store_state state1 i1) ∧
          ∀ id', Some id ≠ Some id' →
            userStates (store_state state1 i1) !! id' = userStates i !! id')
    as [Hkeyed Hframe].
  { split.
    - apply map_Forall_insert_2; [done|exact Hi1].
    - intros id' Hne. simpl. rewrite lookup_insert_ne by congruence.
      apply Hother. congruence. }
  destruct (_ =? _)%Z.
  { by destruct (_ && _). }
  destruct (_ <? _)%Z; [done|].
  destruct (series_add series _) as [series' err].
  assert (tenants_keyed
            (store_state (set_fpToSeries (<[fp := series']> (fpToSeries state1)) state1)
               (store_state state1 i1)) ∧
          ∀ id', Some id ≠ Some id' →
            userStates
              (store_state (set_fpToSeries (<[fp := series']> (fpToSeries state1)) state1)
                 (store_state state1 i1)) !! id' = userStates i !! id') as [Hk Hf].
  { split.
    - apply map_Forall_insert_2; [done|exact Hkeyed].
    - intros id' Hne. simpl. rewrite !lookup_insert_ne by congruence.
      apply Hother. congruence. }
  by destruct err.
Qed.

(** X22.  Tenants are kept apart: a batch appended for one tenant leaves
    the state of every other tenant as it was, whatever the outcome of the
    batch; a batch without a user id changes no tenant. *)
Theorem Ingester_Append_isolated (i : Ingester) (ctx : option string)
    (samples : list Sample) (id : string) :
  tenants_keyed i → ctx ≠ Some id →
  userStates (Ingester_Append i ctx samples).1 !! id = userStates i !! id.
Proof.
  intros Hi Hne. revert i Hi. induction samples as [|sample samples IH]; intros i Hi.
  { done. }
  simpl. destruct (Ingester_append_isolated i ctx sample Hi) as [Hi1 Hframe].
  destruct (Ingester_append i ctx sample) as [i1 [err|]]; simpl in *.
  - by apply Hframe.
  - rewrite IH by done. by apply Hframe.
Qed.

End Isolation.

Lemma Ingester_Append_isolated_witness :
  tenants_keyed (test_appended None) ∧ Some "B" ≠ Some "A" ∧
  userStates (Ingester_Append (test_appended None) (Some "B")
                [test_sample 100 1; test_sample 50 2]).1 !! "A"
  = Some (test_state None).
Proof.
  assert (tenants_keyed (test_appended None)) as H1.
  { apply map_Forall_singleton. reflexivity. }
  assert (Some "B" ≠ Some "A") as H2 by discriminate.
  split; [exact H1|]. split; [exact H2|].
  exact (Ingester_Append_isolated (test_appended None) (Some "B")
           [test_sample 100 1; test_sample 50 2] "A" H1 H2).
Defined.

(** ** [delete] of a registered series *)

Lemma delete_step_present fp idx name value :
  sorted (stored idx name value) → fp ∈ stored idx name value →
  ∃ idx' l',
    delete_step fp idx (name, value) = Ok idx' ∧
    stored idx name value ≡ₚ fp :: l' ∧
    delete_fingerprint (stored idx name value) fp = Ok l' ∧
    ∀ name' value',
      stored idx' name' value' =
        if decide (name = name' ∧ value = value') then l'
        else stored idx name' value'.
Proof.
  intros Hsorted Hfp.
  destruct (delete_fingerprint_present _ _ Hsorted Hfp) as (l' & Hdel & Hperm).
  destruct (proj1 (elem_of_stored _ _ _ _) Hfp) as (values & l & Hn & Hv & _).
  assert (stored idx name value = l) as Hl by by eapply stored_Some.
  rewrite Hl in *. clear Hl.
  unfold delete_step. rewrite Hn, Hv, Hdel. simpl.
  set (values' := if (length l' =? 0)%nat then delete value values
                  else <[value := l']> values).
  assert (∀ v, default [] (values' !! v)
               = if decide (value = v) then l' else default [] (values !! v)) as Hvalues'.
  { intros v. unfold values'. destruct (Nat.eqb_spec (length l') 0) as [Hlen|Hlen].
    - rewrite lookup_delete. destruct (decide (value = v)); [|done].
      simpl. symmetry. by apply length_zero_iff_nil.
    - rewrite lookup_insert. by destruct (decide (value = v)). }
  eexists _, l'. split; [done|]. split; [done|]. split; [done|].
  intros name' value'. unfold stored.
  destruct (Nat.eqb_spec (size values') 0) as [Hsize|Hsize].
  - apply map_size_empty_iff in Hsize. rewrite lookup_delete.
    destruct (decide (name = name')) as [<-|Hne]; simpl.
    + specialize (Hvalues' value'). rewrite Hsize, lookup_empty in Hvalues'.
      simpl in Hvalues'. rewrite lookup_empty, Hn. simpl.
      destruct (decide (value = value')) as [<-|?].
      * by rewrite decide_True.
      * by rewrite decide_False by by intros [_ ?].
    + by rewrite decide_False by by intros [? _].
  - rewrite lookup_insert. destruct (decide (name = name')) as [<-|Hne]; simpl.
    + rewrite Hvalues', Hn. simpl. destruct (decide (value = value')) as [<-|?].
      * by rewrite decide_True.
      * by rewrite decide_False by by intros [_ ?].
    + by rewrite decide_False by by intros [? _].
Qed.

Lemma delete_entries_present fp idx entries :
  NoDup entries.*1 → index_strictly_sorted idx →
  (∀ name value, (name, value) ∈ entries → fp ∈ stored idx name value) →
  ∃ idx',
    delete_entries idx entries fp = Ok idx' ∧
    ∀ name value x,
      x ∈ stored idx' name value ↔
      x ∈ stored idx name value ∧ ¬ (x = fp ∧ (name, value) ∈ entries).
Proof.
  revert idx. induction entries as [|[n v] entries IH]; intros idx Hnd Hidx Hin.
  { exists idx. split; [done|]. intros name value x. split; [|by intros [? _]].
    intros ?. split; [done|]. by intros [_ ?%elem_of_nil]. }
  apply NoDup_cons in Hnd as [Hn Hnd]. simpl in Hn.
  assert (strictly_sorted (stored idx n v)) as Hstrict
    by (apply (stored_lists strictly_sorted); [constructor|done]).
  destruct (delete_step_present fp idx n v) as (idx1 & l' & Hstep & Hperm & Hdel & Hstored).
  { by apply strictly_sorted_sorted. }
  { apply Hin. by left. }
  destruct (IH idx1) as (idx' & Hrest & Hchar); [done| |..].
  { eapply delete_step_lists; [|done..]. intros l0 l1. apply strictly_sorted_sublist. }
  { intros name value Hentry. rewrite Hstored.
    rewrite decide_False; [apply Hin; by right|].
    intros [-> ->]. apply Hn. apply list_elem_of_fmap. by exists (name, value). }
  exists idx'. split; [cbn [delete_entries]; by rewrite Hstep|].
  intros name value x. rewrite Hchar, Hstored.
  destruct (decide (n = name ∧ v = value)) as [[-> ->]|Hne].
  - rewrite (delete_fingerprint_present_strict _ fp l' x Hstrict) by (done || (apply Hin; by left)).
    split.
    + intros [[Hx Hxfp] _]. split; [done|]. by intros [? _].
    + intros [Hx Hnot]. split; [split; [done|]|].
      * intros ->. apply Hnot. split; [done|by left].
      * intros [-> _]. apply Hnot. split; [done|by left].
  - split.
    + intros [Hx Hnot]. split; [done|]. intros [-> [[= -> ->]|?]%elem_of_cons]; [by apply Hne|].
      by apply Hnot.
    + intros [Hx Hnot]. split; [done|]. intros [-> ?]. apply Hnot. split; [done|by right].
Qed.

(** X21.  Called for a series that is registered, as [flushSeries] calls
    it, [delete] does not panic and is the inverse of the registration: on
    an index with strictly sorted lists that is in step with the series, it
    removes the fingerprint from the lists of the series' labels and leaves
    the index in step with the remaining series, strictly sorted and with no
    empty list or map. *)
Theorem invertedIndex_delete_registered (idx : invertedIndex) (series : gmap N Metric)
    (m : Metric) (fp : Fingerprint) :
  index_strictly_sorted idx → index_pruned idx → index_represents idx series →
  series !! fp = Some m →
  ∃ idx',
    invertedIndex_delete idx m fp = Ok idx' ∧
    index_strictly_sorted idx' ∧ index_pruned idx' ∧
    index_represents idx' (delete fp series).
Proof.
  intros Hsorted Hpruned Hrep Hfp.
  pose proof (proj1 (index_represents_stored _ _) Hrep) as Hrep'.
  destruct (delete_entries_present fp idx (map_to_list m)) as (idx' & Hdel & Hchar).
  { apply NoDup_fst_map_to_list. }
  { done. }
  { intros name value Hin%elem_of_map_to_list. apply Hrep'. by exists m. }
  exists idx'. split; [done|]. split_and!.
  - by eapply invertedIndex_delete_strictly_sorted.
  - by eapply delete_entries_pruned.
  - apply index_represents_stored. intros name value x.
    rewrite Hchar, Hrep', elem_of_map_to_list. split.
    + intros [(m' & Hx & Hm') Hnot]. exists m'. split; [|done].
      rewrite lookup_delete_ne; [done|]. intros <-.
      apply Hnot. split; [done|]. congruence.
    + intros (m' & Hx & Hm').
      destruct (decide (fp = x)) as [<-|Hne]; [by rewrite lookup_delete_eq in Hx|].
      rewrite lookup_delete_ne in Hx by done.
      split; [by exists m'|]. by intros [-> _].
Qed.

Lemma invertedIndex_delete_registered_witness :
  index_strictly_sorted test_index ∧ index_pruned test_index ∧
  index_represents test_index test_series_map ∧
  test_series_map !! 2%N = Some test_s2 ∧
  ∃ idx', invertedIndex_delete test_index test_s2 2 = Ok idx' ∧
          index_represents idx' (delete 2%N test_series_map).
Proof.
  assert (index_strictly_sorted test_index ∧
          index_represents test_index test_series_map) as [Hs Hrep].
  { repeat apply invertedIndex_add_registers; [|reflexivity..].
    split; [apply index_lists_empty|apply index_represents_empty]. }
  assert (test_series_map !! 2%N = Some test_s2) as Hfp by reflexivity.
  split; [exact Hs|]. split; [exact index_pruned_test_index|].
  split; [exact Hrep|]. split; [exact Hfp|].
  destruct (invertedIndex_delete_registered test_index test_series_map test_s2 2
              Hs index_pruned_test_index Hrep Hfp) as (idx' & Hdel & _ & _ & Hrep').
  exists idx'. split; [exact Hdel|exact Hrep'].
Defined.

(** ** Label values of a tenant *)

(** X23.  For a tenant the ingester holds, with its index in step with its
    series map, [LabelValuesForLabelName] changes nothing and returns nil
    exactly when no series of the tenant carries the label name: a nil
    result means that none carries it, and any other result is a non-empty
    list, of the values that the tenant's series carry under the name, each
    once. *)
Theorem LabelValuesForLabelName_known_tenant `{Package} (i : Ingester) (id : string)
    (u : userState) (name : LabelName) :
  userStates i !! id = Some u → state_consistent u →
  ∃ r, Ingester_LabelValuesForLabelName i (Some id) name = (i, inr r) ∧
       match r with
       | None => ∀ fp s, fpToSeries u !! fp = Some s → metric s !! name = None
       | Some values =>
           values ≠ [] ∧ NoDup values ∧
           ∀ value, value ∈ values ↔
             ∃ fp s, fpToSeries u !! fp = Some s ∧ metric s !! name = Some value
       end.
Proof.
  intros Hid (_ & Hpruned & Hrep).
  unfold Ingester_LabelValuesForLabelName, getStateFor. rewrite Hid.
  eexists. split; [done|].
  pose proof (lookupLabelValues_spec (index u) (series_metrics u) name Hpruned Hrep)
    as Hspec.
  destruct (invertedIndex_lookupLabelValues (index u) name) as [values|].
  - destruct Hspec as (Hne & Hnd & Hvalues). split_and!; [done..|]. intros value.
    rewrite Hvalues. unfold series_metrics. split.
    + intros (fp & m & Hm & Hv). rewrite lookup_fmap in Hm.
      destruct (fpToSeries u !! fp) as [s|] eqn:Hs; [|done].
      injection Hm as <-. by exists fp, s.
    + intros (fp & s & Hs & Hv). exists fp, (metric s).
      by rewrite lookup_fmap, Hs.
  - intros fp s Hs. apply (Hspec fp). unfold series_metrics.
    by rewrite lookup_fmap, Hs.
Qed.

Lemma LabelValuesForLabelName_known_tenant_witness :
  userStates (test_appended None) !! "A" = Some (test_state None) ∧
  state_consistent (test_state None) ∧
  Ingester_LabelValuesForLabelName (test_appended None) (Some "A") "job"
  = (test_appended None, inr (Some ["x"])).
Proof.
  assert (userStates (test_appended None) !! "A" = Some (test_state None)) as H1
    by reflexivity.
  pose proof (test_state_consistent None) as H2.
  split; [exact H1|]. split; [exact H2|].
  destruct (LabelValuesForLabelName_known_tenant (test_appended None) "A"
              (test_state None) "job" H1 H2) as (r & Hr & _).
  rewrite Hr. vm_compute in Hr. injection Hr as <-. reflexivity.
Defined.
